(** * EntameLog (MyApp3045): the viewing-history store and the media lookup

    A shallow embedding of [src/main.js]: the three operations behind the
    IPC handlers ([recordViewingHistory], [getAllViewingHistory] and
    [searchMediaWithGemini]) together with the part of the JavaScript
    runtime they rely on (strings, [trim], the fence-stripping [replace],
    numbers, [JSON.parse], [ToString], [Array.prototype.join]).

    Conventions.
    - A JavaScript string is its sequence of UTF-16 code units
      ([jsstring]); the literals of the program are written as Rocq
      strings and decoded by [js].
    - The SQLite file is a list of rows in rowid order, each row as a
      [SELECT] reads it: a text that went in through UTF-8 has U+FFFD
      where the string had a surrogate without its partner.
    - The clock, the storage engine and the generative service are the
      environment and appear as explicit arguments; the limits of the
      engine on memory and on the depth of recursion are left out. *)

From Stdlib Require Import Ascii String.
From Stdlib Require Import List NArith ZArith Lia Bool.
From Stdlib Require Import Sorting.Sorted Sorting.Permutation.
Import ListNotations.

Set Implicit Arguments.
Set Warnings "-register-all".

(* ================================================================== *)
(** * JavaScript strings                                                *)
(* ================================================================== *)

Module JsString.

Local Open Scope N_scope.

(** A string value: a finite sequence of 16-bit code units. *)
Definition jsstring : Type := list N.

(** ** Literals

    [js] reads the UTF-8 bytes of a Rocq literal the way the JavaScript
    source text is read: as code points, then as UTF-16 code units. *)

Fixpoint decode_utf8 (pending : N) (need : nat) (bs : list N) : list N :=
  match bs with
  | [] => []
  | b :: bs' =>
      match need with
      | O =>
          if b <? 128 then b :: decode_utf8 0 0 bs'
          else if b <? 224 then decode_utf8 (N.land b 31) 1 bs'
          else if b <? 240 then decode_utf8 (N.land b 15) 2 bs'
          else decode_utf8 (N.land b 7) 3 bs'
      | S O => (pending * 64 + N.land b 63) :: decode_utf8 0 0 bs'
      | S n => decode_utf8 (pending * 64 + N.land b 63) n bs'
      end
  end.

Definition utf16_of_code_point (cp : N) : list N :=
  if cp <? 65536 then [cp]
  else let c := cp - 65536 in [55296 + c / 1024; 56320 + c mod 1024].

Definition bytes_of_string (s : string) : list N :=
  map N_of_ascii (list_ascii_of_string s).

Definition js (s : string) : jsstring :=
  flat_map utf16_of_code_point (decode_utf8 0 0 (bytes_of_string s)).

(** ** Equality and prefixes *)

Fixpoint eqb (a b : jsstring) : bool :=
  match a, b with
  | [], [] => true
  | x :: a', y :: b' => (x =? y) && eqb a' b'
  | _, _ => false
  end.

Fixpoint startsWith (p s : jsstring) : bool :=
  match p, s with
  | [], _ => true
  | x :: p', y :: s' => (x =? y) && startsWith p' s'
  | _ :: _, [] => false
  end.

Definition endsWith (p s : jsstring) : bool :=
  startsWith (rev p) (rev s).

(** Code-unit order, the order SQLite's BINARY collation gives to text
    without supplementary characters (timestamps are ASCII). *)
Fixpoint compare (a b : jsstring) : comparison :=
  match a, b with
  | [], [] => Eq
  | [], _ :: _ => Lt
  | _ :: _, [] => Gt
  | x :: a', y :: b' =>
      match x ?= y with
      | Eq => compare a' b'
      | c => c
      end
  end.

Definition ltb (a b : jsstring) : bool :=
  match compare a b with Lt => true | _ => false end.

Definition leb (a b : jsstring) : bool :=
  match compare a b with Gt => false | _ => true end.

(** ** White space

    The code units matched by [\s] and removed by [trim]: the WhiteSpace
    and LineTerminator productions of ECMAScript. *)
Definition is_white_space (c : N) : bool :=
  ((9 <=? c) && (c <=? 13))          (* TAB LF VT FF CR *)
  || (c =? 32)                        (* SPACE *)
  || (c =? 160)                       (* NO-BREAK SPACE *)
  || (c =? 5760)                      (* U+1680 *)
  || ((8192 <=? c) && (c <=? 8202))   (* U+2000 .. U+200A *)
  || (c =? 8232) || (c =? 8233)       (* U+2028 U+2029 *)
  || (c =? 8239)                      (* U+202F *)
  || (c =? 8287)                      (* U+205F *)
  || (c =? 12288)                     (* U+3000 *)
  || (c =? 65279).                    (* U+FEFF *)

Fixpoint trimStart (s : jsstring) : jsstring :=
  match s with
  | [] => []
  | c :: s' => if is_white_space c then trimStart s' else s
  end.

Definition trimEnd (s : jsstring) : jsstring :=
  rev (trimStart (rev s)).

(** [String.prototype.trim] *)
Definition trim (s : jsstring) : jsstring :=
  trimEnd (trimStart s).

(** A string is blank when it has nothing but white space. *)
Definition blank (s : jsstring) : Prop :=
  Forall (fun c => is_white_space c = true) s.

End JsString.

Export JsString.

(* ================================================================== *)
(** * JavaScript numbers                                                *)
(* ================================================================== *)

(** Numbers are IEEE-754 binary64 values. A finite one is kept as sign,
    integer significand and binary exponent, [m * 2^e], so that the two
    conversions the program performs (a decimal literal read by
    [JSON.parse], and [ToString] in a template literal or [join]) are
    exact integer computations. *)

Module Number.

Local Open Scope Z_scope.

Inductive number : Type :=
| NaN
| Infinity (neg : bool)
| Finite (neg : bool) (m : Z) (e : Z).

(** [ratio_ge_pow b k p q]: [b^k <= p / q] for positive [p], [q]. *)
Definition ratio_ge_pow (b k p q : Z) : bool :=
  if 0 <=? k then q * b ^ k <=? p else q <=? p * b ^ (- k).

(** The binary64 value nearest to [p / q] ([p], [q] positive), ties to
    even; the significand is in [2^52, 2^53) unless the value is
    subnormal (exponent -1074). *)
Definition round_ratio (neg : bool) (p q : Z) : number :=
  let e0 := Z.log2 p - Z.log2 q - 52 in
  let e1 := if ratio_ge_pow 2 (e0 + 52) p q then e0 else e0 - 1 in
  let e := Z.max e1 (-1074) in
  let num := if e <? 0 then p * 2 ^ (- e) else p in
  let den := if e <? 0 then q else q * 2 ^ e in
  let d := num / den in
  let r := num mod den in
  let m := if (den <? 2 * r) || ((den =? 2 * r) && Z.odd d) then d + 1 else d in
  let me := if m =? 2 ^ 53 then (2 ^ 52, e + 1) else (m, e) in
  if 971 <? snd me then Infinity neg else Finite neg (fst me) (snd me).

(** The value of the decimal [m10 * 10^e10] ([m10 >= 0]). The guards on
    the magnitude only avoid powers that cannot matter: above 10^400 is
    infinite, below 10^-400 is zero. *)
Definition of_decimal (neg : bool) (m10 e10 : Z) : number :=
  if m10 <=? 0 then Finite neg 0 0
  else
    let mag := Z.log2 m10 * 30103 / 100000 + e10 in
    if 400 <? mag then Infinity neg
    else if mag <? -400 then Finite neg 0 0
    else if 0 <=? e10 then round_ratio neg (m10 * 10 ^ e10) 1
    else round_ratio neg m10 (10 ^ (- e10)).

(** An integer column read back from the store. *)
Definition of_Z (z : Z) : number :=
  of_decimal (z <? 0) (Z.abs z) 0.

Definition same_value (x y : number) : bool :=
  match x, y with
  | Finite _ m e, Finite _ m' e' => (m =? m') && (e =? e')
  | Infinity _, Infinity _ => true
  | _, _ => false
  end.

(** ** Number::toString

    For a positive finite [v = p / q]: the integers [n], [k], [s] of the
    specification, [k] least with [s * 10^(n-k)] reading back as [v]. *)

Fixpoint raise_log10 (fuel : nat) (t p q : Z) : Z :=
  match fuel with
  | O => t
  | S fuel' => if ratio_ge_pow 10 (t + 1) p q then raise_log10 fuel' (t + 1) p q else t
  end.

(** The largest [t] with [10^t <= p / q]. *)
Definition floor_log10 (p q : Z) : Z :=
  let x := Z.log2 p - Z.log2 q - 1 in
  let t0 := (if 0 <=? x then x * 30102 / 100000 else x * 30103 / 100000) - 1 in
  raise_log10 8 t0 p q.

(** [floor (p / q / 10^j)] *)
Definition scaled_floor (p q j : Z) : Z :=
  if 0 <=? j then p / (q * 10 ^ j) else (p * 10 ^ (- j)) / q.

(** Which of [a * 10^j] and [(a+1) * 10^j] is nearer to [p / q]:
    [Lt] the first, [Gt] the second, [Eq] a tie. *)
Definition nearer (p q a j : Z) : comparison :=
  if 0 <=? j
  then 2 * p ?= (2 * a + 1) * 10 ^ j * q
  else 2 * p * 10 ^ (- j) ?= (2 * a + 1) * q.

Fixpoint shortest (fuel : nat) (k : Z) (v : number) (p q n : Z) : Z * Z * Z :=
  let j := n - k in
  let lo := scaled_floor p q j in
  let hi := lo + 1 in
  let ok_lo := same_value (of_decimal false lo j) v in
  let ok_hi := same_value (of_decimal false hi j) v in
  let pick (s : Z) := if s =? 10 ^ k then (n + 1, k, 10 ^ (k - 1)) else (n, k, s) in
  match fuel with
  | O => pick lo
  | S fuel' =>
      if ok_lo && ok_hi then
        match nearer p q lo j with
        | Lt => pick lo
        | Gt => pick hi
        | Eq => if Z.even lo then pick lo else pick hi
        end
      else if ok_lo then pick lo
      else if ok_hi then pick hi
      else shortest fuel' (k + 1) v p q n
  end.

Definition digit_char (d : Z) : N := Z.to_N (48 + d).

Fixpoint digits_rev (fuel : nat) (n : Z) : list N :=
  match fuel with
  | O => []
  | S fuel' =>
      if n <? 10 then [digit_char n]
      else digit_char (n mod 10) :: digits_rev fuel' (n / 10)
  end.

(** Decimal digits of a non-negative integer. *)
Definition digits (n : Z) : jsstring :=
  rev (digits_rev (S (Z.to_nat (Z.log2 n))) n).

Definition zeros (n : Z) : jsstring := repeat 48%N (Z.to_nat n).

Definition format (n k s : Z) : jsstring :=
  let ds := digits s in
  if (k <=? n) && (n <=? 21) then ds ++ zeros (n - k)
  else if (0 <? n) && (n <=? 21) then
    firstn (Z.to_nat n) ds ++ js "." ++ skipn (Z.to_nat n) ds
  else if (-6 <? n) && (n <=? 0) then js "0." ++ zeros (- n) ++ ds
  else
    let ex := (if 0 <=? n - 1 then js "e+" else js "e-") ++ digits (Z.abs (n - 1)) in
    if k =? 1 then ds ++ ex
    else firstn 1 ds ++ js "." ++ skipn 1 ds ++ ex.

Definition to_string (x : number) : jsstring :=
  match x with
  | NaN => js "NaN"
  | Infinity neg => (if neg then js "-" else []) ++ js "Infinity"
  | Finite neg m e =>
      if m <=? 0 then js "0"
      else
        let p := if 0 <=? e then m * 2 ^ e else m in
        let q := if 0 <=? e then 1 else 2 ^ (- e) in
        let n := floor_log10 p q + 1 in
        let '(n', k, s) := shortest 17 1 (round_ratio false p q) p q n in
        (if neg then js "-" else []) ++ format n' k s
  end.

(** [ToBoolean] on a number. *)
Definition to_boolean (x : number) : bool :=
  match x with
  | NaN => false
  | Infinity _ => true
  | Finite _ m _ => 0 <? m
  end.

End Number.

(* ================================================================== *)
(** * JSON values and [JSON.parse]                                      *)
(* ================================================================== *)

Module JSON.

Local Open Scope N_scope.

(** What [JSON.parse] returns. An object keeps its members in source
    order; a later member with the same key overrides an earlier one
    (see [get]). *)
Inductive value : Type :=
| Null
| Bool (b : bool)
| Num (x : Number.number)
| Str (s : jsstring)
| Arr (elements : list value)
| Obj (members : list (jsstring * value)).

Definition ch (a : ascii) : N := N_of_ascii a.
Arguments ch : simpl never.

Definition quote : N := 34.
Definition backslash : N := 92.

(** JSON white space: TAB, LF, CR, SPACE. *)
Definition is_ws (c : N) : bool :=
  (c =? 9) || (c =? 10) || (c =? 13) || (c =? 32).

Fixpoint skip_ws (s : jsstring) : jsstring :=
  match s with
  | [] => []
  | c :: s' => if is_ws c then skip_ws s' else s
  end.

Definition is_digit (c : N) : bool := (48 <=? c) && (c <=? 57).

Definition hex_value (c : N) : option N :=
  if is_digit c then Some (c - 48)
  else if (65 <=? c) && (c <=? 70) then Some (c - 55)
  else if (97 <=? c) && (c <=? 102) then Some (c - 87)
  else None.

Definition hex4 (a b c d : N) : option N :=
  match hex_value a, hex_value b, hex_value c, hex_value d with
  | Some x, Some y, Some z, Some w => Some (((x * 16 + y) * 16 + z) * 16 + w)
  | _, _, _, _ => None
  end.

(** The character an escape letter stands for. *)
Definition escape (c : N) : option N :=
  if c =? quote then Some quote
  else if c =? backslash then Some backslash
  else if c =? ch "/" then Some (ch "/")
  else if c =? ch "b" then Some 8
  else if c =? ch "f" then Some 12
  else if c =? ch "n" then Some 10
  else if c =? ch "r" then Some 13
  else if c =? ch "t" then Some 9
  else None.

Definition cons_char (c : N) (r : option (jsstring * jsstring))
  : option (jsstring * jsstring) :=
  match r with
  | Some (s, rest) => Some (c :: s, rest)
  | None => None
  end.

(** The characters of a string literal after its opening quote, up to
    and including the closing quote. *)
Fixpoint parse_chars (s : jsstring) : option (jsstring * jsstring) :=
  match s with
  | [] => None
  | c :: r =>
      if c =? quote then Some ([], r)
      else if c =? backslash then
        match r with
        | [] => None
        | x :: r1 =>
            if x =? ch "u" then
              match r1 with
              | h1 :: h2 :: h3 :: h4 :: r2 =>
                  match hex4 h1 h2 h3 h4 with
                  | Some u => cons_char u (parse_chars r2)
                  | None => None
                  end
              | _ => None
              end
            else
              match escape x with
              | Some y => cons_char y (parse_chars r1)
              | None => None
              end
        end
      else if c <? 32 then None
      else cons_char c (parse_chars r)
  end.

(** A maximal run of digits. *)
Fixpoint take_digits (s : jsstring) : list N * jsstring :=
  match s with
  | [] => ([], [])
  | c :: s' =>
      if is_digit c
      then let '(ds, rest) := take_digits s' in (c - 48 :: ds, rest)
      else ([], s)
  end.

Definition digits_value (ds : list N) : Z :=
  fold_left (fun acc d => (acc * 10 + Z.of_N d)%Z) ds 0%Z.

(** int: [0] or a non-zero digit followed by digits. *)
Definition parse_int (s : jsstring) : option (list N * jsstring) :=
  match s with
  | [] => None
  | c :: s' =>
      if c =? 48 then Some ([0], s')
      else if is_digit c then Some (take_digits s)
      else None
  end.

(** frac: nothing, or [.] and at least one digit. *)
Definition parse_frac (s : jsstring) : option (list N * jsstring) :=
  match s with
  | c :: s' =>
      if c =? ch "." then
        match take_digits s' with
        | ([], _) => None
        | r => Some r
        end
      else Some ([], s)
  | [] => Some ([], s)
  end.

(** The optional sign of an exponent. *)
Definition exp_sign (s : jsstring) : bool * jsstring :=
  match s with
  | x :: s' =>
      if x =? ch "-" then (true, s')
      else if x =? ch "+" then (false, s')
      else (false, s)
  | [] => (false, s)
  end.

(** exp: nothing, or [e]/[E], an optional sign and at least one digit. *)
Definition parse_exp (s : jsstring) : option (Z * jsstring) :=
  match s with
  | c :: s' =>
      if (c =? ch "e") || (c =? ch "E") then
        let '(neg, s1) := exp_sign s' in
        match take_digits s1 with
        | ([], _) => None
        | (ds, rest) =>
            Some ((if neg then - digits_value ds else digits_value ds)%Z, rest)
        end
      else Some (0%Z, s)
  | [] => Some (0%Z, s)
  end.

(** The optional minus sign of a number. *)
Definition minus_sign (s : jsstring) : bool * jsstring :=
  match s with
  | c :: s' => if c =? ch "-" then (true, s') else (false, s)
  | [] => (false, s)
  end.

Definition parse_number (s : jsstring) : option (value * jsstring) :=
  let '(neg, s0) := minus_sign s in
  match parse_int s0 with
  | None => None
  | Some (int_ds, s1) =>
      match parse_frac s1 with
      | None => None
      | Some (frac_ds, s2) =>
          match parse_exp s2 with
          | None => None
          | Some (ex, s3) =>
              let m10 := digits_value (int_ds ++ frac_ds) in
              let e10 := (ex - Z.of_nat (length frac_ds))%Z in
              Some (Num (Number.of_decimal neg m10 e10), s3)
          end
      end
  end.

Definition parse_keyword (kw : jsstring) (v : value) (s : jsstring)
  : option (value * jsstring) :=
  if startsWith kw s then Some (v, skipn (length kw) s) else None.

(** The value production. [parse_elements] and [parse_members] read
    what follows [[] or [{] once white space is skipped and the bracket
    is known not to close at once; they carry the items read so far in
    reverse. Every call spends one unit of fuel. *)
Fixpoint parse_value (fuel : nat) (s : jsstring) : option (value * jsstring) :=
  match fuel with
  | O => None
  | S fuel' =>
      match s with
      | [] => None
      | c :: r =>
          if c =? ch "{" then
            match skip_ws r with
            | x :: r1 =>
                if x =? ch "}" then Some (Obj [], r1)
                else parse_members fuel' (x :: r1) []
            | [] => None
            end
          else if c =? ch "[" then
            match skip_ws r with
            | x :: r1 =>
                if x =? ch "]" then Some (Arr [], r1)
                else parse_elements fuel' (x :: r1) []
            | [] => None
            end
          else if c =? quote then
            match parse_chars r with
            | Some (str, rest) => Some (Str str, rest)
            | None => None
            end
          else if c =? ch "t" then parse_keyword (js "true") (Bool true) s
          else if c =? ch "f" then parse_keyword (js "false") (Bool false) s
          else if c =? ch "n" then parse_keyword (js "null") Null s
          else parse_number s
      end
  end

with parse_elements (fuel : nat) (s : jsstring) (acc : list value)
  : option (value * jsstring) :=
  match fuel with
  | O => None
  | S fuel' =>
      match parse_value fuel' s with
      | None => None
      | Some (v, r) =>
          match skip_ws r with
          | x :: r1 =>
              if x =? ch "," then parse_elements fuel' (skip_ws r1) (v :: acc)
              else if x =? ch "]" then Some (Arr (rev (v :: acc)), r1)
              else None
          | [] => None
          end
      end
  end

with parse_members (fuel : nat) (s : jsstring) (acc : list (jsstring * value))
  : option (value * jsstring) :=
  match fuel with
  | O => None
  | S fuel' =>
      match s with
      | c :: r =>
          if c =? quote then
            match parse_chars r with
            | None => None
            | Some (key, r1) =>
                match skip_ws r1 with
                | y :: r2 =>
                    if y =? ch ":" then
                      match parse_value fuel' (skip_ws r2) with
                      | None => None
                      | Some (v, r3) =>
                          match skip_ws r3 with
                          | x :: r4 =>
                              if x =? ch ","
                              then parse_members fuel' (skip_ws r4) ((key, v) :: acc)
                              else if x =? ch "}"
                              then Some (Obj (rev ((key, v) :: acc)), r4)
                              else None
                          | [] => None
                          end
                      end
                    else None
                | [] => None
                end
            end
          else None
      | [] => None
      end
  end.

(** [JSON.parse text]: [None] when it throws a SyntaxError. Two units of
    fuel for each code unit are enough for every text (see
    [parse_value_fuel]). *)
Definition parse (text : jsstring) : option value :=
  match parse_value (2 * length text + 2) (skip_ws text) with
  | Some (v, rest) =>
      match skip_ws rest with
      | [] => Some v
      | _ :: _ => None
      end
  | None => None
  end.

End JSON.

(* ================================================================== *)
(** * Conversions and property access on parsed values                 *)
(* ================================================================== *)

Import JSON.

Definition LF : jsstring := [10%N].
Definition DQ : jsstring := [JSON.quote].

(** [parts.join(sep)] on an array of strings. *)
Fixpoint intercalate (sep : jsstring) (parts : list jsstring) : jsstring :=
  match parts with
  | [] => []
  | [p] => p
  | p :: rest => p ++ sep ++ intercalate sep rest
  end.

(** [ToBoolean] *)
Definition ToBoolean (v : value) : bool :=
  match v with
  | Null => false
  | Bool b => b
  | Num x => Number.to_boolean x
  | Str s => match s with [] => false | _ :: _ => true end
  | Arr _ => true
  | Obj _ => true
  end.

(** The result of reading a property. *)
Inductive property : Type :=
| Undefined
| Defined (v : value).

(** The own property [key] of an object made by [JSON.parse]: of two
    members with the same key the later one counts. *)
Fixpoint own_property (members : list (jsstring * value)) (key : jsstring)
  (found : property) : property :=
  match members with
  | [] => found
  | (k, v) :: rest =>
      own_property rest key (if JsString.eqb k key then Defined v else found)
  end.

(** [v.key] for a key that no prototype defines (the program reads
    [summary], [genre] and [streaming_sites]): [None] is the TypeError
    of reading a property of [null]. *)
Definition get (v : value) (key : jsstring) : option property :=
  match v with
  | Null => None
  | Obj members => Some (own_property members key Undefined)
  | _ => Some Undefined
  end.

(** The strings of a list of conversions, unless one of them threw. *)
Fixpoint collect (A : Type) (l : list (option A)) : option (list A) :=
  match l with
  | [] => Some []
  | x :: l' =>
      match x, collect l' with
      | Some p, Some ps => Some (p :: ps)
      | _, _ => None
      end
  end.

(** [ToString], as applied by a template literal; [None] is a TypeError.
    An array prints as its elements joined by commas, [null] elements as
    nothing. An object prints through the [toString] it inherits, as
    [[object Object]], unless it has a member of that name: a value read
    from JSON is no function, [valueOf] gives back the object, and the
    conversion throws. *)
Fixpoint ToString (v : value) : option jsstring :=
  match v with
  | Null => Some (js "null")
  | Bool true => Some (js "true")
  | Bool false => Some (js "false")
  | Num x => Some (Number.to_string x)
  | Str s => Some s
  | Arr elements =>
      option_map (intercalate (js ","))
        ((fix each (l : list value) : option (list jsstring) :=
            match l with
            | [] => Some []
            | x :: l' =>
                match match x with Null => Some [] | _ => ToString x end,
                      each l' with
                | Some p, Some ps => Some (p :: ps)
                | _, _ => None
                end
            end) elements)
  | Obj members =>
      match own_property members (js "toString") Undefined with
      | Undefined => Some (js "[object Object]")
      | Defined _ => None
      end
  end.

(** How [join] prints one element. *)
Definition join_element (v : value) : option jsstring :=
  match v with
  | Null => Some []
  | _ => ToString v
  end.

(** [Array.prototype.join] *)
Definition join (sep : jsstring) (elements : list value) : option jsstring :=
  option_map (intercalate sep) (collect (map join_element elements)).

Definition truthy_property (p : property) : bool :=
  match p with
  | Undefined => false
  | Defined v => ToBoolean v
  end.

(* ================================================================== *)
(** * The history store                                                *)
(* ================================================================== *)

(** A JavaScript [Error]; the program reads its [message] only. *)
Inductive Error : Type :=
| MkError (message : jsstring).

Definition error_message (e : Error) : jsstring :=
  match e with MkError m => m end.

Module ViewingHistory.

(** A row of the table created at start-up:
    [id INTEGER PRIMARY KEY AUTOINCREMENT], three [TEXT NOT NULL]
    columns, [rating INTEGER], [notes TEXT], [recorded_at TEXT NOT NULL],
    [tags TEXT]. A nullable column is an [option]. *)
Record Row : Type := {
  id : Z;
  media_title : jsstring;
  start_date : jsstring;
  end_date : jsstring;
  rating : option Z;
  notes : option jsstring;
  recorded_at : jsstring;
  tags : option jsstring
}.

(** The database file: its rows in rowid order and the AUTOINCREMENT
    counter of the table. *)
Record Database : Type := {
  rows : list Row;
  sequence : Z
}.

Definition empty : Database := {| rows := []; sequence := 0 |}.

(** The seven bound parameters of the INSERT, in the order of its
    column list; an unbound or [null] parameter is [None]. *)
Record Params : Type := {
  p_media_title : option jsstring;
  p_start_date : option jsstring;
  p_end_date : option jsstring;
  p_rating : option Z;
  p_notes : option jsstring;
  p_recorded_at : option jsstring;
  p_tags : option jsstring
}.

(** The driver hands a bound string to SQLite as UTF-8, and a [TEXT]
    column comes back decoded from UTF-8. The two code units of a
    surrogate pair are one character and come back as they were; a
    surrogate without its partner has no UTF-8 form and comes back as
    U+FFFD, the replacement character. *)
Definition is_lead_surrogate (c : N) : bool :=
  ((55296 <=? c) && (c <=? 56319))%N.

Definition is_trail_surrogate (c : N) : bool :=
  ((56320 <=? c) && (c <=? 57343))%N.

Definition replacement_character : N := 65533%N.

Fixpoint bind_text (s : jsstring) : jsstring :=
  match s with
  | [] => []
  | c :: rest =>
      if is_lead_surrogate c then
        match rest with
        | d :: rest' =>
            if is_trail_surrogate d then c :: d :: bind_text rest'
            else replacement_character :: bind_text rest
        | [] => [replacement_character]
        end
      else if is_trail_surrogate c then replacement_character :: bind_text rest
      else c :: bind_text rest
  end.

Definition not_null_failed (column : string) : Error :=
  MkError (js "SQLITE_CONSTRAINT: NOT NULL constraint failed: ViewingHistory."
             ++ js column).

(** [db.run('INSERT INTO ViewingHistory (...) VALUES (?, ?, ?, ?, ?, ?, ?)', params, cb)]:
    the database afterwards and the error handed to the callback.
    [fault] is an error of the engine itself (I/O, busy, closed handle);
    without one the row is appended unless a NOT NULL column would be
    null. The row is written as a later [SELECT] reads it: the five
    texts of the caller as [bind_text] leaves them. The timestamp is the
    result of [toISOString], made of characters below U+0080, which the
    conversion leaves as they are. *)
Definition run_insert (fault : option Error) (p : Params) (db : Database)
  : Database * option Error :=
  match fault with
  | Some err => (db, Some err)
  | None =>
      match p_media_title p, p_start_date p, p_end_date p, p_recorded_at p with
      | None, _, _, _ => (db, Some (not_null_failed "media_title"))
      | _, None, _, _ => (db, Some (not_null_failed "start_date"))
      | _, _, None, _ => (db, Some (not_null_failed "end_date"))
      | _, _, _, None => (db, Some (not_null_failed "recorded_at"))
      | Some title, Some start, Some stop, Some at_ =>
          let row := {| id := sequence db + 1;
                        media_title := bind_text title;
                        start_date := bind_text start;
                        end_date := bind_text stop;
                        rating := p_rating p;
                        notes := option_map bind_text (p_notes p);
                        recorded_at := at_;
                        tags := option_map bind_text (p_tags p) |} in
          ({| rows := rows db ++ [row]; sequence := sequence db + 1 |}, None)
      end
  end.

(** [ORDER BY recorded_at DESC]: a row goes after the rows with a
    greater key and before the rest, so rows with equal keys stay in
    rowid order (SQL leaves the order among equal keys to the engine). *)
Fixpoint place (r : Row) (sorted : list Row) : list Row :=
  match sorted with
  | [] => [r]
  | x :: rest =>
      if JsString.ltb (recorded_at r) (recorded_at x)
      then x :: place r rest
      else r :: sorted
  end.

Fixpoint order_by_recorded_at_desc (l : list Row) : list Row :=
  match l with
  | [] => []
  | r :: rest => place r (order_by_recorded_at_desc rest)
  end.

(** [db.all('SELECT * FROM ViewingHistory ORDER BY recorded_at DESC', cb)] *)
Definition all_ordered (fault : option Error) (db : Database)
  : Error + list Row :=
  match fault with
  | Some err => inl err
  | None => inr (order_by_recorded_at_desc (rows db))
  end.

End ViewingHistory.

(* ================================================================== *)
(** * The operations of [main.js]                                      *)
(* ================================================================== *)

(** The argument of [recordViewingHistory]: the candidate fields at the
    types of the columns they go to. A field that is missing
    ([undefined] or [null]) is [None]. *)
Record Data : Type := {
  mediaTitle : option jsstring;
  startDate : option jsstring;
  endDate : option jsstring;
  rating : option Z;
  notes : option jsstring;
  tags : option jsstring
}.

(** What the callback of [recordViewingHistory] receives as result. *)
Record Result : Type := {
  success : bool;
  message : jsstring
}.

(** [ToBoolean] on a string that may be missing. *)
Definition truthy (x : option jsstring) : bool :=
  match x with
  | Some (_ :: _) => true
  | _ => false
  end.

(** [${x}] on a string that may be missing. *)
Definition interpolate (x : option jsstring) : jsstring :=
  match x with
  | Some s => s
  | None => js "undefined"
  end.

Definition required_fields_message : jsstring :=
  js "エラー: 作品名、開始日、終了日は必須項目です。".

Definition recorded_message (title : jsstring) : jsstring :=
  js "視聴履歴を記録しました: '" ++ title ++ js "'".

(** [recordViewingHistory(data, callback)]. [recordedAt] is the reading
    [new Date().toISOString()] of the clock and [fault] the engine
    error of the INSERT, if any. The result is the database afterwards
    and the arguments of the callback: [inl err] for [callback(err)],
    [inr result] for [callback(null, result)]. *)
Definition recordViewingHistory (recordedAt : jsstring) (fault : option Error)
  (data : Data) (db : ViewingHistory.Database)
  : ViewingHistory.Database * (Error + Result) :=
  if negb (truthy (mediaTitle data))
     || negb (truthy (startDate data))
     || negb (truthy (endDate data))
  then (db, inr {| success := false; message := required_fields_message |})
  else
    let params :=
      {| ViewingHistory.p_media_title := mediaTitle data;
         ViewingHistory.p_start_date := startDate data;
         ViewingHistory.p_end_date := endDate data;
         ViewingHistory.p_rating := rating data;
         ViewingHistory.p_notes := notes data;
         ViewingHistory.p_recorded_at := Some recordedAt;
         ViewingHistory.p_tags := tags data |} in
    match ViewingHistory.run_insert fault params db with
    | (db', Some err) => (db', inl err)
    | (db', None) =>
        (db', inr {| success := true;
                     message := recorded_message (interpolate (mediaTitle data)) |})
    end.

(** The ['record-history'] handler: an error becomes a failure result. *)
Definition handle_record_history (recordedAt : jsstring) (fault : option Error)
  (data : Data) (db : ViewingHistory.Database)
  : ViewingHistory.Database * Result :=
  match recordViewingHistory recordedAt fault data db with
  | (db', inl err) => (db', {| success := false; message := error_message err |})
  | (db', inr result) => (db', result)
  end.

Definition no_history_message : jsstring := js "まだ視聴履歴がありません。".

Definition history_header : jsstring := js "--- 視聴履歴一覧 ---" ++ LF.

Definition rating_str (rating : option Z) : jsstring :=
  match rating with
  | Some r =>
      if Number.to_boolean (Number.of_Z r)
      then js " (評価:" ++ Number.to_string (Number.of_Z r) ++ js ")"
      else []
  | None => []
  end.

Definition notes_str (notes : option jsstring) : jsstring :=
  match notes with
  | Some n =>
      if truthy (Some n) && truthy (Some (trim n))
      then js " [メモ: " ++ n ++ js "]"
      else []
  | None => []
  end.

Definition tags_str (tags : option jsstring) : jsstring :=
  match tags with
  | Some t =>
      if truthy (Some t) && truthy (Some (trim t))
      then js " [タグ: " ++ t ++ js "]"
      else []
  | None => []
  end.

(** The body of the [forEach]: what one row adds to [displayText]. *)
Definition display_row (row : ViewingHistory.Row) : jsstring :=
  let '(ViewingHistory.Build_Row _ media_title start_date end_date
          rating notes _ tags) := row in
  js "・" ++ start_date ++ js " ~ " ++ end_date ++ js ": " ++ media_title
    ++ rating_str rating ++ notes_str notes ++ tags_str tags ++ LF.

(** [getAllViewingHistory(callback)]: [inl err] for [callback(err)],
    [inr text] for [callback(null, text)]. *)
Definition getAllViewingHistory (fault : option Error)
  (db : ViewingHistory.Database) : Error + jsstring :=
  match ViewingHistory.all_ordered fault db with
  | inl err => inl err
  | inr rows =>
      match rows with
      | [] => inr no_history_message
      | _ :: _ =>
          inr (fold_left (fun displayText row => displayText ++ display_row row)
                 rows history_header)
      end
  end.

(** The ['get-history'] handler. *)
Definition handle_get_history (fault : option Error)
  (db : ViewingHistory.Database) : jsstring :=
  match getAllViewingHistory fault db with
  | inl err => error_message err
  | inr text => text
  end.

(** ** The lookup *)

(** [text.replace(/^```json\s*|```$/g, '')]. The first alternative can
    match at index 0 only (no [m] flag) and takes the white space after
    the opener greedily; the second matches three backticks that end
    the input, searched from where the first match stopped. *)
Definition remove_opening_fence (text : jsstring) : jsstring :=
  if startsWith (js "```json") text
  then trimStart (skipn (length (js "```json")) text)
  else text.

Definition remove_closing_fence (text : jsstring) : jsstring :=
  if endsWith (js "```") text
  then firstn (length text - length (js "```")) text
  else text.

Definition replace_code_fence (text : jsstring) : jsstring :=
  remove_closing_fence (remove_opening_fence text).

(** What the call of the generative service ends in: the text of the
    response, or a thrown error (network, key, quota, blocked reply). *)
Inductive Outcome : Type :=
| Replied (text : jsstring)
| Thrown (error : Error).

Definition prompt_for_title : jsstring := js "作品名を入力してください。".

Definition prompt (mediaTitle : jsstring) : jsstring :=
  js "以下の##作品名##について、指定された##JSON形式##で情報をまとめてください。"
  ++ LF ++ LF ++ js "##作品名##" ++ LF ++ mediaTitle ++ LF ++ LF
  ++ js "##JSON形式##" ++ LF ++ js "{" ++ LF
  ++ js "  " ++ DQ ++ js "summary" ++ DQ ++ js ": " ++ DQ
  ++ js "作品の概要を200文字程度で記述してください。" ++ DQ ++ js "," ++ LF
  ++ js "  " ++ DQ ++ js "genre" ++ DQ ++ js ": " ++ DQ
  ++ js "作品のジャンルを複数記述してください。例: ['ファンタジー', '冒険']"
  ++ DQ ++ js "," ++ LF
  ++ js "  " ++ DQ ++ js "streaming_sites" ++ DQ ++ js ": " ++ DQ
  ++ js "日本国内で視聴可能な主要な動画配信サイトをリストで記述してください。例: ['Netflix', 'Amazon Prime Video', 'Hulu']"
  ++ DQ ++ LF ++ js "}" ++ LF ++ LF
  ++ js "情報が見つからない場合は、各項目に「情報が見つかりませんでした。」と記述してください。".

Definition no_info : jsstring := js "情報なし".

Definition rule : jsstring := js "----------------------------------------" ++ LF.

Definition attribution : jsstring :=
  LF ++ js "(この情報はGeminiによって生成されました)".

Definition unparseable_notice : jsstring :=
  js "Geminiからの応答を解析できませんでした。" ++ LF ++ LF ++ js "---" ++ LF.

(** [info.summary || '情報なし'], interpolated. *)
Definition summary_text (info : value) : option jsstring :=
  match get info (js "summary") with
  | None => None
  | Some p =>
      match p with
      | Defined v => if ToBoolean v then ToString v else Some no_info
      | Undefined => Some no_info
      end
  end.

(** [info.genre ? info.genre.join(', ') : '情報なし']: calling [join] on
    anything but an array is a TypeError ([None]), and so is an element
    that does not convert to a string. *)
Definition genre_text (info : value) : option jsstring :=
  match get info (js "genre") with
  | None => None
  | Some p =>
      if truthy_property p then
        match p with
        | Defined (Arr genre) => join (js ", ") genre
        | _ => None
        end
      else Some no_info
  end.

(** [info.streaming_sites ? info.streaming_sites.map(site => `- ${site}`).join('\n') : '情報なし'] *)
Definition streaming_sites_text (info : value) : option jsstring :=
  match get info (js "streaming_sites") with
  | None => None
  | Some p =>
      if truthy_property p then
        match p with
        | Defined (Arr sites) =>
            option_map (intercalate LF)
              (collect (map (fun site =>
                               option_map (fun text => js "- " ++ text)
                                 (ToString site)) sites))
        | _ => None
        end
      else Some no_info
  end.

(** The body of the inner [try]: [None] when it throws, a SyntaxError
    from [JSON.parse] or a TypeError while the block is built. *)
Definition formatted_block (mediaTitle text : jsstring) : option jsstring :=
  match JSON.parse text with
  | None => None
  | Some info =>
      match summary_text info, genre_text info, streaming_sites_text info with
      | Some summary, Some genre, Some sites =>
          Some (js "作品: '" ++ mediaTitle ++ js "' の情報" ++ LF
                ++ rule
                ++ js "【概要】" ++ LF ++ summary ++ LF ++ LF
                ++ js "【ジャンル】" ++ LF ++ genre ++ LF ++ LF
                ++ js "【主な配信サイト】" ++ LF ++ sites ++ LF
                ++ rule
                ++ attribution)
      | _, _, _ => None
      end
  end.

Definition transport_error_message (mediaTitle : jsstring) (error : Error)
  : jsstring :=
  js "作品: '" ++ mediaTitle ++ js "' の情報取得中にエラーが発生しました。" ++ LF
  ++ js "APIキーの設定やネットワーク接続を確認してください。" ++ LF
  ++ js "(エラー: " ++ error_message error ++ js ")".

(** [searchMediaWithGemini(mediaTitle)]. [generateContent] stands for the
    service: the outcome of sending it a prompt. The result is the list
    of prompts sent and the text returned. *)
Definition searchMediaWithGemini (generateContent : jsstring -> Outcome)
  (mediaTitle : option jsstring) : list jsstring * jsstring :=
  if negb (truthy mediaTitle) then ([], prompt_for_title)
  else
    let title := interpolate mediaTitle in
    let request := prompt title in
    match generateContent request with
    | Thrown error => ([request], transport_error_message title error)
    | Replied raw =>
        let text := trim (replace_code_fence raw) in
        let formattedResult :=
          match formatted_block title text with
          | Some block => block
          | None => unparseable_notice ++ text
          end in
        ([request], formattedResult)
    end.

(** [getAiRecommendationsMedia()] *)
Definition getAiRecommendationsMedia : jsstring :=
  js "--- AIおすすめ作品 ---" ++ LF
  ++ js "現在、AIおすすめ機能は開発中です。" ++ LF
  ++ js "今後は視聴履歴を基にGeminiが新しい作品をおすすめする機能が追加されます。".

(* ================================================================== *)
(** * Vocabulary of the specification                                  *)
(* ================================================================== *)

(** A required field that is missing or the empty string. *)
Definition missing_or_empty (x : option jsstring) : Prop :=
  x = None \/ x = Some [].

(** [a] is listed no later than [b]: its timestamp is not smaller. *)
Definition newer_or_same (a b : ViewingHistory.Row) : Prop :=
  JsString.leb (ViewingHistory.recorded_at b) (ViewingHistory.recorded_at a)
  = true.

(** The row an accepted [data] becomes in database [db] at clock
    reading [recordedAt]. *)
Definition new_row (db : ViewingHistory.Database) (recordedAt : jsstring)
  (title start stop : jsstring) (data : Data) : ViewingHistory.Row :=
  {| ViewingHistory.id := (ViewingHistory.sequence db + 1)%Z;
     ViewingHistory.media_title := ViewingHistory.bind_text title;
     ViewingHistory.start_date := ViewingHistory.bind_text start;
     ViewingHistory.end_date := ViewingHistory.bind_text stop;
     ViewingHistory.rating := rating data;
     ViewingHistory.notes := option_map ViewingHistory.bind_text (notes data);
     ViewingHistory.recorded_at := recordedAt;
     ViewingHistory.tags := option_map ViewingHistory.bind_text (tags data) |}.

Definition with_row (db : ViewingHistory.Database) (row : ViewingHistory.Row)
  : ViewingHistory.Database :=
  {| ViewingHistory.rows := ViewingHistory.rows db ++ [row];
     ViewingHistory.sequence := (ViewingHistory.sequence db + 1)%Z |}.

(** A string without a lone surrogate: every lead surrogate is followed
    by a trail surrogate, and no trail surrogate stands without its
    lead. *)
Fixpoint well_formed (s : jsstring) : bool :=
  match s with
  | [] => true
  | c :: rest =>
      if ViewingHistory.is_lead_surrogate c then
        match rest with
        | d :: rest' => ViewingHistory.is_trail_surrogate d && well_formed rest'
        | [] => false
        end
      else negb (ViewingHistory.is_trail_surrogate c) && well_formed rest
  end.

(** [stored] is [given] unit by unit, but for surrogates of [given] that
    have become U+FFFD. *)
Definition surrogates_replaced (given stored : jsstring) : Prop :=
  Forall2 (fun c d =>
             d = c
             \/ (d = ViewingHistory.replacement_character
                 /\ (ViewingHistory.is_lead_surrogate c
                     || ViewingHistory.is_trail_surrogate c) = true))
    given stored.

(** How the store returns a text that was bound: unit by unit as
    given but for the surrogates replaced, without a lone surrogate,
    and so the given text itself when that is well-formed. *)
Definition stored_text (given stored : jsstring) : Prop :=
  surrogates_replaced given stored
  /\ well_formed stored = true
  /\ (well_formed given = true -> stored = given).

Definition stored_field (given stored : option jsstring) : Prop :=
  match given, stored with
  | Some g, Some t => stored_text g t
  | None, None => True
  | _, _ => False
  end.

(** An optional field that is absent or well-formed. *)
Definition well_formed_field (x : option jsstring) : bool :=
  match x with
  | Some s => well_formed s
  | None => true
  end.

(** The rating suffix of a line: shown for a rating other than 0. *)
Definition rating_suffix (rating : option Z) (suffix : jsstring) : Prop :=
  match rating with
  | Some z =>
      (z <> 0%Z ->
       suffix = js " (評価:" ++ Number.to_string (Number.of_Z z) ++ js ")")
      /\ (z = 0%Z -> suffix = [])
  | None => suffix = []
  end.

(** The notes or tags suffix of a line: shown for a text that is
    present and not blank. *)
Definition text_suffix (label : jsstring) (text : option jsstring)
  (suffix : jsstring) : Prop :=
  match text with
  | Some t =>
      (~ blank t -> suffix = label ++ t ++ js "]")
      /\ (blank t -> suffix = [])
  | None => suffix = []
  end.

(** The reply the prompt asks for when nothing is known about a title:
    the sentence of the prompt in each of the three fields. *)
Definition not_found_reply : jsstring :=
  js "{" ++ DQ ++ js "summary" ++ DQ ++ js ":" ++ DQ
  ++ js "情報が見つかりませんでした。" ++ DQ ++ js ","
  ++ DQ ++ js "genre" ++ DQ ++ js ":" ++ DQ
  ++ js "情報が見つかりませんでした。" ++ DQ ++ js ","
  ++ DQ ++ js "streaming_sites" ++ DQ ++ js ":" ++ DQ
  ++ js "情報が見つかりませんでした。" ++ DQ ++ js "}".

(** A reply fenced without a language tag. *)
Definition plain_fenced_reply : jsstring :=
  js "```" ++ LF ++ js "{}" ++ LF ++ js "```".

(** A [```json] reply with a line break after the closing fence. *)
Definition newline_after_fence_reply : jsstring :=
  js "```json" ++ LF ++ js "{}" ++ LF ++ js "```" ++ LF.

(** A reply in the form of the specification's example:
    [{"summary":"S","genre":["A","B"],"streaming_sites":["Netflix"]}]
    between a [```json] line and a closing fence. *)
Definition example_reply : jsstring :=
  js "```json" ++ LF
  ++ js "{" ++ DQ ++ js "summary" ++ DQ ++ js ":" ++ DQ ++ js "S" ++ DQ ++ js ","
  ++ DQ ++ js "genre" ++ DQ ++ js ":[" ++ DQ ++ js "A" ++ DQ ++ js ","
  ++ DQ ++ js "B" ++ DQ ++ js "],"
  ++ DQ ++ js "streaming_sites" ++ DQ ++ js ":[" ++ DQ ++ js "Netflix" ++ DQ
  ++ js "]}" ++ LF ++ js "```".

(** Sample inputs: the record of the specification's formatting example,
    and one whose required fields are white space only. *)
Definition example_data : Data :=
  {| mediaTitle := Some (js "Show X");
     startDate := Some (js "2024-05-01");
     endDate := Some (js "2024-05-03");
     rating := Some 8%Z;
     notes := Some (js "great");
     tags := Some (js "drama") |}.

Definition white_space_data : Data :=
  {| mediaTitle := Some (js "   ");
     startDate := Some (js " ");
     endDate := Some (js "  ");
     rating := None;
     notes := None;
     tags := None |}.

(** A record rated 0. *)
Definition zero_rated_data : Data :=
  {| mediaTitle := Some (js "Show X");
     startDate := Some (js "2024-05-01");
     endDate := Some (js "2024-05-03");
     rating := Some 0%Z;
     notes := None;
     tags := None |}.

(** A record whose texts are white space and characters outside ASCII,
    a surrogate pair among them. *)
Definition wide_data : Data :=
  {| mediaTitle := Some (js "　進撃の巨人 😀 ");
     startDate := Some (js " ");
     endDate := Some (js "  ");
     rating := None;
     notes := Some (js "  メモ  ");
     tags := None |}.

(** A record whose title has a lead surrogate without its trail, between
    [a] and [b]. *)
Definition lone_surrogate_data : Data :=
  {| mediaTitle := Some [97; 55296; 98]%N;
     startDate := Some (js "2024-05-01");
     endDate := Some (js "2024-05-03");
     rating := None;
     notes := None;
     tags := None |}.

(** A second record, without optional fields. *)
Definition second_data : Data :=
  {| mediaTitle := Some (js "Show Y");
     startDate := Some (js "2024-05-03");
     endDate := Some (js "2024-05-04");
     rating := None;
     notes := None;
     tags := None |}.

Definition example_clock : jsstring := js "2024-05-04T09:30:00.000Z".

(** A store that already holds a record, made two days before
    [example_clock]. *)
Definition example_db : ViewingHistory.Database :=
  fst (recordViewingHistory (js "2024-05-02T08:00:00.000Z") None
         zero_rated_data ViewingHistory.empty).

(** ** Reading a prefix of the input

    The notions used to show that [JSON.parse] depends neither on its
    fuel nor on white space around the text. *)

(** Two continuations a parser cannot tell apart by looking one code
    unit ahead: the same first unit, or white space or nothing. *)
Definition looks_alike (r r' : jsstring) : Prop :=
  match r, r' with
  | [], [] => True
  | c :: _, [] => is_white_space c = true
  | [], c :: _ => is_white_space c = true
  | c :: _, c' :: _ =>
      c = c' \/ (is_white_space c = true /\ is_white_space c' = true)
  end.

(** [p] reads [x] from the prefix [a] of [s] and leaves [rest],
    whatever look-alike continuation follows [a]. *)
Definition reads {A : Type} (p : jsstring -> option (A * jsstring))
  (s : jsstring) (x : A) (rest a : jsstring) : Prop :=
  s = a ++ rest
  /\ forall r', looks_alike rest r' -> p (a ++ r') = Some (x, r').

(** [p], a parser with fuel, reads [v] from a prefix [a] of [s] that
    neither begins nor ends with white space, with any fuel from twice
    the length of [a] on and whatever look-alike continuation follows. *)
Definition steady (p : nat -> jsstring -> option (value * jsstring))
  (s : jsstring) (v : value) (rest : jsstring) : Prop :=
  exists a, s = a ++ rest
    /\ match a with c :: _ => is_white_space c = false | [] => False end
    /\ match rev a with d :: _ => is_white_space d = false | [] => True end
    /\ forall fuel r', (2 * length a <= fuel)%nat -> looks_alike rest r' ->
         p fuel (a ++ r') = Some (v, r').

(** The first, or the last, code unit is not white space. *)
Definition solid_head (a : jsstring) : Prop :=
  match a with
  | c :: _ => is_white_space c = false
  | [] => False
  end.

Definition solid_last (a : jsstring) : Prop :=
  match rev a with
  | d :: _ => is_white_space d = false
  | [] => True
  end.

(* ================================================================== *)
(** * Start-up and reset                                               *)
(* ================================================================== *)

(** The process as the reset handler sees it: the database file
    [entamelog.db] of the user profile ([None] when there is no file),
    whether the handle [db] is open, and whether [app.relaunch()] and
    [app.quit()] have been called. Console output is not kept. *)
Record Process : Type := {
  file : option ViewingHistory.Database;
  connected : bool;
  relaunch : bool;
  quit : bool
}.

(** The start of the process: [new sqlite3.Database(DB_PATH, cb)] opens
    the file, creating it when it is absent, and [cb] runs
    [CREATE TABLE IF NOT EXISTS]. [open_fault] is the error of the open;
    with one, nothing is created and the handle is not open. *)
Definition start (open_fault : option Error)
  (on_disk : option ViewingHistory.Database) : Process :=
  match open_fault with
  | Some _ =>
      {| file := on_disk; connected := false;
         relaunch := false; quit := false |}
  | None =>
      {| file := Some match on_disk with
                      | Some db => db
                      | None => ViewingHistory.empty
                      end;
         connected := true; relaunch := false; quit := false |}
  end.

(** [fs.unlinkSync(DB_PATH)]: [None] when it throws, because there is no
    file (ENOENT) or because of [fault] (permissions, a lock), else the
    file system without the file. *)
Definition unlinkSync (fault : option Error)
  (on_disk : option ViewingHistory.Database)
  : option (option ViewingHistory.Database) :=
  match on_disk with
  | None => None
  | Some _ =>
      match fault with
      | Some _ => None
      | None => Some None
      end
  end.

(** The ['reset-history'] listener. [db.close] leaves the handle open
    when it reports [close_fault]; its callback goes on in either case:
    it deletes the file and, if that did not throw, asks for a relaunch
    and quits. *)
Definition reset_history (close_fault unlink_fault : option Error)
  (p : Process) : Process :=
  let still_open :=
    match close_fault with
    | Some _ => connected p
    | None => false
    end in
  match unlinkSync unlink_fault (file p) with
  | Some on_disk =>
      {| file := on_disk; connected := still_open;
         relaunch := true; quit := true |}
  | None =>
      {| file := file p; connected := still_open;
         relaunch := relaunch p; quit := quit p |}
  end.

(* ================================================================== *)
(** * Vocabulary of the further properties                             *)
(* ================================================================== *)

(** One call of [recordViewingHistory]: the reading of the clock, the
    fault of the engine and the data. *)
Record Call : Type := {
  call_clock : jsstring;
  call_fault : option Error;
  call_data : Data
}.

(** The database after a series of calls. *)
Fixpoint record_all (calls : list Call) (db : ViewingHistory.Database)
  : ViewingHistory.Database :=
  match calls with
  | [] => db
  | c :: rest =>
      record_all rest
        (fst (recordViewingHistory (call_clock c) (call_fault c)
                (call_data c) db))
  end.

(** A call that is accepted and stored: the three required fields are
    truthy and the engine reports no fault. *)
Definition stored (c : Call) : bool :=
  truthy (mediaTitle (call_data c)) && truthy (startDate (call_data c))
  && truthy (endDate (call_data c))
  && match call_fault c with None => true | Some _ => false end.

(** The ids of the rows are positive, at most the AUTOINCREMENT counter,
    and grow with the rowid. *)
Definition ids_ascending (db : ViewingHistory.Database) : Prop :=
  StronglySorted Z.lt (map ViewingHistory.id (ViewingHistory.rows db))
  /\ Forall (fun r => (1 <= ViewingHistory.id r
                       <= ViewingHistory.sequence db)%Z)
       (ViewingHistory.rows db)
  /\ (0 <= ViewingHistory.sequence db)%Z.

(** The three required columns of a row are not empty. *)
Definition required_present (r : ViewingHistory.Row) : Prop :=
  ViewingHistory.media_title r <> []
  /\ ViewingHistory.start_date r <> []
  /\ ViewingHistory.end_date r <> [].

(** Timestamps that grow strictly with the rowid. *)
Definition clock_ascending (rows : list ViewingHistory.Row) : Prop :=
  StronglySorted
    (fun a b => JsString.ltb (ViewingHistory.recorded_at a)
                  (ViewingHistory.recorded_at b) = true) rows.

(** The code units a JSON value can end with: a closing brace, bracket
    or quote, a digit, or the last letter of [true], [false], [null]. *)
Definition value_end (d : N) : bool :=
  N.eqb d (ch "}") || N.eqb d (ch "]") || N.eqb d JSON.quote
  || is_digit d || N.eqb d (ch "e") || N.eqb d (ch "l").

(** What was read from [s] to leave [rest] ends with such a code unit. *)
Definition closes (s rest : jsstring) : Prop :=
  exists a d, s = a ++ d :: rest /\ value_end d = true.

Definition backtick : N := ch "`".

(** A property that makes the block fail: truthy, and not an array. *)
Definition unlistable (p : property) : Prop :=
  truthy_property p = true /\ forall elements, p <> Defined (Arr elements).

(** What the block shows for [summary]: [情報なし] when the property is
    absent or falsy, else the property converted to a string. *)
Definition summary_shown (p : property) (shown : jsstring) : Prop :=
  (truthy_property p = false /\ shown = js "情報なし")
  \/ (exists v, p = Defined v /\ ToBoolean v = true
                 /\ ToString v = Some shown).

(** What the block shows for [genre]: [情報なし] when the property is
    absent or falsy, else the elements of the array, [null] as nothing
    and the others converted to strings, with [, ] between them. *)
Definition genre_shown (p : property) (shown : jsstring) : Prop :=
  (truthy_property p = false /\ shown = js "情報なし")
  \/ (exists elements parts,
        p = Defined (Arr elements)
        /\ Forall2 (fun v part =>
                      match v with
                      | Null => part = []
                      | _ => ToString v = Some part
                      end) elements parts
        /\ shown = intercalate (js ", ") parts).

(** What the block shows for [streaming_sites]: [情報なし] when the
    property is absent or falsy, else one line for each element of the
    array, the element converted to a string behind [- ]. *)
Definition streaming_sites_shown (p : property) (shown : jsstring) : Prop :=
  (truthy_property p = false /\ shown = js "情報なし")
  \/ (exists elements parts,
        p = Defined (Arr elements)
        /\ Forall2 (fun v part => ToString v = Some part) elements parts
        /\ shown = intercalate LF (map (fun part => js "- " ++ part) parts)).

(** A value whose conversion to a string throws: an object with a
    member named [toString], or an array that holds such a value. *)
Inductive unprintable : value -> Prop :=
| unprintable_object (members : list (jsstring * value)) :
    own_property members (js "toString") Undefined <> Undefined ->
    unprintable (Obj members)
| unprintable_array (elements : list value) (v : value) :
    In v elements -> unprintable v -> unprintable (Arr elements).

(** A reply whose summary is an object with a member named [toString]:
    [{"summary":{"toString":1}}]. *)
Definition toString_member_reply : jsstring :=
  js "{" ++ DQ ++ js "summary" ++ DQ ++ js ":{" ++ DQ ++ js "toString" ++ DQ
  ++ js ":1}}".

(** Sample calls: the example record, a record without end date, and a
    record lost to an engine fault. *)
Definition sample_calls : list Call :=
  [ {| call_clock := js "2024-05-02T08:00:00.000Z"; call_fault := None;
       call_data := zero_rated_data |};
    {| call_clock := js "2024-05-03T08:00:00.000Z"; call_fault := None;
       call_data := {| mediaTitle := Some (js "Show Y"); startDate := Some (js "2024-05-02");
                       endDate := None; rating := None; notes := None;
                       tags := None |} |};
    {| call_clock := js "2024-05-03T09:00:00.000Z";
       call_fault := Some (MkError (js "SQLITE_BUSY: database is locked"));
       call_data := white_space_data |};
    {| call_clock := example_clock; call_fault := None;
       call_data := example_data |} ].

Definition sample_process : Process :=
  start None (Some example_db).

(* ================================================================== *)
(** * Properties of the runtime                                        *)
(* ================================================================== *)

Section StringFacts.

Open Scope N_scope.

Lemma compare_refl (a : jsstring) : JsString.compare a a = Eq.
Proof.
  induction a as [|x a IH]; simpl; [reflexivity|].
  now rewrite N.compare_refl.
Qed.

Lemma compare_antisym (a b : jsstring) :
  JsString.compare b a = CompOpp (JsString.compare a b).
Proof.
  revert b; induction a as [|x a IH]; intros [|y b]; simpl; try reflexivity.
  rewrite (N.compare_antisym x y).
  destruct (x ?= y); simpl; auto.
Qed.

Lemma compare_lt_trans (a b c : jsstring) :
  JsString.compare a b = Lt -> JsString.compare b c = Lt ->
  JsString.compare a c = Lt.
Proof.
  revert b c; induction a as [|x a IH]; intros [|y b] [|z c]; simpl;
    try discriminate; auto.
  destruct (x ?= y) eqn:Hxy; try discriminate.
  - apply N.compare_eq in Hxy; subst y.
    destruct (x ?= z); try discriminate; eauto.
  - intros _. destruct (y ?= z) eqn:Hyz; try discriminate.
    + apply N.compare_eq in Hyz; subst z. now rewrite Hxy.
    + intros _. rewrite N.compare_lt_iff in Hxy, Hyz.
      assert (H : x < z) by lia.
      apply N.compare_lt_iff in H. now rewrite H.
Qed.

Lemma compare_eq (a b : jsstring) : JsString.compare a b = Eq -> a = b.
Proof.
  revert b; induction a as [|x a IH]; intros [|y b]; simpl;
    try discriminate; auto.
  destruct (x ?= y) eqn:Hxy; try discriminate.
  apply N.compare_eq in Hxy; subst y.
  intros H; f_equal; auto.
Qed.

Lemma ltb_false_leb (a b : jsstring) :
  JsString.ltb a b = false -> JsString.leb b a = true.
Proof.
  unfold JsString.ltb, JsString.leb.
  rewrite (compare_antisym a b).
  destruct (JsString.compare a b); simpl; congruence.
Qed.

Lemma ltb_leb (a b : jsstring) :
  JsString.ltb a b = true -> JsString.leb a b = true.
Proof.
  unfold JsString.ltb, JsString.leb.
  destruct (JsString.compare a b); congruence.
Qed.

Lemma ltb_leb_trans (a b c : jsstring) :
  JsString.ltb a b = true -> JsString.leb b c = true ->
  JsString.ltb a c = true.
Proof.
  unfold JsString.ltb, JsString.leb.
  destruct (JsString.compare a b) eqn:Hab; try discriminate.
  destruct (JsString.compare b c) eqn:Hbc; try discriminate; intros _ _.
  - apply compare_eq in Hbc; subst c. now rewrite Hab.
  - now rewrite (compare_lt_trans _ _ _ Hab Hbc).
Qed.

Lemma leb_trans (a b c : jsstring) :
  JsString.leb a b = true -> JsString.leb b c = true ->
  JsString.leb a c = true.
Proof.
  intros Hab Hbc.
  destruct (JsString.ltb a b) eqn:Hlt.
  - apply ltb_leb. eapply ltb_leb_trans; eauto.
  - apply ltb_false_leb in Hlt.
    assert (a = b).
    { unfold JsString.leb in Hab, Hlt. rewrite (compare_antisym a b) in Hlt.
      destruct (JsString.compare a b) eqn:E; simpl in *; try discriminate.
      now apply compare_eq. }
    now subst.
Qed.

Lemma eqb_eq (a b : jsstring) : JsString.eqb a b = true <-> a = b.
Proof.
  revert b; induction a as [|x a IH]; intros [|y b]; simpl;
    try (split; [discriminate | congruence]); [tauto|].
  rewrite andb_true_iff, N.eqb_eq, IH. split.
  - intros [-> ->]; reflexivity.
  - intros H; injection H; auto.
Qed.

Lemma startsWith_app (p s : jsstring) : startsWith p (p ++ s) = true.
Proof.
  induction p as [|x p IH]; simpl; [reflexivity|].
  now rewrite N.eqb_refl.
Qed.

Lemma startsWith_spec (p s : jsstring) :
  startsWith p s = true <-> exists r, s = p ++ r.
Proof.
  split.
  - revert s; induction p as [|x p IH]; intros s H; simpl in *.
    + now exists s.
    + destruct s as [|y s]; [discriminate|].
      apply andb_true_iff in H as [Hxy H]. apply N.eqb_eq in Hxy; subst y.
      destruct (IH _ H) as [r ->]. now exists r.
  - intros [r ->]. apply startsWith_app.
Qed.

Lemma endsWith_app (p s : jsstring) : endsWith p (s ++ p) = true.
Proof.
  unfold endsWith. rewrite rev_app_distr. apply startsWith_app.
Qed.

(** ** [trim] and blank strings *)

Lemma trimStart_blank (w s : jsstring) :
  blank w -> trimStart (w ++ s) = trimStart s.
Proof.
  induction 1 as [|c w Hc _ IH]; simpl; [reflexivity|].
  now rewrite Hc.
Qed.

Lemma trimStart_nil_iff (s : jsstring) : trimStart s = [] <-> blank s.
Proof.
  split.
  - induction s as [|c s IH]; simpl; intros H; [constructor|].
    destruct (is_white_space c) eqn:Hc; [|discriminate].
    constructor; [exact Hc | exact (IH H)].
  - intros H. rewrite <- (app_nil_r s). now rewrite trimStart_blank.
Qed.

Lemma trimStart_fixed (c : N) (s : jsstring) :
  is_white_space c = false -> trimStart (c :: s) = c :: s.
Proof. intros H; simpl; now rewrite H. Qed.

Lemma blank_rev (s : jsstring) : blank (rev s) <-> blank s.
Proof.
  unfold blank. rewrite !Forall_forall.
  split; intros H x Hx; apply H.
  - now apply in_rev in Hx.
  - now apply in_rev.
Qed.

Lemma blank_app (a b : jsstring) : blank (a ++ b) <-> blank a /\ blank b.
Proof. unfold blank. apply Forall_app. Qed.

Lemma trimStart_suffix (s : jsstring) :
  exists w, blank w /\ s = w ++ trimStart s.
Proof.
  induction s as [|c s (w & Hw & IH)]; simpl.
  - exists []. split; [constructor | reflexivity].
  - destruct (is_white_space c) eqn:Hc.
    + exists (c :: w). split; [constructor; [exact Hc | exact Hw]|].
      simpl. now f_equal.
    + exists []. split; [constructor | reflexivity].
Qed.

(** [trim] yields the empty string exactly on blank strings. *)
Lemma trim_nil_iff (s : jsstring) : trim s = [] <-> blank s.
Proof.
  unfold trim, trimEnd. split.
  - intros H.
    assert (H1 : trimStart (rev (trimStart s)) = []).
    { rewrite <- (rev_involutive (trimStart _)). now rewrite H. }
    apply trimStart_nil_iff in H1. apply (proj1 (blank_rev _)) in H1.
    destruct (trimStart_suffix s) as (w & Hw & E).
    rewrite E. apply blank_app; auto.
  - intros H. apply trimStart_nil_iff in H. now rewrite H.
Qed.

End StringFacts.

Section NumberFacts.

Open Scope Z_scope.

(** An integer is rounded to a significand of at least one, or
    overflows: it never becomes zero. *)
Lemma round_ratio_integer_truthy (neg : bool) (p : Z) :
  0 < p -> Number.to_boolean (Number.round_ratio neg p 1) = true.
Proof.
  intros Hp.
  pose proof (Z.log2_spec p Hp) as [Hlo Hhi].
  pose proof (Z.log2_nonneg p) as Hl.
  unfold Number.round_ratio, Number.ratio_ge_pow.
  change (Z.log2 1) with 0. rewrite Z.sub_0_r.
  replace (Z.log2 p - 52 + 52) with (Z.log2 p) by lia.
  destruct (0 <=? Z.log2 p) eqn:E0; [|apply Z.leb_gt in E0; lia].
  rewrite Z.mul_1_l.
  destruct (2 ^ Z.log2 p <=? p) eqn:E1; [|apply Z.leb_gt in E1; lia].
  rewrite Z.max_l by lia.
  set (e := Z.log2 p - 52).
  set (num := if e <? 0 then p * 2 ^ (- e) else p).
  set (den := if e <? 0 then 1 else 1 * 2 ^ e).
  assert (Hden : 0 < den).
  { unfold den. destruct (e <? 0) eqn:Ee; [lia|].
    apply Z.ltb_ge in Ee. rewrite Z.mul_1_l. apply Z.pow_pos_nonneg; lia. }
  assert (Hd : 1 <= num / den).
  { apply Z.div_le_lower_bound; [exact Hden|]. rewrite Z.mul_1_r.
    unfold num, den. destruct (e <? 0) eqn:Ee.
    - apply Z.ltb_lt in Ee.
      assert (0 < 2 ^ (- e)) by (apply Z.pow_pos_nonneg; lia). nia.
    - apply Z.ltb_ge in Ee. rewrite Z.mul_1_l.
      apply Z.le_trans with (2 ^ Z.log2 p); [|exact Hlo].
      apply Z.pow_le_mono_r; unfold e; lia. }
  set (m := if (den <? 2 * (num mod den))
                 || ((den =? 2 * (num mod den)) && Z.odd (num / den))
            then num / den + 1 else num / den).
  assert (Hm : 1 <= m).
  { unfold m. destruct (_ || _); lia. }
  destruct (m =? 2 ^ 53) eqn:Em; cbn [fst snd].
  - destruct (971 <? e + 1); reflexivity.
  - destruct (971 <? e); cbn; [reflexivity|]. apply Z.ltb_lt. lia.
Qed.

(** [ToBoolean] of an integer read from the store: false on 0 only. *)
Lemma of_Z_truthy (z : Z) :
  Number.to_boolean (Number.of_Z z) = negb (z =? 0).
Proof.
  unfold Number.of_Z, Number.of_decimal.
  destruct (Z.eq_dec z 0) as [->|Hz]; [reflexivity|].
  destruct (Z.abs z <=? 0) eqn:E; [apply Z.leb_le in E; lia|].
  apply Z.leb_gt in E.
  assert (Hmag : 0 <= Z.log2 (Z.abs z) * 30103 / 100000).
  { apply Z.div_pos; [|lia]. pose proof (Z.log2_nonneg (Z.abs z)). lia. }
  rewrite Z.add_0_r.
  destruct (400 <? _); [cbn; symmetry; apply negb_true_iff, Z.eqb_neq; exact Hz|].
  destruct (_ <? -400) eqn:E1; [apply Z.ltb_lt in E1; lia|].
  change (0 <=? 0) with true. cbv iota.
  rewrite Z.pow_0_r, Z.mul_1_r.
  rewrite round_ratio_integer_truthy by exact E.
  symmetry; apply negb_true_iff, Z.eqb_neq; exact Hz.
Qed.

End NumberFacts.

(* ================================================================== *)
(** * Properties of the store                                          *)
(* ================================================================== *)

Section StoreFacts.

Import ViewingHistory.

Lemma place_perm (r : Row) (l : list Row) : Permutation (r :: l) (place r l).
Proof.
  induction l as [|x l IH]; simpl; [apply Permutation_refl|].
  destruct (JsString.ltb (recorded_at r) (recorded_at x)).
  - eapply perm_trans; [apply perm_swap|]. now apply perm_skip.
  - apply Permutation_refl.
Qed.

Lemma order_perm (l : list Row) : Permutation l (order_by_recorded_at_desc l).
Proof.
  induction l as [|r l IH]; simpl; [constructor|].
  eapply perm_trans; [|apply place_perm]. now apply perm_skip.
Qed.

Lemma place_sorted (r : Row) (l : list Row) :
  StronglySorted newer_or_same l -> StronglySorted newer_or_same (place r l).
Proof.
  induction 1 as [|x l Hs IH Hx]; simpl.
  - constructor; constructor.
  - destruct (JsString.ltb (recorded_at r) (recorded_at x)) eqn:E.
    + constructor; [exact IH|].
      eapply Permutation_Forall; [apply place_perm|].
      constructor; [|exact Hx]. now apply ltb_leb.
    + apply ltb_false_leb in E.
      constructor; [constructor; assumption|].
      constructor; [exact E|].
      eapply Forall_impl; [|exact Hx].
      intros y Hy. unfold newer_or_same in *. eapply leb_trans; eauto.
Qed.

Lemma order_sorted (l : list Row) :
  StronglySorted newer_or_same (order_by_recorded_at_desc l).
Proof.
  induction l as [|r l IH]; simpl; [constructor|]. now apply place_sorted.
Qed.

(** A row passes every row with a greater timestamp... *)
Lemma place_after (r : Row) (front back : list Row) :
  Forall (fun x => JsString.ltb (recorded_at r) (recorded_at x) = true) front ->
  place r (front ++ back) = front ++ place r back.
Proof.
  induction 1 as [|x front Hx _ IH]; simpl; [reflexivity|].
  now rewrite Hx, IH.
Qed.

(** ...and stops at the first one that has not. *)
Lemma place_before (r c : Row) (front back : list Row) :
  JsString.ltb (recorded_at r) (recorded_at c) = false ->
  place r (front ++ c :: back) = place r front ++ c :: back.
Proof.
  intros Hc. induction front as [|x front IH]; simpl.
  - now rewrite Hc.
  - destruct (JsString.ltb (recorded_at r) (recorded_at x)); [|reflexivity].
    now rewrite IH.
Qed.

(** Where a row added last is listed: after the rows whose timestamp is
    not smaller, before every row with a smaller one. *)
Lemma order_snoc (l : list Row) (new : Row) :
  exists front back,
    order_by_recorded_at_desc (l ++ [new]) = front ++ new :: back
    /\ Permutation (front ++ back) l
    /\ Forall (fun x => JsString.leb (recorded_at new) (recorded_at x) = true) front
    /\ Forall (fun x => JsString.ltb (recorded_at x) (recorded_at new) = true) back.
Proof.
  induction l as [|r l (front & back & E & P & Hf & Hb)]; simpl.
  - exists [], []. repeat split; constructor.
  - rewrite E.
    destruct (JsString.ltb (recorded_at r) (recorded_at new)) eqn:Hr.
    + exists front, (place r back). repeat split.
      * rewrite place_after.
        -- simpl. now rewrite Hr.
        -- eapply Forall_impl; [|exact Hf].
           intros x Hx. eapply ltb_leb_trans; eauto.
      * eapply perm_trans.
        -- apply Permutation_app_head. apply Permutation_sym, place_perm.
        -- eapply perm_trans; [apply Permutation_sym, Permutation_middle|].
           now apply perm_skip.
      * exact Hf.
      * eapply Permutation_Forall; [apply place_perm|]. now constructor.
    + exists (place r front), back. repeat split.
      * now apply place_before.
      * eapply perm_trans.
        -- apply Permutation_app_tail. apply Permutation_sym, place_perm.
        -- simpl. now apply perm_skip.
      * eapply Permutation_Forall; [apply place_perm|].
        constructor; [now apply ltb_false_leb | exact Hf].
      * exact Hb.
Qed.

(** The accumulation of [displayText] over the rows. *)
Lemma display_fold (rows : list Row) (text : jsstring) :
  fold_left (fun displayText row => displayText ++ display_row row) rows text
  = text ++ concat (map display_row rows).
Proof.
  revert text; induction rows as [|r rows IH]; intros text; simpl.
  - now rewrite app_nil_r.
  - now rewrite IH, app_assoc.
Qed.

End StoreFacts.

(* ================================================================== *)
(** * Text through the store                                           *)
(* ================================================================== *)

Section TextFacts.

Import ViewingHistory.

Lemma bind_text_cons (c : N) (rest : jsstring) :
  bind_text (c :: rest)
  = if is_lead_surrogate c then
      match rest with
      | d :: rest' =>
          if is_trail_surrogate d then c :: d :: bind_text rest'
          else replacement_character :: bind_text rest
      | [] => [replacement_character]
      end
    else if is_trail_surrogate c then replacement_character :: bind_text rest
    else c :: bind_text rest.
Proof. reflexivity. Qed.

Lemma well_formed_cons (c : N) (rest : jsstring) :
  well_formed (c :: rest)
  = if is_lead_surrogate c then
      match rest with
      | d :: rest' => is_trail_surrogate d && well_formed rest'
      | [] => false
      end
    else negb (is_trail_surrogate c) && well_formed rest.
Proof. reflexivity. Qed.

(** Induction that takes one code unit or two at a time. *)
Lemma pair_induction (P : jsstring -> Prop) :
  P [] -> (forall c, P [c]) ->
  (forall c d s, P s -> P (d :: s) -> P (c :: d :: s)) ->
  forall s, P s.
Proof.
  intros H0 H1 H2 s.
  assert (H : P s /\ forall c, P (c :: s)).
  { induction s as [|d s [IHs IHc]]; [split; [exact H0 | exact H1]|].
    split; [apply IHc|]. intros c. apply H2; [exact IHs | apply IHc]. }
  apply H.
Qed.

(** Well-formed text comes back from the store as it was bound. *)
Lemma bind_text_well_formed (s : jsstring) :
  well_formed s = true -> bind_text s = s.
Proof.
  induction s as [| c | c d s IHs IHd] using pair_induction.
  - reflexivity.
  - rewrite well_formed_cons, bind_text_cons.
    destruct (is_lead_surrogate c); [discriminate|].
    destruct (is_trail_surrogate c); [discriminate | reflexivity].
  - rewrite well_formed_cons, bind_text_cons. cbv iota.
    destruct (is_lead_surrogate c).
    + destruct (is_trail_surrogate d); [|discriminate].
      cbn [andb]. intros H. now rewrite (IHs H).
    + destruct (is_trail_surrogate c); [discriminate|].
      cbn [negb andb]. intros H. now rewrite (IHd H).
Qed.

(** Text that comes back as it was bound is well-formed: U+FFFD is no
    surrogate. *)
Lemma bind_text_fixed (s : jsstring) :
  bind_text s = s -> well_formed s = true.
Proof.
  assert (R : forall c, (c = replacement_character ->
              is_lead_surrogate c = false /\ is_trail_surrogate c = false)).
  { intros c ->. split; reflexivity. }
  induction s as [| c | c d s IHs IHd] using pair_induction.
  - reflexivity.
  - rewrite well_formed_cons, bind_text_cons.
    destruct (is_lead_surrogate c) eqn:L.
    + intros H. injection H as H. symmetry in H.
      destruct (R _ H) as [L' _]. congruence.
    + destruct (is_trail_surrogate c) eqn:T; [|reflexivity].
      intros H. injection H as H. symmetry in H.
      destruct (R _ H) as [_ T']. congruence.
  - rewrite well_formed_cons, bind_text_cons. cbv iota.
    destruct (is_lead_surrogate c) eqn:L.
    + destruct (is_trail_surrogate d) eqn:T.
      * intros H. injection H as H. cbn [andb]. now apply IHs.
      * intros H. injection H as H _. symmetry in H.
        destruct (R _ H) as [L' _]. congruence.
    + destruct (is_trail_surrogate c) eqn:T.
      * intros H. injection H as H _. symmetry in H.
        destruct (R _ H) as [_ T']. congruence.
      * intros H. injection H as H. cbn [negb andb]. now apply IHd.
Qed.

(** What comes back from the store differs from what was bound only
    where that had a surrogate, and has no surrogate without partner. *)
Lemma bind_text_replaces (s : jsstring) : surrogates_replaced s (bind_text s).
Proof.
  unfold surrogates_replaced.
  induction s as [| c | c d s IHs IHd] using pair_induction.
  - constructor.
  - rewrite bind_text_cons.
    destruct (is_lead_surrogate c) eqn:L;
      [|destruct (is_trail_surrogate c) eqn:T];
      (constructor; [|constructor]);
      first [now left | right; split; [reflexivity|]; rewrite ?L, ?T;
                        reflexivity].
  - rewrite bind_text_cons. cbv iota.
    destruct (is_lead_surrogate c) eqn:L;
      [destruct (is_trail_surrogate d) eqn:T
      |destruct (is_trail_surrogate c) eqn:T].
    + constructor; [now left|]. constructor; [now left | exact IHs].
    + constructor; [|exact IHd]. right. now rewrite L.
    + constructor; [|exact IHd]. right. now rewrite L, T.
    + constructor; [now left | exact IHd].
Qed.

Lemma bind_text_is_well_formed (s : jsstring) :
  well_formed (bind_text s) = true.
Proof.
  assert (R : forall rest, well_formed (replacement_character :: rest)
                           = well_formed rest) by reflexivity.
  induction s as [| c | c d s IHs IHd] using pair_induction.
  - reflexivity.
  - rewrite bind_text_cons.
    destruct (is_lead_surrogate c) eqn:L;
      [|destruct (is_trail_surrogate c) eqn:T]; try reflexivity.
    rewrite well_formed_cons, L, T. reflexivity.
  - rewrite bind_text_cons. cbv iota.
    destruct (is_lead_surrogate c) eqn:L;
      [destruct (is_trail_surrogate d) eqn:T
      |destruct (is_trail_surrogate c) eqn:T].
    + rewrite well_formed_cons, L, T. exact IHs.
    + rewrite R. exact IHd.
    + rewrite R. exact IHd.
    + rewrite well_formed_cons, L, T. exact IHd.
Qed.

Lemma bind_text_stored (s : jsstring) : stored_text s (bind_text s).
Proof.
  split; [apply bind_text_replaces|].
  split; [apply bind_text_is_well_formed | apply bind_text_well_formed].
Qed.

Lemma bind_field_stored (x : option jsstring) :
  stored_field x (option_map bind_text x).
Proof. destruct x as [t|]; [apply bind_text_stored | exact I]. Qed.

Lemma white_space_not_surrogate (c : N) :
  is_white_space c = true ->
  is_lead_surrogate c = false /\ is_trail_surrogate c = false.
Proof.
  unfold is_white_space, is_lead_surrogate, is_trail_surrogate.
  rewrite !orb_true_iff, !andb_true_iff, !N.leb_le, !N.eqb_eq.
  intros H. split; apply andb_false_iff; rewrite !N.leb_gt; lia.
Qed.

(** White space is well-formed text. *)
Lemma blank_well_formed (s : jsstring) : blank s -> well_formed s = true.
Proof.
  induction 1 as [|c s Hc _ IH]; [reflexivity|].
  rewrite well_formed_cons.
  destruct (white_space_not_surrogate _ Hc) as [-> ->]. exact IH.
Qed.

(** Text below the surrogates, as the digits and punctuation of a
    timestamp are, comes back as it was bound. *)
Lemma bind_text_below_surrogates (s : jsstring) :
  Forall (fun c => (c < 55296)%N) s -> bind_text s = s.
Proof.
  intros H. apply bind_text_well_formed.
  induction H as [|c s Hc _ IH]; [reflexivity|].
  rewrite well_formed_cons.
  assert (L : is_lead_surrogate c = false).
  { apply andb_false_iff. left. apply N.leb_gt. exact Hc. }
  assert (T : is_trail_surrogate c = false).
  { apply andb_false_iff. left. apply N.leb_gt. lia. }
  now rewrite L, T.
Qed.

(** A text that is not empty is not empty in the store. *)
Lemma bind_text_nonempty (s : jsstring) : s <> [] -> bind_text s <> [].
Proof.
  destruct s as [|c rest]; [congruence|]. intros _.
  rewrite bind_text_cons.
  destruct (is_lead_surrogate c); [destruct rest as [|d rest];
    [|destruct (is_trail_surrogate d)] | destruct (is_trail_surrogate c)];
    discriminate.
Qed.

Lemma bind_field_well_formed (x : option jsstring) :
  well_formed_field x = true -> option_map bind_text x = x.
Proof.
  destruct x as [t|]; [|reflexivity]. cbn. intros H.
  now rewrite bind_text_well_formed.
Qed.

End TextFacts.

(* ================================================================== *)
(** * The history store: recording                                     *)
(* ================================================================== *)

Section Recording.

Lemma truthy_nonempty (s : jsstring) : s <> [] -> truthy (Some s) = true.
Proof. destruct s; [congruence | reflexivity]. Qed.

Lemma truthy_missing_or_empty (x : option jsstring) :
  missing_or_empty x -> truthy x = false.
Proof. intros [-> | ->]; reflexivity. Qed.

(** What [recordViewingHistory] does with three non-empty fields when
    the engine reports no fault. *)
Lemma record_accepts (recordedAt : jsstring) (data : Data)
  (db : ViewingHistory.Database) (title start stop : jsstring) :
  mediaTitle data = Some title -> startDate data = Some start ->
  endDate data = Some stop ->
  title <> [] -> start <> [] -> stop <> [] ->
  recordViewingHistory recordedAt None data db
  = (with_row db (new_row db recordedAt title start stop data),
     inr {| success := true; message := recorded_message title |}).
Proof.
  intros Ht Hs He Nt Ns Ne.
  unfold recordViewingHistory, ViewingHistory.run_insert;
    cbn [ViewingHistory.p_media_title ViewingHistory.p_start_date
         ViewingHistory.p_end_date ViewingHistory.p_recorded_at
         ViewingHistory.p_rating ViewingHistory.p_notes ViewingHistory.p_tags].
  rewrite Ht, Hs, He, !truthy_nonempty by assumption.
  reflexivity.
Qed.

(** An engine fault reaches the callback as its error and leaves the
    database as it was. *)
Lemma record_fault (recordedAt : jsstring) (err : Error) (data : Data)
  (db : ViewingHistory.Database) :
  truthy (mediaTitle data) = true -> truthy (startDate data) = true ->
  truthy (endDate data) = true ->
  recordViewingHistory recordedAt (Some err) data db = (db, inl err).
Proof.
  intros Ht Hs He. unfold recordViewingHistory. now rewrite Ht, Hs, He.
Qed.

(** C1. When [mediaTitle], [startDate] or [endDate] is missing or the
    empty string, [recordViewingHistory] hands its callback the
    structured failure [{success: false, message}] (no error, nothing
    thrown), whatever the clock and the engine, and the database is
    unchanged; the handler returns the same failure. *)
Theorem record_rejects_missing_field (recordedAt : jsstring)
  (fault : option Error) (data : Data) (db : ViewingHistory.Database) :
  missing_or_empty (mediaTitle data) \/ missing_or_empty (startDate data)
    \/ missing_or_empty (endDate data) ->
  recordViewingHistory recordedAt fault data db
    = (db, inr {| success := false; message := required_fields_message |})
  /\ handle_record_history recordedAt fault data db
    = (db, {| success := false; message := required_fields_message |}).
Proof.
  intros H.
  assert (E : recordViewingHistory recordedAt fault data db
              = (db, inr {| success := false;
                            message := required_fields_message |})).
  { unfold recordViewingHistory.
    destruct H as [H | [H | H]]; apply truthy_missing_or_empty in H;
      rewrite H; cbn; rewrite ?orb_true_r; reflexivity. }
  split; [exact E|]. unfold handle_record_history. now rewrite E.
Qed.

Lemma record_rejects_missing_field_witness :
  (missing_or_empty (mediaTitle
      {| mediaTitle := Some (js "Show X"); startDate := Some [];
         endDate := None; rating := Some 8%Z; notes := None;
         tags := None |})
   \/ missing_or_empty (startDate
      {| mediaTitle := Some (js "Show X"); startDate := Some [];
         endDate := None; rating := Some 8%Z; notes := None;
         tags := None |})
   \/ missing_or_empty (endDate
      {| mediaTitle := Some (js "Show X"); startDate := Some [];
         endDate := None; rating := Some 8%Z; notes := None;
         tags := None |}))
  /\ (recordViewingHistory (js "2024-05-01T10:00:00.000Z") None
        {| mediaTitle := Some (js "Show X"); startDate := Some [];
           endDate := None; rating := Some 8%Z; notes := None;
           tags := None |} ViewingHistory.empty
      = (ViewingHistory.empty, inr {| success := false; message := required_fields_message |})
      /\ handle_record_history (js "2024-05-01T10:00:00.000Z") None
        {| mediaTitle := Some (js "Show X"); startDate := Some [];
           endDate := None; rating := Some 8%Z; notes := None;
           tags := None |} ViewingHistory.empty
      = (ViewingHistory.empty, {| success := false; message := required_fields_message |})).
Proof.
  split.
  - right; left; right; reflexivity.
  - apply (record_rejects_missing_field (js "2024-05-01T10:00:00.000Z") None
             {| mediaTitle := Some (js "Show X"); startDate := Some [];
                endDate := None; rating := Some 8%Z; notes := None;
                tags := None |} ViewingHistory.empty).
    right; left; right; reflexivity.
Defined.

End Recording.

(** ** The line of a row *)

Section Lines.

Lemma rating_str_spec (r : option Z) : rating_suffix r (rating_str r).
Proof.
  destruct r as [z|]; [|reflexivity].
  unfold rating_suffix, rating_str. rewrite of_Z_truthy. split.
  - intros Hz. apply Z.eqb_neq in Hz. now rewrite Hz.
  - intros ->. reflexivity.
Qed.

Lemma text_str_spec (label : jsstring) (text : option jsstring) :
  text_suffix label text
    match text with
    | Some t =>
        if truthy (Some t) && truthy (Some (trim t))
        then label ++ t ++ js "]" else []
    | None => []
    end.
Proof.
  destruct text as [t|]; [|reflexivity]. unfold text_suffix. split.
  - intros Hb.
    assert (Ht : trim t <> []) by (intros E; apply Hb, trim_nil_iff, E).
    assert (Hn : t <> []) by (intros ->; apply Hb; constructor).
    now rewrite !truthy_nonempty.
  - intros Hb. apply trim_nil_iff in Hb. rewrite Hb.
    now rewrite andb_false_r.
Qed.

(** The line of a row, piece by piece. *)
Lemma display_row_spec (row : ViewingHistory.Row) :
  exists rating_part notes_part tags_part,
    display_row row
    = js "・" ++ ViewingHistory.start_date row ++ js " ~ "
        ++ ViewingHistory.end_date row ++ js ": "
        ++ ViewingHistory.media_title row
        ++ rating_part ++ notes_part ++ tags_part ++ LF
    /\ rating_suffix (ViewingHistory.rating row) rating_part
    /\ text_suffix (js " [メモ: ") (ViewingHistory.notes row) notes_part
    /\ text_suffix (js " [タグ: ") (ViewingHistory.tags row) tags_part.
Proof.
  destruct row as [i t s e r n a g].
  exists (rating_str r), (notes_str n), (tags_str g).
  split; [reflexivity|]. split; [apply rating_str_spec|].
  split; apply text_str_spec.
Qed.

End Lines.

Section RecordingValid.

Lemma ltb_not_leb (a b : jsstring) :
  JsString.ltb a b = true -> JsString.leb b a = false.
Proof.
  unfold JsString.ltb, JsString.leb. rewrite (compare_antisym a b).
  destruct (JsString.compare a b); simpl; congruence.
Qed.

(** C10, as the code has it. Validation looks at emptiness only:
    whenever [mediaTitle], [startDate] and [endDate] are non-empty
    strings, white space or not, the record is accepted (the engine
    reporting no fault) and nothing is trimmed. The inserted row holds
    the rating as given and each text as it comes back from UTF-8, a
    lone surrogate replaced by U+FFFD: exactly as given when the text is
    well-formed, as white space is. *)
Theorem record_stores_verbatim (recordedAt : jsstring) (data : Data)
  (db : ViewingHistory.Database) (title start stop : jsstring) :
  mediaTitle data = Some title -> startDate data = Some start ->
  endDate data = Some stop ->
  title <> [] -> start <> [] -> stop <> [] ->
  exists row,
    recordViewingHistory recordedAt None data db
    = ({| ViewingHistory.rows := ViewingHistory.rows db ++ [row];
          ViewingHistory.sequence := (ViewingHistory.sequence db + 1)%Z |},
       inr {| success := true; message := recorded_message title |})
    /\ (ViewingHistory.media_title row = ViewingHistory.bind_text title
        /\ ViewingHistory.start_date row = ViewingHistory.bind_text start
        /\ ViewingHistory.end_date row = ViewingHistory.bind_text stop
        /\ ViewingHistory.rating row = rating data
        /\ ViewingHistory.notes row
           = option_map ViewingHistory.bind_text (notes data)
        /\ ViewingHistory.tags row
           = option_map ViewingHistory.bind_text (tags data))
    /\ (well_formed title = true -> ViewingHistory.media_title row = title)
    /\ (well_formed start = true -> ViewingHistory.start_date row = start)
    /\ (well_formed stop = true -> ViewingHistory.end_date row = stop)
    /\ (well_formed_field (notes data) = true ->
        ViewingHistory.notes row = notes data)
    /\ (well_formed_field (tags data) = true ->
        ViewingHistory.tags row = tags data)
    /\ (blank title -> ViewingHistory.media_title row = title)
    /\ (blank start -> ViewingHistory.start_date row = start)
    /\ (blank stop -> ViewingHistory.end_date row = stop)
    /\ (surrogates_replaced title (ViewingHistory.media_title row)
        /\ well_formed (ViewingHistory.media_title row) = true)
    /\ (surrogates_replaced start (ViewingHistory.start_date row)
        /\ well_formed (ViewingHistory.start_date row) = true)
    /\ (surrogates_replaced stop (ViewingHistory.end_date row)
        /\ well_formed (ViewingHistory.end_date row) = true).
Proof.
  intros Ht Hs He Nt Ns Ne.
  exists (new_row db recordedAt title start stop data).
  split; [now apply record_accepts|].
  split; [repeat split|].
  cbn [new_row ViewingHistory.media_title ViewingHistory.start_date
       ViewingHistory.end_date ViewingHistory.notes ViewingHistory.tags].
  repeat split;
    try apply bind_text_replaces; try apply bind_text_is_well_formed;
    intros H;
    try (apply bind_text_well_formed;
         first [exact H | now apply blank_well_formed]);
    now apply bind_field_well_formed.
Qed.

Lemma record_stores_verbatim_witness :
  exists row,
    recordViewingHistory example_clock None wide_data ViewingHistory.empty
    = ({| ViewingHistory.rows := ViewingHistory.rows ViewingHistory.empty ++ [row];
          ViewingHistory.sequence :=
            (ViewingHistory.sequence ViewingHistory.empty + 1)%Z |},
       inr {| success := true;
              message := recorded_message (js "　進撃の巨人 😀 ") |})
    /\ ViewingHistory.media_title row = js "　進撃の巨人 😀 "
    /\ ViewingHistory.start_date row = js " "
    /\ ViewingHistory.end_date row = js "  "
    /\ ViewingHistory.rating row = None
    /\ ViewingHistory.notes row = Some (js "  メモ  ")
    /\ ViewingHistory.tags row = None.
Proof.
  destruct (@record_stores_verbatim example_clock wide_data
              ViewingHistory.empty (js "　進撃の巨人 😀 ") (js " ") (js "  "))
    as (row & E & (_ & _ & _ & Er & _ & _) & Vt & Vs & Ve & Vn & Vg & _);
    try reflexivity; try discriminate.
  exists row. split; [exact E|].
  split; [apply Vt; vm_compute; reflexivity|].
  split; [apply Vs; reflexivity|].
  split; [apply Ve; reflexivity|].
  split; [exact Er|].
  split; [apply Vn; vm_compute; reflexivity | apply Vg; reflexivity].
Defined.

(** C10 as stated fails on a title with a surrogate that has no partner:
    the record is accepted, and the row holds U+FFFD where the surrogate
    was, which is also what the listing shows. *)
Lemma record_replaces_lone_surrogate :
  recordViewingHistory example_clock None lone_surrogate_data
    ViewingHistory.empty
  = ({| ViewingHistory.rows :=
          [ {| ViewingHistory.id := 1;
               ViewingHistory.media_title := [97; 65533; 98]%N;
               ViewingHistory.start_date := js "2024-05-01";
               ViewingHistory.end_date := js "2024-05-03";
               ViewingHistory.rating := None;
               ViewingHistory.notes := None;
               ViewingHistory.recorded_at := js "2024-05-04T09:30:00.000Z";
               ViewingHistory.tags := None |} ];
        ViewingHistory.sequence := 1 |},
     inr {| success := true;
            message := js "視聴履歴を記録しました: '" ++ [97; 55296; 98]%N
                       ++ js "'" |})
  /\ map ViewingHistory.media_title
       (ViewingHistory.rows
          (fst (recordViewingHistory example_clock None lone_surrogate_data
                  ViewingHistory.empty)))
     <> [[97; 55296; 98]%N]
  /\ getAllViewingHistory None
       (fst (recordViewingHistory example_clock None lone_surrogate_data
               ViewingHistory.empty))
     = inr (js "--- 視聴履歴一覧 ---" ++ LF
              ++ js "・2024-05-01 ~ 2024-05-03: " ++ [97; 65533; 98]%N ++ LF).
Proof.
  split; [vm_compute; reflexivity|].
  split; [vm_compute; discriminate | vm_compute; reflexivity].
Qed.

(** C2, as the code has it. With [mediaTitle], [startDate] and [endDate]
    non-empty (and the engine reporting no fault),
    [recordViewingHistory] appends exactly one row, whose [recorded_at]
    is the reading of the clock and whose texts are the given ones as
    the store returns them (a text without lone surrogate unchanged),
    and hands its callback [{success: true, message}] with the given
    title in the message. The next listing shows the line of the new
    row, [・{start_date} ~ {end_date}: {media_title}] and its suffixes:
    before the line of every row with a smaller timestamp, and after
    the lines of the rows whose timestamp is the same or greater. *)
Theorem record_then_list (recordedAt : jsstring) (data : Data)
  (db : ViewingHistory.Database) (title start stop : jsstring) :
  mediaTitle data = Some title -> startDate data = Some start ->
  endDate data = Some stop ->
  title <> [] -> start <> [] -> stop <> [] ->
  let new := new_row db recordedAt title start stop data in
  let db' := fst (recordViewingHistory recordedAt None data db) in
  exists rating_part notes_part tags_part front back,
    recordViewingHistory recordedAt None data db
    = (db', inr {| success := true;
                   message := js "視聴履歴を記録しました: '" ++ title ++ js "'" |})
    /\ ViewingHistory.rows db' = ViewingHistory.rows db ++ [new]
    /\ ViewingHistory.recorded_at new = recordedAt
    /\ (stored_text title (ViewingHistory.media_title new)
        /\ stored_text start (ViewingHistory.start_date new)
        /\ stored_text stop (ViewingHistory.end_date new)
        /\ ViewingHistory.rating new = rating data
        /\ stored_field (notes data) (ViewingHistory.notes new)
        /\ stored_field (tags data) (ViewingHistory.tags new))
    /\ getAllViewingHistory None db'
       = inr (history_header ++ concat (map display_row front)
                ++ (js "・" ++ ViewingHistory.start_date new ++ js " ~ "
                      ++ ViewingHistory.end_date new ++ js ": "
                      ++ ViewingHistory.media_title new
                      ++ rating_part ++ notes_part ++ tags_part ++ LF)
                ++ concat (map display_row back))
    /\ rating_suffix (ViewingHistory.rating new) rating_part
    /\ text_suffix (js " [メモ: ") (ViewingHistory.notes new) notes_part
    /\ text_suffix (js " [タグ: ") (ViewingHistory.tags new) tags_part
    /\ Permutation (front ++ back) (ViewingHistory.rows db)
    /\ Forall (fun x => JsString.leb recordedAt
                          (ViewingHistory.recorded_at x) = true) front
    /\ Forall (fun x => JsString.ltb (ViewingHistory.recorded_at x)
                          recordedAt = true) back
    /\ (forall x, In x (ViewingHistory.rows db) ->
          JsString.ltb (ViewingHistory.recorded_at x) recordedAt = true ->
          In x back).
Proof.
  intros Ht Hs He Nt Ns Ne new db'.
  pose proof (record_accepts recordedAt data db Ht Hs He Nt Ns Ne) as E.
  subst db'. rewrite E. cbn [fst].
  destruct (display_row_spec new) as (rp & np & tp & Hline & Hr & Hn & Hg).
  destruct (order_snoc (ViewingHistory.rows db) new)
    as (front & back & Ho & P & Hf & Hb).
  exists rp, np, tp, front, back.
  split; [reflexivity|]. split; [reflexivity|]. split; [reflexivity|].
  split.
  { repeat split; try apply bind_text_replaces;
      try apply bind_text_is_well_formed; try apply bind_text_well_formed;
      apply bind_field_stored. }
  split; [|split; [exact Hr | split; [exact Hn | split; [exact Hg |
    split; [exact P | split; [exact Hf | split; [exact Hb|]]]]]]].
  - unfold getAllViewingHistory, ViewingHistory.all_ordered, with_row;
      cbn [ViewingHistory.rows]. fold new. rewrite Ho.
    destruct (front ++ new :: back) as [|y t] eqn:El.
    { destruct front; discriminate. }
    rewrite <- El, display_fold, map_app, concat_app. cbn [map concat].
    rewrite Hline. reflexivity.
  - intros x Hx Hlt.
    apply (Permutation_in _ (Permutation_sym P)) in Hx.
    apply in_app_or in Hx as [Hx | Hx]; [|exact Hx].
    rewrite Forall_forall in Hf. specialize (Hf _ Hx). cbn in Hf.
    apply ltb_not_leb in Hlt. congruence.
Qed.

Lemma record_then_list_witness :
  let new := new_row example_db example_clock (js "　進撃の巨人 😀 ") (js " ")
               (js "  ") wide_data in
  let db' := fst (recordViewingHistory example_clock None wide_data
                    example_db) in
  exists rating_part notes_part tags_part front back,
    recordViewingHistory example_clock None wide_data example_db
    = (db', inr {| success := true;
                   message := js "視聴履歴を記録しました: '"
                              ++ js "　進撃の巨人 😀 " ++ js "'" |})
    /\ ViewingHistory.rows db' = ViewingHistory.rows example_db ++ [new]
    /\ ViewingHistory.recorded_at new = example_clock
    /\ (stored_text (js "　進撃の巨人 😀 ") (ViewingHistory.media_title new)
        /\ stored_text (js " ") (ViewingHistory.start_date new)
        /\ stored_text (js "  ") (ViewingHistory.end_date new)
        /\ ViewingHistory.rating new = rating wide_data
        /\ stored_field (notes wide_data) (ViewingHistory.notes new)
        /\ stored_field (tags wide_data) (ViewingHistory.tags new))
    /\ getAllViewingHistory None db'
       = inr (history_header ++ concat (map display_row front)
                ++ (js "・" ++ ViewingHistory.start_date new ++ js " ~ "
                      ++ ViewingHistory.end_date new ++ js ": "
                      ++ ViewingHistory.media_title new
                      ++ rating_part ++ notes_part ++ tags_part ++ LF)
                ++ concat (map display_row back))
    /\ rating_suffix (ViewingHistory.rating new) rating_part
    /\ text_suffix (js " [メモ: ") (ViewingHistory.notes new) notes_part
    /\ text_suffix (js " [タグ: ") (ViewingHistory.tags new) tags_part
    /\ Permutation (front ++ back) (ViewingHistory.rows example_db)
    /\ Forall (fun x => JsString.leb example_clock
                          (ViewingHistory.recorded_at x) = true) front
    /\ Forall (fun x => JsString.ltb (ViewingHistory.recorded_at x)
                          example_clock = true) back
    /\ (forall x, In x (ViewingHistory.rows example_db) ->
          JsString.ltb (ViewingHistory.recorded_at x) example_clock = true ->
          In x back).
Proof.
  apply (@record_then_list example_clock wide_data example_db
           (js "　進撃の巨人 😀 ") (js " ") (js "  "));
    try reflexivity; discriminate.
Defined.

(** C2 as stated fails when the clock reads the same for two records:
    the second one is accepted, and the next listing shows it after the
    record made before it, not ahead of it. *)
Lemma record_tie_lists_older_first :
  recordViewingHistory example_clock None second_data
    (fst (recordViewingHistory example_clock None example_data
            ViewingHistory.empty))
  = (fst (recordViewingHistory example_clock None second_data
            (fst (recordViewingHistory example_clock None example_data
                    ViewingHistory.empty))),
     inr {| success := true;
            message := js "視聴履歴を記録しました: 'Show Y'" |})
  /\ map (fun row => (ViewingHistory.id row, ViewingHistory.media_title row,
                      ViewingHistory.recorded_at row))
       (ViewingHistory.rows
          (fst (recordViewingHistory example_clock None second_data
                  (fst (recordViewingHistory example_clock None example_data
                          ViewingHistory.empty)))))
     = [ (1%Z, js "Show X", js "2024-05-04T09:30:00.000Z");
         (2%Z, js "Show Y", js "2024-05-04T09:30:00.000Z") ]
  /\ getAllViewingHistory None
       (fst (recordViewingHistory example_clock None second_data
               (fst (recordViewingHistory example_clock None example_data
                       ViewingHistory.empty))))
     = inr (js "--- 視聴履歴一覧 ---" ++ LF
              ++ js "・2024-05-01 ~ 2024-05-03: Show X (評価:8) [メモ: great] [タグ: drama]"
              ++ LF
              ++ js "・2024-05-03 ~ 2024-05-04: Show Y" ++ LF).
Proof.
  split; [vm_compute; reflexivity|].
  split; vm_compute; reflexivity.
Qed.

(** When the clock reads later than every stored timestamp, the new
    line is the first one under the header. *)
Lemma record_then_list_first (recordedAt : jsstring) (data : Data)
  (db : ViewingHistory.Database) (title start stop : jsstring) :
  mediaTitle data = Some title -> startDate data = Some start ->
  endDate data = Some stop ->
  title <> [] -> start <> [] -> stop <> [] ->
  Forall (fun x => JsString.ltb (ViewingHistory.recorded_at x) recordedAt = true)
    (ViewingHistory.rows db) ->
  getAllViewingHistory None
    (fst (recordViewingHistory recordedAt None data db))
  = inr (history_header
           ++ display_row (new_row db recordedAt title start stop data)
           ++ concat (map display_row
                        (ViewingHistory.order_by_recorded_at_desc
                           (ViewingHistory.rows db)))).
Proof.
  intros Ht Hs He Nt Ns Ne Hall.
  rewrite (record_accepts recordedAt data db Ht Hs He Nt Ns Ne). cbn [fst].
  set (new := new_row db recordedAt title start stop data).
  assert (E : ViewingHistory.order_by_recorded_at_desc
                (ViewingHistory.rows db ++ [new])
              = new :: ViewingHistory.order_by_recorded_at_desc
                         (ViewingHistory.rows db)).
  { induction (ViewingHistory.rows db) as [|r l IH]; [reflexivity|].
    inversion Hall as [|? ? Hr Hl]; subst. simpl. rewrite (IH Hl). simpl.
    cbn in Hr. now rewrite Hr. }
  unfold getAllViewingHistory, ViewingHistory.all_ordered, with_row;
    cbn [ViewingHistory.rows]. rewrite E, display_fold. reflexivity.
Qed.

End RecordingValid.

(* ================================================================== *)
(** * The history store: listing                                       *)
(* ================================================================== *)

Section Listing.

(** C3, as the code has it. For a store that is not empty (and an
    engine reporting no fault) the listing is the header line
    [--- 視聴履歴一覧 ---] followed by one line for each record, in
    descending order of [recorded_at]; a line reads
    [・{start_date} ~ {end_date}: {media_title}], then [ (評価:{rating})]
    when the rating is present and not 0, then [ [メモ: {notes}]] when
    the notes are present and not blank, then [ [タグ: {tags}]] when the
    tags are present and not blank; a suffix whose condition fails is
    left out. *)
Theorem list_shows_every_row (db : ViewingHistory.Database) :
  ViewingHistory.rows db <> [] ->
  exists ordered,
    getAllViewingHistory None db
    = inr (history_header ++ concat (map display_row ordered))
    /\ Permutation (ViewingHistory.rows db) ordered
    /\ StronglySorted newer_or_same ordered
    /\ forall row, In row ordered ->
         exists rating_part notes_part tags_part,
           display_row row
           = js "・" ++ ViewingHistory.start_date row ++ js " ~ "
               ++ ViewingHistory.end_date row ++ js ": "
               ++ ViewingHistory.media_title row
               ++ rating_part ++ notes_part ++ tags_part ++ LF
           /\ rating_suffix (ViewingHistory.rating row) rating_part
           /\ text_suffix (js " [メモ: ") (ViewingHistory.notes row) notes_part
           /\ text_suffix (js " [タグ: ") (ViewingHistory.tags row) tags_part.
Proof.
  intros Hne.
  exists (ViewingHistory.order_by_recorded_at_desc (ViewingHistory.rows db)).
  split; [|split; [apply order_perm | split; [apply order_sorted|]]].
  - unfold getAllViewingHistory, ViewingHistory.all_ordered.
    pose proof (order_perm (ViewingHistory.rows db)) as P.
    destruct (ViewingHistory.order_by_recorded_at_desc (ViewingHistory.rows db))
      as [|y t] eqn:E.
    + apply Permutation_sym, Permutation_nil in P. contradiction.
    + now rewrite display_fold.
  - intros row _. apply display_row_spec.
Qed.

Lemma list_shows_every_row_witness :
  exists ordered,
    getAllViewingHistory None example_db
    = inr (history_header ++ concat (map display_row ordered))
    /\ Permutation (ViewingHistory.rows example_db) ordered
    /\ StronglySorted newer_or_same ordered
    /\ forall row, In row ordered ->
         exists rating_part notes_part tags_part,
           display_row row
           = js "・" ++ ViewingHistory.start_date row ++ js " ~ "
               ++ ViewingHistory.end_date row ++ js ": "
               ++ ViewingHistory.media_title row
               ++ rating_part ++ notes_part ++ tags_part ++ LF
           /\ rating_suffix (ViewingHistory.rating row) rating_part
           /\ text_suffix (js " [メモ: ") (ViewingHistory.notes row) notes_part
           /\ text_suffix (js " [タグ: ") (ViewingHistory.tags row) tags_part.
Proof.
  apply (list_shows_every_row example_db). discriminate.
Defined.

(** C3 as stated fails on a rating of 0. A record made with rating 0 is
    stored with that rating, and the listing shows its line without
    the rating suffix, not [・2024-05-01 ~ 2024-05-03: Show X (評価:0)]. *)
Lemma list_omits_zero_rating :
  ViewingHistory.rows example_db
  = [new_row ViewingHistory.empty (js "2024-05-02T08:00:00.000Z")
       (js "Show X") (js "2024-05-01") (js "2024-05-03") zero_rated_data]
  /\ map ViewingHistory.rating (ViewingHistory.rows example_db) = [Some 0%Z]
  /\ getAllViewingHistory None example_db
     = inr (js "--- 視聴履歴一覧 ---" ++ LF
              ++ js "・2024-05-01 ~ 2024-05-03: Show X" ++ LF)
  /\ getAllViewingHistory None example_db
     <> inr (js "--- 視聴履歴一覧 ---" ++ LF
               ++ js "・2024-05-01 ~ 2024-05-03: Show X (評価:0)" ++ LF).
Proof.
  split; [reflexivity|]. split; [reflexivity|].
  split; [vm_compute; reflexivity|]. vm_compute. discriminate.
Qed.

(** The formatting example of the specification: rating 8, notes
    "great", tags "drama" give the three suffixes in order; no optional
    field gives none. *)
Lemma list_formatting_example :
  getAllViewingHistory None
    (fst (recordViewingHistory example_clock None example_data
            ViewingHistory.empty))
  = inr (js "--- 視聴履歴一覧 ---" ++ LF
           ++ js "・2024-05-01 ~ 2024-05-03: Show X (評価:8) [メモ: great] [タグ: drama]"
           ++ LF)
  /\ getAllViewingHistory None
       (fst (recordViewingHistory example_clock None white_space_data
               ViewingHistory.empty))
     = inr (js "--- 視聴履歴一覧 ---" ++ LF ++ js "・  ~   :    " ++ LF).
Proof. split; vm_compute; reflexivity. Qed.

(** C4. On a store without records (and an engine reporting no fault)
    the listing is exactly the fixed message [まだ視聴履歴がありません。]:
    neither an empty text nor a header. *)
Theorem list_empty_store (db : ViewingHistory.Database) :
  ViewingHistory.rows db = [] ->
  getAllViewingHistory None db = inr (js "まだ視聴履歴がありません。")
  /\ handle_get_history None db = js "まだ視聴履歴がありません。".
Proof.
  intros E. unfold handle_get_history, getAllViewingHistory,
    ViewingHistory.all_ordered. rewrite E. split; reflexivity.
Qed.

Lemma list_empty_store_witness :
  ViewingHistory.rows ViewingHistory.empty = []
  /\ getAllViewingHistory None ViewingHistory.empty
     = inr (js "まだ視聴履歴がありません。")
  /\ handle_get_history None ViewingHistory.empty
     = js "まだ視聴履歴がありません。".
Proof.
  split; [reflexivity|].
  apply (list_empty_store ViewingHistory.empty). reflexivity.
Defined.

(** A fault of the engine reaches the callback as its error. *)
Lemma list_fault (err : Error) (db : ViewingHistory.Database) :
  getAllViewingHistory (Some err) db = inl err
  /\ handle_get_history (Some err) db = error_message err.
Proof. split; reflexivity. Qed.

End Listing.

(* ================================================================== *)
(** * The lookup                                                       *)
(* ================================================================== *)

Section Lookup.

Variable generateContent : jsstring -> Outcome.

(** C9. For a title that is absent or the empty string the lookup
    answers [作品名を入力してください。] and sends nothing to the
    service. *)
Theorem lookup_without_title (mediaTitle : option jsstring) :
  missing_or_empty mediaTitle ->
  searchMediaWithGemini generateContent mediaTitle
  = ([], js "作品名を入力してください。").
Proof.
  intros H. unfold searchMediaWithGemini.
  now rewrite (truthy_missing_or_empty H).
Qed.

(** C8. When the call of the service throws, the lookup returns a
    message that names the title, asks to check the API key and the
    network connection, and quotes the error; the result is an ordinary
    return value. *)
Theorem lookup_transport_failure (title : jsstring) (error : Error) :
  title <> [] ->
  generateContent (prompt title) = Thrown error ->
  searchMediaWithGemini generateContent (Some title)
  = ([prompt title],
     js "作品: '" ++ title ++ js "' の情報取得中にエラーが発生しました。" ++ LF
     ++ js "APIキーの設定やネットワーク接続を確認してください。" ++ LF
     ++ js "(エラー: " ++ error_message error ++ js ")").
Proof.
  intros Hne Hcall. unfold searchMediaWithGemini.
  rewrite (truthy_nonempty Hne). cbn [negb interpolate].
  now rewrite Hcall.
Qed.

(** C7. When the reply, with the fence removed and trimmed, is not JSON,
    the lookup returns the notice [Geminiからの応答を解析できませんでした。]
    followed by that text. *)
Theorem lookup_unparseable_reply (title raw : jsstring) :
  title <> [] ->
  generateContent (prompt title) = Replied raw ->
  JSON.parse (trim (replace_code_fence raw)) = None ->
  searchMediaWithGemini generateContent (Some title)
  = ([prompt title],
     js "Geminiからの応答を解析できませんでした。" ++ LF ++ LF ++ js "---" ++ LF
     ++ trim (replace_code_fence raw)).
Proof.
  intros Hne Hcall Hparse. unfold searchMediaWithGemini.
  rewrite (truthy_nonempty Hne). cbn [negb interpolate].
  rewrite Hcall. unfold formatted_block. rewrite Hparse.
  unfold unparseable_notice. now rewrite <- !app_assoc.
Qed.

(** The lookup sends at most one prompt, the one for its title. *)
Lemma lookup_calls (mediaTitle : option jsstring) :
  fst (searchMediaWithGemini generateContent mediaTitle) = []
  \/ fst (searchMediaWithGemini generateContent mediaTitle)
     = [prompt (interpolate mediaTitle)].
Proof.
  unfold searchMediaWithGemini.
  destruct (truthy mediaTitle); cbn [negb]; [right | left; reflexivity].
  destruct (generateContent _); reflexivity.
Qed.

End Lookup.

Section LookupExamples.

Lemma lookup_without_title_witness :
  missing_or_empty (Some [])
  /\ searchMediaWithGemini (fun _ => Replied example_reply) (Some [])
     = ([], js "作品名を入力してください。").
Proof.
  split; [right; reflexivity|].
  apply (lookup_without_title (fun _ => Replied example_reply)).
  right; reflexivity.
Defined.

Lemma lookup_transport_failure_witness :
  searchMediaWithGemini
    (fun _ => Thrown (MkError (js "fetch failed"))) (Some (js "Show X"))
  = ([prompt (js "Show X")],
     js "作品: '" ++ js "Show X" ++ js "' の情報取得中にエラーが発生しました。"
     ++ LF ++ js "APIキーの設定やネットワーク接続を確認してください。" ++ LF
     ++ js "(エラー: " ++ error_message (MkError (js "fetch failed")) ++ js ")").
Proof.
  apply (lookup_transport_failure
           (fun _ => Thrown (MkError (js "fetch failed")))
           (title := js "Show X") (error := MkError (js "fetch failed"))).
  - discriminate.
  - reflexivity.
Defined.

Lemma lookup_unparseable_reply_witness :
  searchMediaWithGemini
    (fun _ => Replied (js "I could not find that title.")) (Some (js "Show X"))
  = ([prompt (js "Show X")],
     js "Geminiからの応答を解析できませんでした。" ++ LF ++ LF ++ js "---" ++ LF
     ++ trim (replace_code_fence (js "I could not find that title."))).
Proof.
  apply (lookup_unparseable_reply
           (fun _ => Replied (js "I could not find that title."))
           (title := js "Show X") (raw := js "I could not find that title.")).
  - discriminate.
  - reflexivity.
  - vm_compute. reflexivity.
Defined.

(** The example of the specification: the fenced reply
    [{"summary":"S","genre":["A","B"],"streaming_sites":["Netflix"]}]
    gives the block with [S], [A, B] and [- Netflix]. *)
Lemma lookup_example :
  searchMediaWithGemini (fun _ => Replied example_reply) (Some (js "Show X"))
  = ([prompt (js "Show X")],
     js "作品: 'Show X' の情報" ++ LF
     ++ js "----------------------------------------" ++ LF
     ++ js "【概要】" ++ LF ++ js "S" ++ LF ++ LF
     ++ js "【ジャンル】" ++ LF ++ js "A, B" ++ LF ++ LF
     ++ js "【主な配信サイト】" ++ LF ++ js "- Netflix" ++ LF
     ++ js "----------------------------------------" ++ LF
     ++ LF ++ js "(この情報はGeminiによって生成されました)").
Proof. vm_compute. reflexivity. Qed.

(** C5 fails on the reply the prompt itself asks for when a title is
    unknown: the text is JSON, with the sentence
    [情報が見つかりませんでした。] in each field, yet the lookup answers
    with the notice for an unparseable reply, because [join] is called
    on a string. *)
Lemma lookup_not_found_reply :
  JSON.parse (trim (replace_code_fence not_found_reply))
  = Some (Obj [(js "summary", Str (js "情報が見つかりませんでした。"));
               (js "genre", Str (js "情報が見つかりませんでした。"));
               (js "streaming_sites", Str (js "情報が見つかりませんでした。"))])
  /\ searchMediaWithGemini (fun _ => Replied not_found_reply)
       (Some (js "Show X"))
     = ([prompt (js "Show X")],
        js "Geminiからの応答を解析できませんでした。" ++ LF ++ LF
        ++ js "---" ++ LF ++ not_found_reply).
Proof. split; vm_compute; reflexivity. Qed.

(** The same happens for the reply [null]: reading a property of it
    throws. *)
Lemma lookup_null_reply :
  JSON.parse (js "null") = Some Null
  /\ searchMediaWithGemini (fun _ => Replied (js "null")) (Some (js "Show X"))
     = ([prompt (js "Show X")], unparseable_notice ++ js "null").
Proof. split; vm_compute; reflexivity. Qed.

End LookupExamples.

(* ================================================================== *)
(** * [JSON.parse]: fuel and surrounding white space                   *)
(* ================================================================== *)

Section JsonFacts.

Open Scope N_scope.

Lemma looks_alike_refl (r : jsstring) : looks_alike r r.
Proof. destruct r; simpl; auto. Qed.

Lemma looks_alike_app (a r r' : jsstring) :
  looks_alike r r' -> looks_alike (a ++ r) (a ++ r').
Proof. destruct a; simpl; auto. Qed.

(** A test that white space fails gives the same answer on look-alike
    continuations once it fails on one of them. *)
Lemma looks_alike_test (t : N -> bool) (c : N) (r r' : jsstring) :
  (forall x, is_white_space x = true -> t x = false) ->
  looks_alike r (c :: r') ->
  match r with x :: _ => t x = false | [] => True end ->
  t c = false.
Proof.
  intros Hws H Hr. destruct r as [|x r]; simpl in H.
  - now apply Hws.
  - destruct H as [-> | [_ H]]; [exact Hr | now apply Hws].
Qed.

Lemma solid_last_app (a b : jsstring) :
  solid_last a -> solid_last b -> solid_last (a ++ b).
Proof.
  unfold solid_last. rewrite rev_app_distr.
  destruct (rev b); simpl; auto.
Qed.

Lemma solid_last_snoc (a : jsstring) (d : N) :
  is_white_space d = false -> solid_last (a ++ [d]).
Proof. intros H. unfold solid_last. now rewrite rev_app_distr. Qed.

Lemma solid_last_cons (c : N) (a : jsstring) :
  a <> [] -> solid_last a -> solid_last (c :: a).
Proof.
  intros Hne H. change (c :: a) with ([c] ++ a).
  unfold solid_last in *. rewrite rev_app_distr.
  destruct (rev a) eqn:E; [|exact H].
  apply (f_equal (@rev N)) in E. rewrite rev_involutive in E. contradiction.
Qed.

Lemma digit_not_white_space (c : N) :
  is_digit c = true -> is_white_space c = false.
Proof.
  unfold is_digit, is_white_space. intros H.
  apply andb_true_iff in H as [H1 H2].
  apply N.leb_le in H1, H2.
  repeat match goal with
  | |- context [?a <=? ?b] => destruct (N.leb_spec a b); try lia
  | |- context [?a =? ?b] => destruct (N.eqb_spec a b); try lia
  end; reflexivity.
Qed.

Lemma white_space_not_digit (c : N) :
  is_white_space c = true -> is_digit c = false.
Proof.
  intros H. destruct (is_digit c) eqn:E; [|reflexivity].
  apply digit_not_white_space in E. congruence.
Qed.

Lemma json_ws_white_space (c : N) : is_ws c = true -> is_white_space c = true.
Proof.
  unfold is_ws. intros H.
  repeat (apply orb_true_iff in H as [H | H]);
    apply N.eqb_eq in H; subst; reflexivity.
Qed.

(** A code unit that is a given printable character is not white
    space. *)
Lemma eqb_not_white_space (c k : N) :
  is_white_space k = false -> (c =? k) = true -> is_white_space c = false.
Proof. intros Hk H. apply N.eqb_eq in H. now subst. Qed.

Lemma white_space_neqb (c k : N) :
  is_white_space k = false -> is_white_space c = true -> (c =? k) = false.
Proof.
  intros Hk H. destruct (N.eqb_spec c k); [subst; congruence | reflexivity].
Qed.

(** ** Digits *)

Lemma take_digits_spec (s : jsstring) (ds : list N) (rest : jsstring) :
  take_digits s = (ds, rest) ->
  exists a, s = a ++ rest
    /\ Forall (fun c => is_digit c = true) a
    /\ length a = length ds
    /\ match rest with x :: _ => is_digit x = false | [] => True end
    /\ forall r',
         match r' with x :: _ => is_digit x = false | [] => True end ->
         take_digits (a ++ r') = (ds, r').
Proof.
  revert ds rest; induction s as [|c s IH]; intros ds rest H; simpl in H.
  - injection H as <- <-. exists []. repeat split; auto.
    intros [|x r'] Hx; simpl; [reflexivity | now rewrite Hx].
  - destruct (is_digit c) eqn:Hc.
    + destruct (take_digits s) as [ds' rest'] eqn:E.
      injection H as <- <-.
      destruct (IH _ _ eq_refl) as (a & -> & Ha & Hl & Hr & Hk).
      exists (c :: a). repeat split; simpl; auto.
      intros r' Hr'. now rewrite Hc, (Hk r' Hr').
    + injection H as <- <-. exists []. repeat split; simpl; auto.
      intros [|x r'] Hx; simpl; [reflexivity | now rewrite Hx].
Qed.

Lemma looks_alike_digit (r r' : jsstring) :
  looks_alike r r' ->
  match r with x :: _ => is_digit x = false | [] => True end ->
  match r' with x :: _ => is_digit x = false | [] => True end.
Proof.
  intros H Hr. destruct r' as [|c r']; [exact I|].
  eapply looks_alike_test; eauto. apply white_space_not_digit.
Qed.

Lemma digits_solid_last (a : jsstring) :
  Forall (fun c => is_digit c = true) a -> solid_last a.
Proof.
  intros H. unfold solid_last.
  destruct (rev a) as [|d t] eqn:E; [exact I|].
  apply digit_not_white_space.
  rewrite Forall_forall in H. apply H, in_rev. rewrite E. now left.
Qed.

(** ** Numbers *)

Lemma Some_eq (A : Type) (x y : A) : Some x = Some y -> x = y.
Proof. congruence. Qed.

Lemma parse_int_reads (s : jsstring) (ds : list N) (rest : jsstring) :
  parse_int s = Some (ds, rest) ->
  exists a, reads parse_int s ds rest a
    /\ Forall (fun c => is_digit c = true) a /\ a <> [].
Proof.
  intros H. unfold parse_int in H. destruct s as [|c s]; [discriminate|].
  destruct (c =? 48) eqn:E0.
  - injection H as <- <-. exists [c]. split; [split|split].
    + reflexivity.
    + intros r' _. unfold parse_int. cbn [app]. now rewrite E0.
    + constructor; [|constructor]. apply N.eqb_eq in E0. now subst.
    + discriminate.
  - destruct (is_digit c) eqn:Hc; [|discriminate].
    apply Some_eq in H.
    destruct (take_digits_spec _ H) as (a & Ea & Ha & Hl & Hr & Hk).
    assert (Hne : a <> []).
    { intros ->. simpl in Ea. subst rest. simpl in Hr. congruence. }
    exists a. split; [split|split]; auto.
    intros r' Hr'.
    destruct a as [|x a]; [contradiction|].
    injection Ea as <- Ea. unfold parse_int. cbn [app]. rewrite E0, Hc.
    f_equal. apply (Hk r'). eapply looks_alike_digit; eauto.
Qed.

Lemma parse_frac_reads (s : jsstring) (ds : list N) (rest : jsstring) :
  parse_frac s = Some (ds, rest) ->
  exists a, reads parse_frac s ds rest a /\ solid_last a.
Proof.
  intros H. unfold parse_frac in H. destruct s as [|c s].
  - injection H as <- <-. exists []. split; [split|exact I].
    + reflexivity.
    + intros [|x r'] Hx; [reflexivity|].
      unfold parse_frac. cbn [app]. simpl in Hx.
      rewrite white_space_neqb; auto.
  - destruct (c =? ch ".") eqn:Ec.
    + destruct (take_digits s) as [[|d ds'] rest'] eqn:E; [discriminate|].
      injection H as <- <-.
      destruct (take_digits_spec _ E) as (a & -> & Ha & Hl & Hr & Hk).
      exists (c :: a). split; [split|].
      * reflexivity.
      * intros r' Hr'. unfold parse_frac. cbn [app]. rewrite Ec.
        rewrite (Hk r') by (eapply looks_alike_digit; eauto). reflexivity.
      * apply solid_last_cons; [|now apply digits_solid_last].
        intros ->. discriminate.
    + injection H as <- <-. exists []. split; [split|exact I].
      * reflexivity.
      * intros [|x r'] Hx; [reflexivity|].
        unfold parse_frac. cbn [app]. simpl in Hx.
        destruct Hx as [<- | [_ Hx]]; [now rewrite Ec|].
        rewrite white_space_neqb; auto.
Qed.

Lemma exp_sign_spec (s : jsstring) (neg : bool) (s1 a rest : jsstring) :
  exp_sign s = (neg, s1) -> s1 = a ++ rest -> a <> [] ->
  Forall (fun c => is_digit c = true) a ->
  exists sg, s = sg ++ a ++ rest /\ solid_last (sg ++ a) /\ sg ++ a <> []
    /\ forall r', exp_sign (sg ++ a ++ r') = (neg, a ++ r').
Proof.
  intros Es -> Hne Ha. unfold exp_sign in Es. destruct s as [|x s''].
  - injection Es as <- Es. destruct a; [contradiction | discriminate].
  - destruct (x =? ch "-") eqn:E1; [|destruct (x =? ch "+") eqn:E2].
    + injection Es as <- <-. exists [x]. repeat split.
      * apply solid_last_cons; [exact Hne | now apply digits_solid_last].
      * discriminate.
      * intros r'. unfold exp_sign. cbn [app]. now rewrite E1.
    + injection Es as <- <-. exists [x]. repeat split.
      * apply solid_last_cons; [exact Hne | now apply digits_solid_last].
      * discriminate.
      * intros r'. unfold exp_sign. cbn [app]. now rewrite E1, E2.
    + injection Es as <- Es. exists []. repeat split.
      * exact Es.
      * now apply digits_solid_last.
      * exact Hne.
      * intros r'. destruct a as [|y a]; [contradiction|].
        injection Es as -> _. unfold exp_sign. cbn [app]. now rewrite E1, E2.
Qed.

Lemma parse_exp_reads (s : jsstring) (ex : Z) (rest : jsstring) :
  parse_exp s = Some (ex, rest) ->
  exists a, reads parse_exp s ex rest a /\ solid_last a.
Proof.
  intros H. unfold parse_exp in H. destruct s as [|c s].
  - injection H as <- <-. exists []. split; [split|exact I].
    + reflexivity.
    + intros [|x r'] Hx; [reflexivity|].
      unfold parse_exp. cbn [app]. simpl in Hx.
      rewrite !white_space_neqb; auto.
  - destruct ((c =? ch "e") || (c =? ch "E")) eqn:Ec.
    + destruct (exp_sign s) as [neg s1] eqn:Es.
      destruct (take_digits s1) as [[|d ds'] rest'] eqn:E; [discriminate|].
      injection H as <- <-.
      destruct (take_digits_spec _ E) as (a & Ea & Ha & Hl & Hr & Hk).
      assert (Hne : a <> []) by (intros ->; discriminate).
      destruct (exp_sign_spec _ _ Es Ea Hne Ha) as (sg & -> & Hsl & Hsn & Hsg).
      exists (c :: sg ++ a). split; [split|].
      * cbn [app]. now rewrite <- app_assoc.
      * intros r' Hr'. unfold parse_exp. cbn [app]. rewrite Ec.
        rewrite <- app_assoc, Hsg.
        rewrite (Hk r') by (eapply looks_alike_digit; eauto). reflexivity.
      * apply solid_last_cons; assumption.
    + injection H as <- <-. exists []. split; [split|exact I].
      * reflexivity.
      * intros [|x r'] Hx; [reflexivity|].
        unfold parse_exp. cbn [app]. simpl in Hx.
        destruct Hx as [<- | [_ Hx]]; [now rewrite Ec|].
        rewrite !white_space_neqb; auto.
Qed.


Lemma parse_number_reads (s : jsstring) (v : value) (rest : jsstring) :
  parse_number s = Some (v, rest) ->
  exists a, reads parse_number s v rest a /\ solid_head a /\ solid_last a.
Proof.
  intros H. unfold parse_number in H.
  destruct (minus_sign s) as [neg s0] eqn:Em.
  destruct (parse_int s0) as [[int_ds s1]|] eqn:Ei; [|discriminate].
  destruct (parse_frac s1) as [[frac_ds s2]|] eqn:Ef; [|discriminate].
  destruct (parse_exp s2) as [[ex s3]|] eqn:Ee; [|discriminate].
  injection H as <- <-.
  destruct (parse_int_reads _ Ei) as (a1 & [E1 R1] & D1 & N1).
  destruct (parse_frac_reads _ Ef) as (a2 & [E2 R2] & L2).
  destruct (parse_exp_reads _ Ee) as (a3 & [E3 R3] & L3).
  assert (Hsign : exists sg, s = sg ++ s0 /\ solid_head (sg ++ a1)
            /\ forall t, minus_sign (sg ++ a1 ++ t) = (neg, a1 ++ t)).
  { unfold minus_sign in Em. destruct s as [|c s'].
    - injection Em as <- <-. destruct a1; [contradiction | discriminate E1].
    - destruct (c =? ch "-") eqn:Ec.
      + injection Em as <- <-. exists [c]. repeat split.
        * cbn. eapply eqb_not_white_space; [|exact Ec]. reflexivity.
        * intros t. unfold minus_sign. cbn [app]. now rewrite Ec.
      + injection Em as <- <-. exists []. repeat split.
        * destruct a1 as [|x a1]; [contradiction|]. cbn.
          apply digit_not_white_space. now inversion D1.
        * intros t. destruct a1 as [|x a1]; [contradiction|].
          injection E1 as <- _. unfold minus_sign. cbn [app]. now rewrite Ec. }
  destruct Hsign as (sg & Es & Hh & Hsg).
  exists (sg ++ a1 ++ a2 ++ a3). split; [split|split].
  - rewrite Es, E1, E2, E3. now rewrite <- !app_assoc.
  - intros r' Hr'. unfold parse_number.
    rewrite <- !app_assoc, Hsg.
    rewrite R1 by (rewrite E2, E3; now do 2 apply looks_alike_app).
    rewrite R2 by (rewrite E3; now apply looks_alike_app).
    rewrite (R3 r' Hr'). reflexivity.
  - destruct sg as [|c sg]; [destruct a1; [contradiction | exact Hh] | exact Hh].
  - apply solid_last_app; [|apply solid_last_app; [|apply solid_last_app]]; auto.
    + destruct sg as [|c sg]; [exact I|].
      unfold minus_sign in Em. rewrite Es in Em. cbn [app] in Em.
      destruct (c =? ch "-") eqn:Ec.
      * injection Em as _ Em. apply (f_equal (@length N)) in Em.
        rewrite length_app in Em.
        destruct sg; [|simpl in Em; lia].
        apply solid_last_snoc with (a := []).
        eapply eqb_not_white_space; [|exact Ec]. reflexivity.
      * injection Em as _ Em. apply (f_equal (@length N)) in Em.
        simpl in Em. rewrite length_app in Em. lia.
    + now apply digits_solid_last.
Qed.


(** ** Strings, keywords and white space *)

Lemma parse_chars_reads (n : nat) (s str rest : jsstring) :
  (length s <= n)%nat ->
  parse_chars s = Some (str, rest) ->
  exists a, s = a ++ rest /\ solid_last a /\ a <> []
    /\ forall r', parse_chars (a ++ r') = Some (str, r').
Proof.
  revert s str rest; induction n as [|n IH]; intros s str rest Hn H.
  { destruct s; [discriminate | simpl in Hn; lia]. }
  destruct s as [|c r]; [discriminate|]. cbn [parse_chars] in H.
  destruct (c =? quote) eqn:Eq.
  - injection H as <- <-. exists [c]. repeat split.
    + apply solid_last_snoc with (a := []).
      eapply eqb_not_white_space; [|exact Eq]. reflexivity.
    + discriminate.
    + intros r'. cbn [app parse_chars]. now rewrite Eq.
  - destruct (c =? backslash) eqn:Eb.
    + destruct r as [|x r1]; [discriminate|].
      destruct (x =? ch "u") eqn:Eu.
      * destruct r1 as [|h1 [|h2 [|h3 [|h4 r2]]]]; try discriminate.
        destruct (hex4 h1 h2 h3 h4) as [u|] eqn:Eh; [|discriminate].
        destruct (parse_chars r2) as [[str' rest']|] eqn:E; [|discriminate].
        injection H as <- <-.
        destruct (IH r2 str' rest') as (a & -> & Hl & Hne & Hk);
          [simpl in Hn; lia | exact E |].
        exists (c :: x :: h1 :: h2 :: h3 :: h4 :: a). repeat split.
        -- do 6 (apply solid_last_cons; [discriminate || exact Hne|]).
           exact Hl.
        -- discriminate.
        -- intros r'. cbn [app parse_chars]. rewrite Eq, Eb, Eu, Eh, Hk.
           reflexivity.
      * destruct (escape x) as [y|] eqn:Ee; [|discriminate].
        destruct (parse_chars r1) as [[str' rest']|] eqn:E; [|discriminate].
        injection H as <- <-.
        destruct (IH r1 str' rest') as (a & -> & Hl & Hne & Hk);
          [simpl in Hn; lia | exact E |].
        exists (c :: x :: a). repeat split.
        -- do 2 (apply solid_last_cons; [discriminate || exact Hne|]).
           exact Hl.
        -- discriminate.
        -- intros r'. cbn [app parse_chars]. rewrite Eq, Eb, Eu, Ee, Hk.
           reflexivity.
    + destruct (c <? 32) eqn:Ec; [discriminate|].
      destruct (parse_chars r) as [[str' rest']|] eqn:E; [|discriminate].
      injection H as <- <-.
      destruct (IH r str' rest') as (a & -> & Hl & Hne & Hk);
        [simpl in Hn; lia | exact E |].
      exists (c :: a). repeat split.
      * apply solid_last_cons; assumption.
      * discriminate.
      * intros r'. cbn [app parse_chars]. rewrite Eq, Eb, Ec, Hk.
        reflexivity.
Qed.

Lemma skipn_length_app (a r : jsstring) : skipn (length a) (a ++ r) = r.
Proof. induction a; simpl; auto. Qed.

Lemma parse_keyword_reads (kw : jsstring) (v v' : value) (s rest : jsstring) :
  parse_keyword kw v s = Some (v', rest) ->
  v' = v /\ s = kw ++ rest
  /\ forall r', parse_keyword kw v (kw ++ r') = Some (v, r').
Proof.
  unfold parse_keyword. destruct (startsWith kw s) eqn:E; [|discriminate].
  intros H; injection H as <- <-.
  apply startsWith_spec in E as [r ->].
  rewrite skipn_length_app. repeat split.
  intros r'. now rewrite startsWith_app, skipn_length_app.
Qed.

Lemma skip_ws_spec (s : jsstring) :
  exists w, s = w ++ skip_ws s
    /\ Forall (fun c => is_ws c = true) w
    /\ match skip_ws s with c :: _ => is_ws c = false | [] => True end.
Proof.
  induction s as [|c s (w & E & Hw & Hs)]; simpl.
  - exists []. repeat split; constructor.
  - destruct (is_ws c) eqn:Ec.
    + exists (c :: w). repeat split; [simpl; now f_equal | now constructor | exact Hs].
    + exists []. repeat split; [constructor | exact Ec].
Qed.

Lemma skip_ws_app (w t : jsstring) :
  Forall (fun c => is_ws c = true) w -> skip_ws (w ++ t) = skip_ws t.
Proof.
  induction 1 as [|c w Hc _ IH]; simpl; [reflexivity | now rewrite Hc].
Qed.

Lemma skip_ws_solid (a t : jsstring) :
  solid_head a -> skip_ws (a ++ t) = a ++ t.
Proof.
  destruct a as [|c a]; [contradiction|]. simpl. intros Hc.
  destruct (is_ws c) eqn:E; [|reflexivity].
  apply json_ws_white_space in E. congruence.
Qed.

(** White space, then a solid prefix. *)
Lemma skip_ws_ws_solid (w a t : jsstring) :
  Forall (fun c => is_ws c = true) w -> solid_head a ->
  skip_ws (w ++ a ++ t) = a ++ t.
Proof. intros Hw Ha. now rewrite skip_ws_app, skip_ws_solid. Qed.

(** ** The unfolding equations of the three parsers *)

Lemma parse_value_S (fuel : nat) (c : N) (r : jsstring) :
  parse_value (S fuel) (c :: r)
  = if c =? ch "{" then
      match skip_ws r with
      | x :: r1 =>
          if x =? ch "}" then Some (Obj [], r1)
          else parse_members fuel (x :: r1) []
      | [] => None
      end
    else if c =? ch "[" then
      match skip_ws r with
      | x :: r1 =>
          if x =? ch "]" then Some (Arr [], r1)
          else parse_elements fuel (x :: r1) []
      | [] => None
      end
    else if c =? quote then
      match parse_chars r with
      | Some (str, rest) => Some (Str str, rest)
      | None => None
      end
    else if c =? ch "t" then parse_keyword (js "true") (Bool true) (c :: r)
    else if c =? ch "f" then parse_keyword (js "false") (Bool false) (c :: r)
    else if c =? ch "n" then parse_keyword (js "null") Null (c :: r)
    else parse_number (c :: r).
Proof. reflexivity. Qed.

Lemma parse_elements_S (fuel : nat) (s : jsstring) (acc : list value) :
  parse_elements (S fuel) s acc
  = match parse_value fuel s with
    | None => None
    | Some (v, r) =>
        match skip_ws r with
        | x :: r1 =>
            if x =? ch "," then parse_elements fuel (skip_ws r1) (v :: acc)
            else if x =? ch "]" then Some (Arr (rev (v :: acc)), r1)
            else None
        | [] => None
        end
    end.
Proof. reflexivity. Qed.

Lemma parse_members_S (fuel : nat) (c : N) (r : jsstring)
  (acc : list (jsstring * value)) :
  parse_members (S fuel) (c :: r) acc
  = if c =? quote then
      match parse_chars r with
      | None => None
      | Some (key, r1) =>
          match skip_ws r1 with
          | y :: r2 =>
              if y =? ch ":" then
                match parse_value fuel (skip_ws r2) with
                | None => None
                | Some (v, r3) =>
                    match skip_ws r3 with
                    | x :: r4 =>
                        if x =? ch ","
                        then parse_members fuel (skip_ws r4) ((key, v) :: acc)
                        else if x =? ch "}"
                        then Some (Obj (rev ((key, v) :: acc)), r4)
                        else None
                    | [] => None
                    end
                end
              else None
          | [] => None
          end
      end
    else None.
Proof. reflexivity. Qed.


(** ** The parsers read a prefix *)

Lemma solid_last_app_r (b a : jsstring) :
  a <> [] -> solid_last a -> solid_last (b ++ a).
Proof.
  intros Hne H. unfold solid_last in *. rewrite rev_app_distr.
  destruct (rev a) eqn:E; [|exact H].
  apply (f_equal (@rev N)) in E. rewrite rev_involutive in E. contradiction.
Qed.

Lemma solid_head_nonempty (a : jsstring) : solid_head a -> a <> [].
Proof. destruct a; [contradiction | discriminate]. Qed.

Lemma skip_ws_cons_solid (x : N) (t : jsstring) :
  is_ws x = false -> skip_ws (x :: t) = x :: t.
Proof. intros H. simpl. now rewrite H. Qed.

Lemma looks_alike_prefix (w : jsstring) (x : N) (t t' : jsstring) :
  looks_alike (w ++ x :: t) (w ++ x :: t').
Proof. destruct w; simpl; auto. Qed.

Lemma eqb_solid (c : N) (a : ascii) :
  is_white_space (ch a) = false -> (c =? ch a) = true ->
  is_white_space c = false.
Proof. intros Hk H. apply N.eqb_eq in H. now subst. Qed.

Ltac lengths H :=
  repeat (rewrite length_app in H || cbn [length] in H).

Ltac push_app := progress (cbn [app]).

Ltac assoc := repeat first [rewrite <- app_assoc | push_app].

Ltac solid_char E := eapply eqb_solid; [|exact E]; reflexivity.

Lemma keyword_steady (kw : jsstring) (v0 : value) (s : jsstring)
  (v : value) (rest : jsstring) :
  parse_keyword kw v0 s = Some (v, rest) ->
  solid_head kw -> solid_last kw ->
  (forall f' r',
     parse_value (S f') (kw ++ r') = parse_keyword kw v0 (kw ++ r')) ->
  steady parse_value s v rest.
Proof.
  intros Hp Hh Hl Hd.
  destruct (parse_keyword_reads _ _ _ Hp) as (-> & Es & Hk).
  exists kw. split; [exact Es | split; [exact Hh | split; [exact Hl|]]].
  intros [|f'] r' Hf _.
  - destruct kw; [contradiction | lengths Hf; lia].
  - now rewrite Hd, Hk.
Qed.

Lemma parse_value_steady_step (fuel : nat) :
  (forall s acc v rest, parse_elements fuel s acc = Some (v, rest) ->
     steady (fun f t => parse_elements f t acc) s v rest) ->
  (forall s acc v rest, parse_members fuel s acc = Some (v, rest) ->
     steady (fun f t => parse_members f t acc) s v rest) ->
  forall s v rest, parse_value (S fuel) s = Some (v, rest) ->
    steady parse_value s v rest.
Proof.
  intros IHe IHm s v rest H.
  destruct s as [|c r]; [discriminate|]. rewrite parse_value_S in H.
  destruct (c =? ch "{") eqn:E1.
  { destruct (skip_ws_spec r) as (w & Er & Hw & Hs).
    destruct (skip_ws r) as [|x r1] eqn:Esk; [discriminate|].
    destruct (x =? ch "}") eqn:Ex.
    - injection H as <- <-. exists (c :: w ++ [x]). split; [|split; [|split]].
      + rewrite Er. cbn [app]. now rewrite <- app_assoc.
      + solid_char E1.
      + change (solid_last ((c :: w) ++ [x])). apply solid_last_snoc.
        solid_char Ex.
      + intros [|f'] r' Hf _; [lengths Hf; lia|].
        cbn [app]. rewrite parse_value_S, E1, <- app_assoc. cbn [app].
        rewrite skip_ws_app, skip_ws_cons_solid by assumption.
        now rewrite Ex.
    - apply IHm in H as (a & Ea & Hh & Hl & Hk).
      exists (c :: w ++ a). split; [|split; [|split]].
      + rewrite Er, Ea. cbn [app]. now rewrite <- app_assoc.
      + solid_char E1.
      + change (solid_last ((c :: w) ++ a)).
        apply solid_last_app_r; [now apply solid_head_nonempty | exact Hl].
      + intros [|f'] r' Hf Hr'; [lengths Hf; lia|].
        cbn [app]. rewrite parse_value_S, E1, <- app_assoc.
        rewrite skip_ws_ws_solid by assumption.
        destruct a as [|y a]; [contradiction|].
        injection Ea as <- _. cbn [app]. rewrite Ex.
        apply (Hk f' r'); [lengths Hf; cbn [length]; lia | exact Hr']. }
  destruct (c =? ch "[") eqn:E2.
  { destruct (skip_ws_spec r) as (w & Er & Hw & Hs).
    destruct (skip_ws r) as [|x r1] eqn:Esk; [discriminate|].
    destruct (x =? ch "]") eqn:Ex.
    - injection H as <- <-. exists (c :: w ++ [x]). split; [|split; [|split]].
      + rewrite Er. cbn [app]. now rewrite <- app_assoc.
      + solid_char E2.
      + change (solid_last ((c :: w) ++ [x])). apply solid_last_snoc.
        solid_char Ex.
      + intros [|f'] r' Hf _; [lengths Hf; lia|].
        cbn [app]. rewrite parse_value_S, E1, E2, <- app_assoc. cbn [app].
        rewrite skip_ws_app, skip_ws_cons_solid by assumption.
        now rewrite Ex.
    - apply IHe in H as (a & Ea & Hh & Hl & Hk).
      exists (c :: w ++ a). split; [|split; [|split]].
      + rewrite Er, Ea. cbn [app]. now rewrite <- app_assoc.
      + solid_char E2.
      + change (solid_last ((c :: w) ++ a)).
        apply solid_last_app_r; [now apply solid_head_nonempty | exact Hl].
      + intros [|f'] r' Hf Hr'; [lengths Hf; lia|].
        cbn [app]. rewrite parse_value_S, E1, E2, <- app_assoc.
        rewrite skip_ws_ws_solid by assumption.
        destruct a as [|y a]; [contradiction|].
        injection Ea as <- _. cbn [app]. rewrite Ex.
        apply (Hk f' r'); [lengths Hf; cbn [length]; lia | exact Hr']. }
  destruct (c =? quote) eqn:E3.
  { destruct (parse_chars r) as [[str r1]|] eqn:Ec; [|discriminate].
    injection H as <- <-.
    destruct (parse_chars_reads (n := length r) r (Nat.le_refl _) Ec)
      as (a & -> & Hl & Hne & Hk).
    exists (c :: a). split; [|split; [|split]].
    - reflexivity.
    - eapply eqb_not_white_space; [|exact E3]. reflexivity.
    - now apply solid_last_cons.
    - intros [|f'] r' Hf _; [lengths Hf; lia|].
      cbn [app]. now rewrite parse_value_S, E1, E2, E3, Hk. }
  destruct (c =? ch "t") eqn:E4.
  { eapply keyword_steady; [exact H | reflexivity | reflexivity |].
    intros f' r'. reflexivity. }
  destruct (c =? ch "f") eqn:E5.
  { eapply keyword_steady; [exact H | reflexivity | reflexivity |].
    intros f' r'. reflexivity. }
  destruct (c =? ch "n") eqn:E6.
  { eapply keyword_steady; [exact H | reflexivity | reflexivity |].
    intros f' r'. reflexivity. }
  destruct (parse_number_reads _ H) as (a & [Ea Hk] & Hh & Hl).
  exists a. split; [exact Ea | split; [exact Hh | split; [exact Hl|]]].
  intros [|f'] r' Hf Hr'.
  - destruct a; [contradiction | lengths Hf; lia].
  - destruct a as [|y a]; [contradiction|].
    injection Ea as <- _. cbn [app].
    rewrite parse_value_S, E1, E2, E3, E4, E5, E6.
    apply (Hk r' Hr').
Qed.


Lemma parse_elements_steady_step (fuel : nat) :
  (forall s v rest, parse_value fuel s = Some (v, rest) ->
     steady parse_value s v rest) ->
  (forall s acc v rest, parse_elements fuel s acc = Some (v, rest) ->
     steady (fun f t => parse_elements f t acc) s v rest) ->
  forall s acc v rest, parse_elements (S fuel) s acc = Some (v, rest) ->
    steady (fun f t => parse_elements f t acc) s v rest.
Proof.
  intros IHv IHe s acc v rest H. rewrite parse_elements_S in H.
  destruct (parse_value fuel s) as [[v1 r]|] eqn:Ev; [|discriminate].
  apply IHv in Ev as (a1 & E1 & Hh1 & Hl1 & Hk1).
  destruct (skip_ws_spec r) as (w1 & Er & Hw1 & Hs1).
  destruct (skip_ws r) as [|x r1] eqn:Esk; [discriminate|].
  destruct (x =? ch ",") eqn:Ex.
  - apply IHe in H as (a2 & E2 & Hh2 & Hl2 & Hk2).
    destruct (skip_ws_spec r1) as (w2 & Er1 & Hw2 & _).
    exists (a1 ++ w1 ++ x :: w2 ++ a2). split; [|split; [|split]].
    + rewrite E1, Er, Er1, E2. assoc; reflexivity.
    + destruct a1; [contradiction | exact Hh1].
    + replace (a1 ++ w1 ++ x :: w2 ++ a2)
        with ((a1 ++ w1 ++ x :: w2) ++ a2) by (assoc; reflexivity).
      apply solid_last_app_r; [now apply solid_head_nonempty | exact Hl2].
    + intros [|f'] r' Hf Hr'.
      { destruct a1; [contradiction | lengths Hf; lia]. }
      rewrite parse_elements_S. assoc.
      rewrite (Hk1 f' (w1 ++ x :: w2 ++ a2 ++ r')).
      * rewrite skip_ws_app, skip_ws_cons_solid by assumption.
        rewrite Ex, skip_ws_ws_solid by assumption.
        apply (Hk2 f' r'); [lengths Hf; lia | exact Hr'].
      * lengths Hf; lia.
      * rewrite Er. apply looks_alike_prefix.
  - destruct (x =? ch "]") eqn:Ey; [|discriminate].
    injection H as <- <-.
    exists (a1 ++ w1 ++ [x]). split; [|split; [|split]].
    + rewrite E1, Er. assoc; reflexivity.
    + destruct a1; [contradiction | exact Hh1].
    + replace (a1 ++ w1 ++ [x]) with ((a1 ++ w1) ++ [x])
        by (assoc; reflexivity).
      apply solid_last_snoc. solid_char Ey.
    + intros [|f'] r' Hf _.
      { destruct a1; [contradiction | lengths Hf; lia]. }
      rewrite parse_elements_S. assoc.
      rewrite (Hk1 f' (w1 ++ x :: r')).
      * rewrite skip_ws_app, skip_ws_cons_solid by assumption.
        now rewrite Ex, Ey.
      * lengths Hf; lia.
      * rewrite Er. apply looks_alike_prefix.
Qed.

Lemma parse_members_steady_step (fuel : nat) :
  (forall s v rest, parse_value fuel s = Some (v, rest) ->
     steady parse_value s v rest) ->
  (forall s acc v rest, parse_members fuel s acc = Some (v, rest) ->
     steady (fun f t => parse_members f t acc) s v rest) ->
  forall s acc v rest, parse_members (S fuel) s acc = Some (v, rest) ->
    steady (fun f t => parse_members f t acc) s v rest.
Proof.
  intros IHv IHm s acc v rest H.
  destruct s as [|c r0]; [discriminate|]. rewrite parse_members_S in H.
  destruct (c =? quote) eqn:Eq; [|discriminate].
  destruct (parse_chars r0) as [[key r1]|] eqn:Ek; [|discriminate].
  destruct (parse_chars_reads (n := length r0) r0 (Nat.le_refl _) Ek)
    as (ak & -> & _ & _ & Hkk).
  destruct (skip_ws_spec r1) as (wk & Er1 & Hwk & Hsk).
  destruct (skip_ws r1) as [|y r2] eqn:Esk1; [discriminate|].
  destruct (y =? ch ":") eqn:Ey; [|discriminate].
  destruct (skip_ws_spec r2) as (w3 & Er2 & Hw3 & _).
  destruct (parse_value fuel (skip_ws r2)) as [[v1 r3]|] eqn:Ev; [|discriminate].
  apply IHv in Ev as (a1 & E1 & Hh1 & Hl1 & Hk1).
  destruct (skip_ws_spec r3) as (w4 & Er3 & Hw4 & Hs4).
  destruct (skip_ws r3) as [|x r4] eqn:Esk3; [discriminate|].
  assert (Hc : is_white_space c = false).
  { eapply eqb_not_white_space; [|exact Eq]. reflexivity. }
  assert (Hy : is_ws y = false) by exact Hsk.
  destruct (x =? ch ",") eqn:Ex.
  - apply IHm in H as (a2 & E2 & Hh2 & Hl2 & Hk2).
    destruct (skip_ws_spec r4) as (w5 & Er4 & Hw5 & _).
    exists (c :: ak ++ wk ++ y :: w3 ++ a1 ++ w4 ++ x :: w5 ++ a2).
    split; [|split; [|split]].
    + rewrite Er1. cbn [app]. rewrite Er2, E1, Er3, Er4, E2.
      assoc; reflexivity.
    + exact Hc.
    + replace (c :: ak ++ wk ++ y :: w3 ++ a1 ++ w4 ++ x :: w5 ++ a2)
        with ((c :: ak ++ wk ++ y :: w3 ++ a1 ++ w4 ++ x :: w5) ++ a2)
        by (assoc; reflexivity).
      apply solid_last_app_r; [now apply solid_head_nonempty | exact Hl2].
    + intros [|f'] r' Hf Hr'; [lengths Hf; lia|].
      cbn [app]. rewrite parse_members_S, Eq. assoc.
      rewrite Hkk. rewrite skip_ws_app, skip_ws_cons_solid by assumption.
      rewrite Ey.
      rewrite skip_ws_ws_solid by assumption.
      rewrite (Hk1 f' (w4 ++ x :: w5 ++ a2 ++ r')).
      * rewrite skip_ws_app, skip_ws_cons_solid by assumption.
        rewrite Ex, skip_ws_ws_solid by assumption.
        apply (Hk2 f' r'); [lengths Hf; lia | exact Hr'].
      * lengths Hf; lia.
      * rewrite Er3. apply looks_alike_prefix.
  - destruct (x =? ch "}") eqn:Ez; [|discriminate].
    injection H as <- <-.
    exists (c :: ak ++ wk ++ y :: w3 ++ a1 ++ w4 ++ [x]).
    split; [|split; [|split]].
    + rewrite Er1. cbn [app]. rewrite Er2, E1, Er3.
      assoc; reflexivity.
    + exact Hc.
    + replace (c :: ak ++ wk ++ y :: w3 ++ a1 ++ w4 ++ [x])
        with ((c :: ak ++ wk ++ y :: w3 ++ a1 ++ w4) ++ [x])
        by (assoc; reflexivity).
      apply solid_last_snoc. solid_char Ez.
    + intros [|f'] r' Hf _; [lengths Hf; lia|].
      cbn [app]. rewrite parse_members_S, Eq. assoc.
      rewrite Hkk. rewrite skip_ws_app, skip_ws_cons_solid by assumption.
      rewrite Ey.
      rewrite skip_ws_ws_solid by assumption.
      rewrite (Hk1 f' (w4 ++ x :: r')).
      * rewrite skip_ws_app, skip_ws_cons_solid by assumption.
        now rewrite Ex, Ez.
      * lengths Hf; lia.
      * rewrite Er3. apply looks_alike_prefix.
Qed.


(** Whatever a parser returns with some fuel, it returns with any fuel
    from twice the length of what it read, and after any look-alike
    change of what follows. *)
Theorem parsers_steady (fuel : nat) :
  (forall s v rest, parse_value fuel s = Some (v, rest) ->
     steady parse_value s v rest)
  /\ (forall s acc v rest, parse_elements fuel s acc = Some (v, rest) ->
        steady (fun f t => parse_elements f t acc) s v rest)
  /\ (forall s acc v rest, parse_members fuel s acc = Some (v, rest) ->
        steady (fun f t => parse_members f t acc) s v rest).
Proof.
  induction fuel as [|fuel (IHv & IHe & IHm)].
  - repeat split; intros; discriminate.
  - split; [|split].
    + apply parse_value_steady_step; assumption.
    + apply parse_elements_steady_step; assumption.
    + apply parse_members_steady_step; assumption.
Qed.

(** The fuel of [JSON.parse] is enough: a value read with any fuel is
    read with twice the length of the text. *)
Corollary parse_value_fuel (fuel fuel' : nat) (s : jsstring) (v : value)
  (rest : jsstring) :
  parse_value fuel s = Some (v, rest) ->
  (2 * length s <= fuel')%nat ->
  parse_value fuel' s = Some (v, rest).
Proof.
  intros H Hf.
  destruct (proj1 (parsers_steady fuel) _ _ _ H) as (a & -> & _ & _ & Hk).
  apply Hk; [|apply looks_alike_refl].
  rewrite length_app in Hf. lia.
Qed.

Lemma skip_ws_length (s : jsstring) : (length (skip_ws s) <= length s)%nat.
Proof.
  induction s as [|c s IH]; simpl; [lia|].
  destruct (is_ws c); simpl; lia.
Qed.

Corollary parse_any_fuel (fuel : nat) (text : jsstring) (v : value)
  (rest : jsstring) :
  parse_value fuel (skip_ws text) = Some (v, rest) ->
  skip_ws rest = [] ->
  JSON.parse text = Some v.
Proof.
  intros H Hr. unfold JSON.parse.
  erewrite parse_value_fuel; [now rewrite Hr | exact H |].
  pose proof (skip_ws_length text). lia.
Qed.

Lemma json_ws_blank (w : jsstring) :
  Forall (fun c => is_ws c = true) w -> blank w.
Proof.
  intros H. eapply Forall_impl; [|exact H].
  intros c. apply json_ws_white_space.
Qed.

Lemma trimStart_solid (a t : jsstring) :
  solid_head a -> trimStart (a ++ t) = a ++ t.
Proof.
  destruct a as [|c a]; [contradiction|]. simpl. intros H. now rewrite H.
Qed.

(** [trim] removes the white space around a text that begins and ends
    with something else. *)
Lemma trim_solid (w a w' : jsstring) :
  blank w -> blank w' -> solid_head a -> solid_last a ->
  trim (w ++ a ++ w') = a.
Proof.
  intros Hw Hw' Hh Hl. unfold trim, trimEnd.
  rewrite trimStart_blank, trimStart_solid by assumption.
  rewrite rev_app_distr, trimStart_blank by now apply blank_rev.
  unfold solid_last in Hl.
  destruct (rev a) as [|d t] eqn:E.
  - apply (f_equal (@rev N)) in E. rewrite rev_involutive in E. subst a.
    contradiction.
  - rewrite trimStart_fixed by exact Hl. rewrite <- E. apply rev_involutive.
Qed.

(** A text that parses is white space, a value, white space; and the
    value alone parses to the same. *)
Theorem parse_trim (text : jsstring) (v : value) :
  JSON.parse text = Some v -> JSON.parse (trim text) = Some v.
Proof.
  unfold JSON.parse at 1.
  destruct (parse_value _ (skip_ws text)) as [[v' rest]|] eqn:E; [|discriminate].
  destruct (skip_ws rest) eqn:Er; [|discriminate].
  intros H; injection H as ->.
  destruct (proj1 (parsers_steady _) _ _ _ E) as (a & Ea & Hh & Hl & Hk).
  destruct (skip_ws_spec text) as (w & Et & Hw & _).
  destruct (skip_ws_spec rest) as (w' & Ew & Hw' & _).
  rewrite Er, app_nil_r in Ew. subst w'.
  assert (Htrim : trim text = a).
  { rewrite Et, Ea. apply trim_solid; auto using json_ws_blank. }
  rewrite Htrim.
  apply parse_any_fuel with (fuel := (2 * length a)%nat) (rest := []);
    [|reflexivity].
  rewrite <- (app_nil_r a) at 2. rewrite skip_ws_solid by exact Hh.
  apply Hk; [lia|].
  destruct rest as [|c rest]; [exact I|].
  simpl. inversion Hw'; subst. now apply json_ws_white_space.
Qed.

End JsonFacts.

(* ================================================================== *)
(** * The lookup: code fences                                          *)
(* ================================================================== *)

Section Fences.

Lemma firstn_length_app (a r : jsstring) :
  firstn (length (a ++ r) - length r) (a ++ r) = a.
Proof.
  rewrite length_app. replace (length a + length r - length r)%nat
    with (length a) by lia.
  induction a; simpl; [reflexivity | now f_equal].
Qed.

Lemma remove_opening_fence_json (t : jsstring) :
  remove_opening_fence (js "```json" ++ t) = trimStart t.
Proof.
  unfold remove_opening_fence.
  now rewrite startsWith_app, skipn_length_app.
Qed.

Lemma remove_closing_fence_app (t : jsstring) :
  remove_closing_fence (t ++ js "```") = t.
Proof.
  unfold remove_closing_fence.
  now rewrite endsWith_app, firstn_length_app.
Qed.

(** The replacement on any text: the opener goes with the white space
    after it when the text begins with [```json], the last three code
    units go when they are backticks, and nothing else changes. *)
Lemma replace_code_fence_spec (raw : jsstring) :
  (forall t, raw = js "```json" ++ t -> remove_opening_fence raw = trimStart t)
  /\ (startsWith (js "```json") raw = false -> remove_opening_fence raw = raw)
  /\ (forall t, remove_opening_fence raw = t ++ js "```" ->
        replace_code_fence raw = t)
  /\ (endsWith (js "```") (remove_opening_fence raw) = false ->
        replace_code_fence raw = remove_opening_fence raw).
Proof.
  repeat split.
  - intros t ->. apply remove_opening_fence_json.
  - intros H. unfold remove_opening_fence. now rewrite H.
  - intros t H. unfold replace_code_fence. rewrite H.
    apply remove_closing_fence_app.
  - intros H. unfold replace_code_fence, remove_closing_fence. now rewrite H.
Qed.

Lemma trimStart_head (s : jsstring) :
  trimStart s = [] \/ solid_head (trimStart s).
Proof.
  induction s as [|c s IH]; simpl; [now left|].
  destruct (is_white_space c) eqn:E; [exact IH | right; exact E].
Qed.

Lemma trimEnd_blank (s w : jsstring) :
  blank w -> trimEnd (s ++ w) = trimEnd s.
Proof.
  intros H. unfold trimEnd.
  rewrite rev_app_distr, trimStart_blank; [reflexivity | now apply blank_rev].
Qed.

(** What the lookup hands to [JSON.parse] for a reply made of the
    opener [```json], white space, a text, white space and the closing
    fence: the text, trimmed. *)
Lemma strip_json_fence (w1 body w2 : jsstring) :
  blank w1 -> blank w2 ->
  trim (replace_code_fence (js "```json" ++ w1 ++ body ++ w2 ++ js "```"))
  = trim body.
Proof.
  intros H1 H2. unfold replace_code_fence.
  rewrite remove_opening_fence_json, trimStart_blank by exact H1.
  destruct (trimStart_suffix body) as (wb & Hwb & Eb).
  destruct (trimStart_head body) as [Hnil | Hsolid].
  - assert (Hb : blank body) by now apply trimStart_nil_iff.
    rewrite app_assoc, trimStart_blank by (apply blank_app; auto).
    change (trimStart (js "```")) with ([] ++ js "```").
    rewrite remove_closing_fence_app.
    symmetry. now apply trim_nil_iff.
  - rewrite Eb at 1. rewrite <- app_assoc, trimStart_blank by exact Hwb.
    rewrite trimStart_solid by exact Hsolid.
    rewrite app_assoc, remove_closing_fence_app.
    unfold trim. rewrite trimStart_solid by exact Hsolid.
    now rewrite trimEnd_blank.
Qed.

(** C6, as the code has it. Before the reply is read as JSON the lookup
    removes an opening [```json] with the white space after it, and
    three backticks that end the reply, then trims the text. A reply
    made of [```json], white space, a JSON text, white space and a
    closing fence at its very end is read as that JSON text: it parses,
    to the same value. *)
Theorem lookup_json_fenced_reply (generateContent : jsstring -> Outcome)
  (title w1 body w2 : jsstring) (info : value) :
  title <> [] -> blank w1 -> blank w2 ->
  JSON.parse body = Some info ->
  generateContent (prompt title)
  = Replied (js "```json" ++ w1 ++ body ++ w2 ++ js "```") ->
  trim (replace_code_fence (js "```json" ++ w1 ++ body ++ w2 ++ js "```"))
  = trim body
  /\ JSON.parse
       (trim (replace_code_fence
                (js "```json" ++ w1 ++ body ++ w2 ++ js "```")))
     = Some info
  /\ searchMediaWithGemini generateContent (Some title)
     = ([prompt title],
        match formatted_block title (trim body) with
        | Some block => block
        | None => unparseable_notice ++ trim body
        end).
Proof.
  intros Hne H1 H2 Hp Hcall.
  pose proof (strip_json_fence body H1 H2) as E.
  split; [exact E|]. split; [rewrite E; now apply parse_trim|].
  unfold searchMediaWithGemini.
  rewrite (truthy_nonempty Hne). cbn [negb interpolate].
  now rewrite Hcall, E.
Qed.

Lemma lookup_json_fenced_reply_witness :
  trim (replace_code_fence
          (js "```json" ++ LF ++ (js " {}" ++ LF) ++ js "  " ++ js "```"))
  = trim (js " {}" ++ LF)
  /\ JSON.parse
       (trim (replace_code_fence
                (js "```json" ++ LF ++ (js " {}" ++ LF) ++ js "  "
                   ++ js "```")))
     = Some (Obj [])
  /\ searchMediaWithGemini
       (fun _ => Replied (js "```json" ++ LF ++ (js " {}" ++ LF) ++ js "  "
                            ++ js "```"))
       (Some (js "Show X"))
     = ([prompt (js "Show X")],
        match formatted_block (js "Show X") (trim (js " {}" ++ LF)) with
        | Some block => block
        | None => unparseable_notice ++ trim (js " {}" ++ LF)
        end).
Proof.
  apply (@lookup_json_fenced_reply
           (fun _ => Replied (js "```json" ++ LF ++ (js " {}" ++ LF)
                                ++ js "  " ++ js "```"))
           (js "Show X") LF (js " {}" ++ LF) (js "  ") (Obj [])).
  - discriminate.
  - repeat constructor.
  - repeat constructor.
  - vm_compute. reflexivity.
  - reflexivity.
Defined.

(** C6 as stated fails on a fence without the [json] tag: the text
    between the fences is JSON, but only the closing fence is removed,
    what is left does not parse and the lookup answers with the notice
    for an unparseable reply. *)
Lemma lookup_plain_fenced_reply :
  plain_fenced_reply = js "```" ++ LF ++ js "{}" ++ LF ++ js "```"
  /\ JSON.parse (js "{}") = Some (Obj [])
  /\ trim (replace_code_fence plain_fenced_reply) = js "```" ++ LF ++ js "{}"
  /\ JSON.parse (trim (replace_code_fence plain_fenced_reply)) = None
  /\ searchMediaWithGemini (fun _ => Replied plain_fenced_reply)
       (Some (js "Show X"))
     = ([prompt (js "Show X")],
        unparseable_notice ++ js "```" ++ LF ++ js "{}").
Proof. repeat split; vm_compute; reflexivity. Qed.

(** A line break after the closing fence keeps it from being removed:
    the second alternative of the pattern is anchored at the end of the
    input and [trim] runs after the replacement. *)
Lemma lookup_newline_after_fence :
  trim (replace_code_fence newline_after_fence_reply)
  = js "{}" ++ LF ++ js "```"
  /\ JSON.parse (trim (replace_code_fence newline_after_fence_reply)) = None.
Proof. split; vm_compute; reflexivity. Qed.

End Fences.

(* ================================================================== *)
(** * The lookup: when the block is rendered                           *)
(* ================================================================== *)

Section Block.

(** [ToString] of an array is its [join] with a comma. *)
Lemma ToString_array (elements : list value) :
  ToString (Arr elements) = join (js ",") elements.
Proof.
  unfold join. cbn [ToString]. f_equal.
  induction elements as [|x l IH]; [reflexivity|].
  cbn [map collect]. rewrite <- IH. destruct x; reflexivity.
Qed.

(** An object converts to a string unless it has a member named
    [toString]. *)
Lemma ToString_object (members : list (jsstring * value)) :
  ToString (Obj members) = None
  <-> own_property members (js "toString") Undefined <> Undefined.
Proof.
  cbn [ToString].
  destruct (own_property members (js "toString") Undefined); split;
    congruence.
Qed.

Lemma collect_map (A B : Type) (f : A -> option B) (l : list A)
  (parts : list B) :
  Forall2 (fun x part => f x = Some part) l parts ->
  collect (map f l) = Some parts.
Proof.
  induction 1 as [|x part l parts H _ IH]; cbn [map collect];
    [reflexivity | now rewrite H, IH].
Qed.

Lemma collect_none (A B : Type) (f : A -> option B) (l : list A) (x : A) :
  In x l -> f x = None -> collect (map f l) = None.
Proof.
  intros Hin Hx. induction l as [|y l IH]; [contradiction|].
  cbn [map collect]. destruct Hin as [-> | Hin].
  - now rewrite Hx.
  - rewrite (IH Hin). now destruct (f y).
Qed.

Lemma summary_text_shown (info : value) (p : property) (shown : jsstring) :
  get info (js "summary") = Some p -> summary_shown p shown ->
  summary_text info = Some shown.
Proof.
  intros E H. unfold summary_text. rewrite E.
  destruct H as [[T ->] | (v & -> & T & H)].
  - destruct p as [|v]; [reflexivity|]. cbn in T. now rewrite T.
  - now rewrite T.
Qed.

Lemma genre_text_shown (info : value) (p : property) (shown : jsstring) :
  get info (js "genre") = Some p -> genre_shown p shown ->
  genre_text info = Some shown.
Proof.
  intros E H. unfold genre_text. rewrite E.
  destruct H as [[T ->] | (l & parts & -> & H & ->)].
  - now rewrite T.
  - cbn [truthy_property ToBoolean]. unfold join.
    rewrite (@collect_map _ _ join_element l parts); [reflexivity|].
    eapply Forall2_impl; [|exact H].
    intros v part Hv. destruct v; cbv beta iota in Hv; cbn [join_element];
      first [exact Hv | now subst].

Qed.

Lemma streaming_sites_text_shown (info : value) (p : property)
  (shown : jsstring) :
  get info (js "streaming_sites") = Some p -> streaming_sites_shown p shown ->
  streaming_sites_text info = Some shown.
Proof.
  intros E H. unfold streaming_sites_text. rewrite E.
  destruct H as [[T ->] | (l & parts & -> & H & ->)].
  - now rewrite T.
  - cbn [truthy_property ToBoolean].
    rewrite (@collect_map _ _
               (fun site => option_map (fun text => js "- " ++ text)
                              (ToString site))
               l (map (fun part => js "- " ++ part) parts)); [reflexivity|].
    clear E. induction H as [|v part l parts Hv _ IH]; cbn [map];
      constructor; [now rewrite Hv | exact IH].
Qed.

(** X11. On a reply that is JSON and not [null], the lookup returns the
    block: the title line, a rule, the summary, the genres joined by
    [", "], the sites one per line behind [- ], a rule and the
    attribution. This takes [genre] and [streaming_sites] each absent,
    falsy or an array, and a conversion to a string for every value
    shown; [情報なし] stands for a part that is absent or falsy. *)
Theorem lookup_renders_block (generateContent : jsstring -> Outcome)
  (title raw : jsstring) (info : value) (psum pg ps : property)
  (summary genre sites : jsstring) :
  title <> [] ->
  generateContent (prompt title) = Replied raw ->
  JSON.parse (trim (replace_code_fence raw)) = Some info ->
  get info (js "summary") = Some psum -> summary_shown psum summary ->
  get info (js "genre") = Some pg -> genre_shown pg genre ->
  get info (js "streaming_sites") = Some ps ->
  streaming_sites_shown ps sites ->
  searchMediaWithGemini generateContent (Some title)
  = ([prompt title],
     js "作品: '" ++ title ++ js "' の情報" ++ LF
     ++ js "----------------------------------------" ++ LF
     ++ js "【概要】" ++ LF ++ summary ++ LF ++ LF
     ++ js "【ジャンル】" ++ LF ++ genre ++ LF ++ LF
     ++ js "【主な配信サイト】" ++ LF ++ sites ++ LF
     ++ js "----------------------------------------" ++ LF
     ++ LF ++ js "(この情報はGeminiによって生成されました)").
Proof.
  intros Hne Hcall Hp Esum Hsum Eg Hg Es Hs.
  unfold searchMediaWithGemini.
  rewrite (truthy_nonempty Hne). cbn [negb interpolate].
  rewrite Hcall. unfold formatted_block.
  rewrite Hp, (summary_text_shown _ Esum Hsum), (genre_text_shown _ Eg Hg),
    (streaming_sites_text_shown _ Es Hs).
  unfold rule, attribution. now rewrite <- !app_assoc.
Qed.

End Block.

(* ================================================================== *)
(** * Further properties of recording                                  *)
(* ================================================================== *)

Section RecordingMore.

Lemma truthy_spec (x : option jsstring) :
  truthy x = true -> exists s, x = Some s /\ s <> [].
Proof.
  destruct x as [[|c s]|]; try discriminate.
  intros _. exists (c :: s). split; [reflexivity | discriminate].
Qed.

(** What a call does to the database: nothing, or one new row made of
    three non-empty strings, the clock and the optional fields. *)
Lemma record_step (recordedAt : jsstring) (fault : option Error)
  (data : Data) (db : ViewingHistory.Database) :
  (fst (recordViewingHistory recordedAt fault data db) = db
   /\ forall r, snd (recordViewingHistory recordedAt fault data db) = inr r ->
        success r = false)
  \/ (exists title start stop,
        title <> [] /\ start <> [] /\ stop <> []
        /\ fault = None
        /\ recordViewingHistory recordedAt fault data db
           = (with_row db (new_row db recordedAt title start stop data),
              inr {| success := true; message := recorded_message title |})).
Proof.
  destruct (truthy (mediaTitle data)) eqn:Ht;
    [destruct (truthy (startDate data)) eqn:Hs;
       [destruct (truthy (endDate data)) eqn:He|]|].
  - destruct fault as [err|].
    + left. rewrite (record_fault recordedAt err data db Ht Hs He).
      split; [reflexivity | discriminate].
    + right.
      destruct (truthy_spec _ Ht) as (title & Et & Nt).
      destruct (truthy_spec _ Hs) as (start & Es & Ns).
      destruct (truthy_spec _ He) as (stop & Ee & Ne).
      exists title, start, stop. repeat split; auto.
      now apply record_accepts.
  - left. unfold recordViewingHistory. rewrite Ht, Hs, He. cbn.
    split; [reflexivity|]. intros r H; injection H as <-; reflexivity.
  - left. unfold recordViewingHistory. rewrite Ht, Hs. cbn.
    split; [reflexivity|]. intros r H; injection H as <-; reflexivity.
  - left. unfold recordViewingHistory. rewrite Ht. cbn.
    split; [reflexivity|]. intros r H; injection H as <-; reflexivity.
Qed.

(** X1. [recordViewingHistory] reports success exactly when it has
    added a row: either the result is [{success: true, ...}] and the
    database has one more row at its end, or the database is unchanged
    and the callback receives an error or [{success: false, ...}]. *)
Theorem record_success_iff_row (recordedAt : jsstring) (fault : option Error)
  (data : Data) (db : ViewingHistory.Database) :
  (exists row message,
     recordViewingHistory recordedAt fault data db
     = ({| ViewingHistory.rows := ViewingHistory.rows db ++ [row];
           ViewingHistory.sequence := (ViewingHistory.sequence db + 1)%Z |},
        inr {| success := true; message := message |}))
  \/ (fst (recordViewingHistory recordedAt fault data db) = db
      /\ forall r,
           snd (recordViewingHistory recordedAt fault data db) = inr r ->
           success r = false).
Proof.
  destruct (record_step recordedAt fault data db)
    as [H | (title & start & stop & _ & _ & _ & _ & E)].
  - right. exact H.
  - left. exists (new_row db recordedAt title start stop data),
      (recorded_message title). exact E.
Qed.

(** X2. Validation covers the NOT NULL columns: when the engine reports
    no fault, the INSERT cannot fail, and the callback of
    [recordViewingHistory] never receives an error, whatever the data. *)
Theorem record_no_constraint_error (recordedAt : jsstring) (data : Data)
  (db : ViewingHistory.Database) :
  exists result,
    snd (recordViewingHistory recordedAt None data db) = inr result.
Proof.
  unfold recordViewingHistory.
  destruct (truthy (mediaTitle data)) eqn:Ht; cbn [negb orb];
    [|eexists; reflexivity].
  destruct (truthy (startDate data)) eqn:Hs; cbn [negb orb];
    [|eexists; reflexivity].
  destruct (truthy (endDate data)) eqn:He; cbn [negb orb];
    [|eexists; reflexivity].
  destruct (truthy_spec _ Ht) as (title & Et & _).
  destruct (truthy_spec _ Hs) as (start & Es & _).
  destruct (truthy_spec _ He) as (stop & Ee & _).
  unfold ViewingHistory.run_insert.
  cbn [ViewingHistory.p_media_title ViewingHistory.p_start_date
       ViewingHistory.p_end_date ViewingHistory.p_recorded_at].
  rewrite Et, Es, Ee. eexists; reflexivity.
Qed.

(** X3. A fault of the engine on an accepted record does not reach the
    renderer as an error: the ['record-history'] handler resolves to
    [{success: false, message}] with the message of the fault, and no
    row is added. *)
Theorem record_handler_fault (recordedAt : jsstring) (err : Error)
  (data : Data) (db : ViewingHistory.Database) :
  truthy (mediaTitle data) = true -> truthy (startDate data) = true ->
  truthy (endDate data) = true ->
  handle_record_history recordedAt (Some err) data db
  = (db, {| success := false; message := error_message err |}).
Proof.
  intros Ht Hs He. unfold handle_record_history.
  now rewrite (record_fault recordedAt err data db Ht Hs He).
Qed.

Lemma record_handler_fault_witness :
  handle_record_history example_clock
    (Some (MkError (js "SQLITE_BUSY: database is locked")))
    example_data example_db
  = (example_db,
     {| success := false;
        message := error_message
                     (MkError (js "SQLITE_BUSY: database is locked")) |}).
Proof.
  apply (@record_handler_fault example_clock
           (MkError (js "SQLITE_BUSY: database is locked"))
           example_data example_db); reflexivity.
Defined.

(** ** Series of calls *)

Lemma ids_ascending_step (recordedAt : jsstring) (fault : option Error)
  (data : Data) (db : ViewingHistory.Database) :
  ids_ascending db ->
  ids_ascending (fst (recordViewingHistory recordedAt fault data db)).
Proof.
  intros (Hs & Hb & H0).
  destruct (record_step recordedAt fault data db)
    as [[E _] | (title & start & stop & _ & _ & _ & _ & E)];
    rewrite E; [repeat split; assumption|].
  cbn [fst]. unfold ids_ascending, with_row; cbn [ViewingHistory.rows
    ViewingHistory.sequence]. split; [|split].
  - rewrite map_app. cbn [map new_row ViewingHistory.id].
    clear E. induction (ViewingHistory.rows db) as [|r l IH]; cbn.
    + constructor; constructor.
    + inversion Hs as [|? ? Hs' Hr]; subst.
      inversion Hb as [|? ? Hr' Hb']; subst.
      constructor; [now apply IH|].
      apply Forall_app; split; [exact Hr|].
      constructor; [lia | constructor].
  - apply Forall_app; split.
    + eapply Forall_impl; [|exact Hb]. intros r Hr; cbn in Hr |- *. lia.
    + constructor; [|constructor]. cbn. lia.
  - lia.
Qed.

Lemma required_present_step (recordedAt : jsstring) (fault : option Error)
  (data : Data) (db : ViewingHistory.Database) :
  Forall required_present (ViewingHistory.rows db) ->
  Forall required_present
    (ViewingHistory.rows (fst (recordViewingHistory recordedAt fault data db))).
Proof.
  intros H.
  destruct (record_step recordedAt fault data db)
    as [[E _] | (title & start & stop & Nt & Ns & Ne & _ & E)];
    rewrite E; [exact H|].
  cbn [fst with_row ViewingHistory.rows].
  apply Forall_app; split; [exact H|].
  constructor; [|constructor].
  repeat split; now apply bind_text_nonempty.
Qed.

Lemma record_all_invariant (P : ViewingHistory.Database -> Prop) :
  (forall recordedAt fault data db,
     P db -> P (fst (recordViewingHistory recordedAt fault data db))) ->
  forall calls db, P db -> P (record_all calls db).
Proof.
  intros Hstep calls. induction calls as [|c calls IH]; intros db H.
  - exact H.
  - cbn [record_all]. apply IH, Hstep, H.
Qed.

(** X4. In every database reached from the empty one by calls of
    [recordViewingHistory], whatever their data, clock readings and
    engine faults, the ids are positive, grow strictly in order of
    insertion and are therefore pairwise different. *)
Theorem record_all_ids (calls : list Call) :
  StronglySorted Z.lt
    (map ViewingHistory.id
       (ViewingHistory.rows (record_all calls ViewingHistory.empty)))
  /\ NoDup (map ViewingHistory.id
              (ViewingHistory.rows (record_all calls ViewingHistory.empty)))
  /\ Forall (fun r => (1 <= ViewingHistory.id r)%Z)
       (ViewingHistory.rows (record_all calls ViewingHistory.empty)).
Proof.
  assert (H : ids_ascending (record_all calls ViewingHistory.empty)).
  { apply record_all_invariant with (P := ids_ascending).
    - intros; now apply ids_ascending_step.
    - repeat split; [constructor | constructor | cbn; lia]. }
  destruct H as (Hs & Hb & _). split; [exact Hs | split].
  - clear Hb. induction Hs as [|x l Hs IH Hx]; constructor; [|exact IH].
    intros Hin. rewrite Forall_forall in Hx. specialize (Hx _ Hin). lia.
  - eapply Forall_impl; [|exact Hb]. intros r Hr; cbn in Hr. lia.
Qed.

(** X5. In every database reached from the empty one by calls of
    [recordViewingHistory], each row has a non-empty [media_title],
    [start_date] and [end_date]. *)
Theorem record_all_required_present (calls : list Call) :
  Forall required_present
    (ViewingHistory.rows (record_all calls ViewingHistory.empty)).
Proof.
  apply record_all_invariant
    with (P := fun db => Forall required_present (ViewingHistory.rows db)).
  - intros; now apply required_present_step.
  - constructor.
Qed.

(** X6. Recording only appends: after any series of calls the rows that
    were in the database are still its first rows, unchanged and in the
    same order, followed by at most one new row for each call. *)
Theorem record_all_appends (calls : list Call) (db : ViewingHistory.Database) :
  exists added,
    ViewingHistory.rows (record_all calls db)
    = ViewingHistory.rows db ++ added
    /\ (length added <= length calls)%nat.
Proof.
  revert db; induction calls as [|c calls IH]; intros db.
  - exists []. split; [now rewrite app_nil_r | apply Nat.le_refl].
  - cbn [record_all].
    destruct (IH (fst (recordViewingHistory (call_clock c) (call_fault c)
                         (call_data c) db))) as (added & E & Hl).
    destruct (record_step (call_clock c) (call_fault c) (call_data c) db)
      as [[E1 _] | (title & start & stop & _ & _ & _ & _ & E1)];
      rewrite E1 in E; rewrite E1.
    + exists added. split; [exact E | cbn; lia].
    + cbn [fst with_row ViewingHistory.rows] in E |- *.
      eexists (_ :: added). rewrite E, <- app_assoc. split; [reflexivity|].
      cbn. lia.
Qed.

End RecordingMore.

(* ================================================================== *)
(** * Further properties of listing                                    *)
(* ================================================================== *)

Section ListingMore.

Lemma sorted_snoc (A : Type) (R : A -> A -> Prop) (l : list A) (y : A) :
  StronglySorted R l -> Forall (fun x => R x y) l ->
  StronglySorted R (l ++ [y]).
Proof.
  induction 1 as [|x l Hs IH Hx]; intros Hy; cbn.
  - constructor; constructor.
  - inversion Hy as [|? ? Hxy Hy']; subst.
    constructor; [now apply IH|].
    apply Forall_app; split; [exact Hx | constructor; [exact Hxy | constructor]].
Qed.

(** With timestamps that grow with the rowid, the order of the listing
    is the order of insertion reversed. *)
Lemma order_ascending (rows : list ViewingHistory.Row) :
  clock_ascending rows ->
  ViewingHistory.order_by_recorded_at_desc rows = rev rows.
Proof.
  induction 1 as [|r l Hs IH Hr]; [reflexivity|].
  cbn [ViewingHistory.order_by_recorded_at_desc rev]. rewrite IH.
  rewrite <- (app_nil_r (rev l)) at 1.
  rewrite place_after; [reflexivity|].
  apply Forall_forall. intros x Hx. apply in_rev in Hx.
  rewrite Forall_forall in Hr. now apply Hr.
Qed.

Lemma ltb_trans (a b c : jsstring) :
  JsString.ltb a b = true -> JsString.ltb b c = true ->
  JsString.ltb a c = true.
Proof.
  intros Hab Hbc. eapply ltb_leb_trans; [exact Hab | now apply ltb_leb].
Qed.

(** Calls made at growing clock readings leave rows with growing
    timestamps. *)
Lemma record_all_clock (calls : list Call) (db : ViewingHistory.Database) :
  StronglySorted
    (fun a b => JsString.ltb (call_clock a) (call_clock b) = true) calls ->
  clock_ascending (ViewingHistory.rows db) ->
  Forall (fun r =>
            Forall (fun c => JsString.ltb (ViewingHistory.recorded_at r)
                               (call_clock c) = true) calls)
    (ViewingHistory.rows db) ->
  clock_ascending (ViewingHistory.rows (record_all calls db)).
Proof.
  intros Hc. revert db. induction Hc as [|c calls Hc IH Hlater];
    intros db Hs Hb; [exact Hs|].
  cbn [record_all].
  assert (Hb' : Forall (fun r =>
            Forall (fun c => JsString.ltb (ViewingHistory.recorded_at r)
                               (call_clock c) = true) calls)
            (ViewingHistory.rows db)).
  { eapply Forall_impl; [|exact Hb]. intros r Hr. now inversion Hr. }
  destruct (record_step (call_clock c) (call_fault c) (call_data c) db)
    as [[E _] | (title & start & stop & _ & _ & _ & _ & E)]; rewrite E.
  - now apply IH.
  - cbn [fst with_row ViewingHistory.rows]. apply IH.
    + apply sorted_snoc; [exact Hs|].
      eapply Forall_impl; [|exact Hb]. intros r Hr. now inversion Hr.
    + apply Forall_app; split; [exact Hb'|].
      constructor; [exact Hlater | constructor].
Qed.

(** X9. When the clock has moved forward between the calls of
    [recordViewingHistory] that filled a database from empty, the
    listing shows the accepted records newest first: under the header,
    their lines in the reverse of the order of insertion. *)
Theorem list_newest_first (calls : list Call) :
  StronglySorted
    (fun a b => JsString.ltb (call_clock a) (call_clock b) = true) calls ->
  ViewingHistory.rows (record_all calls ViewingHistory.empty) <> [] ->
  getAllViewingHistory None (record_all calls ViewingHistory.empty)
  = inr (history_header
           ++ concat (map display_row
                        (rev (ViewingHistory.rows
                                (record_all calls ViewingHistory.empty))))).
Proof.
  intros Hc Hne.
  assert (Ho : ViewingHistory.order_by_recorded_at_desc
                 (ViewingHistory.rows (record_all calls ViewingHistory.empty))
               = rev (ViewingHistory.rows
                        (record_all calls ViewingHistory.empty))).
  { apply order_ascending, record_all_clock; [exact Hc | constructor |
      constructor]. }
  unfold getAllViewingHistory, ViewingHistory.all_ordered. rewrite Ho.
  destruct (rev (ViewingHistory.rows (record_all calls ViewingHistory.empty)))
    as [|y t] eqn:E.
  - apply (f_equal (@rev ViewingHistory.Row)) in E.
    rewrite rev_involutive in E. contradiction.
  - now rewrite display_fold.
Qed.

Lemma list_newest_first_witness :
  getAllViewingHistory None (record_all sample_calls ViewingHistory.empty)
  = inr (history_header
           ++ concat (map display_row
                        (rev (ViewingHistory.rows
                                (record_all sample_calls
                                   ViewingHistory.empty))))).
Proof.
  apply (@list_newest_first sample_calls).
  - repeat constructor.
  - discriminate.
Defined.

End ListingMore.

(* ================================================================== *)
(** * [JSON.parse]: how a text that parses ends                        *)
(* ================================================================== *)

Section JsonEnds.

Local Open Scope N_scope.

Lemma closes_prefix (p s rest : jsstring) :
  closes s rest -> closes (p ++ s) rest.
Proof.
  intros (a & d & -> & Hd). exists (p ++ a), d.
  split; [now rewrite <- app_assoc | exact Hd].
Qed.

Lemma closes_cons (c : N) (s rest : jsstring) :
  closes s rest -> closes (c :: s) rest.
Proof. apply (closes_prefix [c]). Qed.

Lemma closes_snoc (a : jsstring) (d : N) (rest : jsstring) :
  value_end d = true -> closes (a ++ d :: rest) rest.
Proof. intros H. now exists a, d. Qed.

Lemma digit_value_end (d : N) : is_digit d = true -> value_end d = true.
Proof.
  intros H. unfold value_end. rewrite H. now rewrite !orb_true_r.
Qed.

Lemma digits_close (a rest : jsstring) :
  Forall (fun c => is_digit c = true) a -> a <> [] ->
  closes (a ++ rest) rest.
Proof.
  intros Ha Hne.
  destruct (exists_last Hne) as (a' & d & ->).
  rewrite <- app_assoc. apply closes_snoc, digit_value_end.
  apply Forall_app in Ha as [_ Hd]. now inversion Hd.
Qed.

Lemma take_digits_closes (s : jsstring) (d : N) (ds : list N)
  (rest : jsstring) :
  take_digits s = (d :: ds, rest) -> closes s rest.
Proof.
  intros H.
  destruct (take_digits_spec _ H) as (a & -> & Ha & Hl & _).
  apply digits_close; [exact Ha|]. intros ->. discriminate.
Qed.

Lemma parse_frac_closes (s : jsstring) (ds : list N) (rest : jsstring) :
  parse_frac s = Some (ds, rest) -> s = rest \/ closes s rest.
Proof.
  unfold parse_frac. destruct s as [|c s]; [intros H; injection H; auto|].
  destruct (c =? ch ".").
  - destruct (take_digits s) as [[|d ds'] rest'] eqn:E; [discriminate|].
    intros H; injection H as <- <-. right.
    apply closes_cons. eapply take_digits_closes; exact E.
  - intros H; injection H; auto.
Qed.

Lemma exp_sign_suffix (s : jsstring) (neg : bool) (s1 : jsstring) :
  exp_sign s = (neg, s1) -> exists sg, s = sg ++ s1.
Proof.
  unfold exp_sign. destruct s as [|x s'].
  - intros H; injection H as <- <-. now exists [].
  - destruct (x =? ch "-"); [|destruct (x =? ch "+")];
      intros H; injection H as <- <-;
      [exists [x] | exists [x] | exists []]; reflexivity.
Qed.

Lemma parse_exp_closes (s : jsstring) (ex : Z) (rest : jsstring) :
  parse_exp s = Some (ex, rest) -> s = rest \/ closes s rest.
Proof.
  unfold parse_exp. destruct s as [|c s]; [intros H; injection H; auto|].
  destruct ((c =? ch "e") || (c =? ch "E")).
  - destruct (exp_sign s) as [neg s1] eqn:Es.
    destruct (take_digits s1) as [[|d ds'] rest'] eqn:E; [discriminate|].
    intros H; injection H as <- <-. right.
    destruct (exp_sign_suffix _ Es) as (sg & ->).
    apply closes_cons, closes_prefix. eapply take_digits_closes; exact E.
  - intros H; injection H; auto.
Qed.

Lemma minus_sign_suffix (s : jsstring) (neg : bool) (s0 : jsstring) :
  minus_sign s = (neg, s0) -> exists sg, s = sg ++ s0.
Proof.
  unfold minus_sign. destruct s as [|c s'].
  - intros H; injection H as <- <-. now exists [].
  - destruct (c =? ch "-"); intros H; injection H as <- <-;
      [exists [c] | exists []]; reflexivity.
Qed.

Lemma closes_then (s mid rest : jsstring) :
  closes s mid -> mid = rest \/ closes mid rest -> closes s rest.
Proof.
  intros Hs [<- | (a' & d' & -> & Hd')]; [exact Hs|].
  destruct Hs as (a & d & -> & _).
  exists (a ++ d :: a'), d'. split; [|exact Hd'].
  rewrite <- app_assoc. reflexivity.
Qed.

(** A number ends with a digit. *)
Lemma parse_number_closes (s : jsstring) (v : value) (rest : jsstring) :
  parse_number s = Some (v, rest) -> closes s rest.
Proof.
  intros H. unfold parse_number in H.
  destruct (minus_sign s) as [neg s0] eqn:Em.
  destruct (parse_int s0) as [[int_ds s1]|] eqn:Ei; [|discriminate].
  destruct (parse_frac s1) as [[frac_ds s2]|] eqn:Ef; [|discriminate].
  destruct (parse_exp s2) as [[ex s3]|] eqn:Ee; [|discriminate].
  injection H as <- <-.
  destruct (minus_sign_suffix _ Em) as (sg & ->).
  destruct (parse_int_reads _ Ei) as (a1 & [-> _] & D1 & N1).
  apply closes_prefix.
  eapply closes_then; [|eapply parse_exp_closes; exact Ee].
  eapply closes_then; [|eapply parse_frac_closes; exact Ef].
  now apply digits_close.
Qed.

(** A string ends with its closing quote. *)
Lemma parse_chars_closes (s str rest : jsstring) :
  parse_chars s = Some (str, rest) ->
  exists a d, s = a ++ d :: rest /\ (d =? quote) = true.
Proof.
  remember (length s) as n eqn:En.
  revert s str rest En.
  induction n as [n IH] using lt_wf_ind. intros s str rest En H.
  destruct s as [|c r]; [discriminate|]. cbn [parse_chars] in H.
  assert (Hrec : forall t str' rest',
             (length t < n)%nat -> parse_chars t = Some (str', rest') ->
             forall pre, exists a d,
               pre ++ t = a ++ d :: rest' /\ (d =? quote) = true).
  { intros t str' rest' Hlt Ht pre.
    destruct (IH _ Hlt t str' rest' eq_refl Ht) as (a & d & -> & Hd).
    exists (pre ++ a), d. split; [now rewrite <- app_assoc | exact Hd]. }
  subst n. cbn [length] in Hrec.
  destruct (c =? quote) eqn:Eq.
  - injection H as <- <-. now exists [], c.
  - destruct (c =? backslash).
    + destruct r as [|x r1]; [discriminate|].
      destruct (x =? ch "u").
      * destruct r1 as [|h1 [|h2 [|h3 [|h4 r2]]]]; try discriminate.
        destruct (hex4 h1 h2 h3 h4); [|discriminate].
        destruct (parse_chars r2) as [[str' rest']|] eqn:E; [|discriminate].
        injection H as <- <-.
        apply (Hrec r2 str' rest') with (pre := [c; x; h1; h2; h3; h4]);
          [cbn; lia | exact E].
      * destruct (escape x); [|discriminate].
        destruct (parse_chars r1) as [[str' rest']|] eqn:E; [|discriminate].
        injection H as <- <-.
        apply (Hrec r1 str' rest') with (pre := [c; x]); [cbn; lia | exact E].
    + destruct (c <? 32); [discriminate|].
      destruct (parse_chars r) as [[str' rest']|] eqn:E; [|discriminate].
      injection H as <- <-.
      apply (Hrec r str' rest') with (pre := [c]); [cbn; lia | exact E].
Qed.

Lemma eqb_value_end (x : N) (a : ascii) :
  value_end (ch a) = true -> (x =? ch a) = true -> value_end x = true.
Proof. intros Ha H. apply N.eqb_eq in H. now subst. Qed.

Lemma parse_keyword_closes (kw : jsstring) (v v' : value)
  (s rest : jsstring) :
  parse_keyword kw v s = Some (v', rest) ->
  (forall t, closes (kw ++ t) t) -> closes s rest.
Proof.
  intros H Hk. destruct (parse_keyword_reads _ _ _ H) as (_ & -> & _).
  apply Hk.
Qed.

Lemma skip_ws_suffix (s : jsstring) : exists w, s = w ++ skip_ws s.
Proof. destruct (skip_ws_spec s) as (w & E & _). now exists w. Qed.

Lemma closes_suffix (s rest : jsstring) :
  closes s rest -> exists pre, s = pre ++ rest.
Proof.
  intros (a & d & -> & _). exists (a ++ [d]). now rewrite <- app_assoc.
Qed.

Lemma parse_value_closes_step (fuel : nat) :
  (forall s acc v rest, parse_elements fuel s acc = Some (v, rest) ->
     closes s rest) ->
  (forall s acc v rest, parse_members fuel s acc = Some (v, rest) ->
     closes s rest) ->
  forall s v rest, parse_value (S fuel) s = Some (v, rest) -> closes s rest.
Proof.
  intros IHe IHm s v rest H.
  destruct s as [|c r]; [discriminate|]. rewrite parse_value_S in H.
  destruct (c =? ch "{").
  { destruct (skip_ws_suffix r) as (w & Er).
    destruct (skip_ws r) as [|x r1]; [discriminate|]. rewrite Er.
    apply closes_cons, closes_prefix.
    destruct (x =? ch "}") eqn:Ex.
    - injection H as <- <-. apply closes_snoc with (a := []).
      eapply eqb_value_end; [|exact Ex]. reflexivity.
    - eapply IHm; exact H. }
  destruct (c =? ch "[").
  { destruct (skip_ws_suffix r) as (w & Er).
    destruct (skip_ws r) as [|x r1]; [discriminate|]. rewrite Er.
    apply closes_cons, closes_prefix.
    destruct (x =? ch "]") eqn:Ex.
    - injection H as <- <-. apply closes_snoc with (a := []).
      eapply eqb_value_end; [|exact Ex]. reflexivity.
    - eapply IHe; exact H. }
  destruct (c =? quote).
  { destruct (parse_chars r) as [[str r1]|] eqn:Ec; [|discriminate].
    injection H as <- <-.
    destruct (parse_chars_closes _ Ec) as (a & d & -> & Hd).
    apply closes_cons, closes_snoc.
    apply N.eqb_eq in Hd. now subst. }
  destruct (c =? ch "t").
  { eapply parse_keyword_closes; [exact H|].
    intros t. apply (closes_snoc (js "tru") (ch "e")). reflexivity. }
  destruct (c =? ch "f").
  { eapply parse_keyword_closes; [exact H|].
    intros t. apply (closes_snoc (js "fals") (ch "e")). reflexivity. }
  destruct (c =? ch "n").
  { eapply parse_keyword_closes; [exact H|].
    intros t. apply (closes_snoc (js "nul") (ch "l")). reflexivity. }
  eapply parse_number_closes; exact H.
Qed.

Lemma parse_elements_closes_step (fuel : nat) :
  (forall s v rest, parse_value fuel s = Some (v, rest) -> closes s rest) ->
  (forall s acc v rest, parse_elements fuel s acc = Some (v, rest) ->
     closes s rest) ->
  forall s acc v rest, parse_elements (S fuel) s acc = Some (v, rest) ->
    closes s rest.
Proof.
  intros IHv IHe s acc v rest H. rewrite parse_elements_S in H.
  destruct (parse_value fuel s) as [[v1 r]|] eqn:Ev; [|discriminate].
  destruct (closes_suffix (IHv _ _ _ Ev)) as (pre & ->).
  destruct (skip_ws_suffix r) as (w1 & Er).
  destruct (skip_ws r) as [|x r1]; [discriminate|]. rewrite Er.
  do 2 apply closes_prefix.
  destruct (x =? ch ",").
  - destruct (skip_ws_suffix r1) as (w2 & Er1). rewrite Er1.
    apply closes_cons, closes_prefix. eapply IHe; exact H.
  - destruct (x =? ch "]") eqn:Ey; [|discriminate].
    injection H as <- <-. apply closes_snoc with (a := []).
    eapply eqb_value_end; [|exact Ey]. reflexivity.
Qed.

Lemma parse_members_closes_step (fuel : nat) :
  (forall s v rest, parse_value fuel s = Some (v, rest) -> closes s rest) ->
  (forall s acc v rest, parse_members fuel s acc = Some (v, rest) ->
     closes s rest) ->
  forall s acc v rest, parse_members (S fuel) s acc = Some (v, rest) ->
    closes s rest.
Proof.
  intros IHv IHm s acc v rest H.
  destruct s as [|c r0]; [discriminate|]. rewrite parse_members_S in H.
  destruct (c =? quote); [|discriminate].
  destruct (parse_chars r0) as [[key r1]|] eqn:Ek; [|discriminate].
  destruct (parse_chars_closes _ Ek) as (ak & dk & -> & _).
  destruct (skip_ws_suffix r1) as (wk & Er1).
  destruct (skip_ws r1) as [|y r2]; [discriminate|]. rewrite Er1.
  destruct (y =? ch ":"); [|discriminate].
  destruct (skip_ws_suffix r2) as (w3 & Er2).
  destruct (parse_value fuel (skip_ws r2)) as [[v1 r3]|] eqn:Ev; [|discriminate].
  destruct (closes_suffix (IHv _ _ _ Ev)) as (pre & Epre).
  rewrite Er2, Epre.
  destruct (skip_ws_suffix r3) as (w4 & Er3).
  destruct (skip_ws r3) as [|x r4]; [discriminate|]. rewrite Er3.
  apply closes_cons, closes_prefix, closes_cons, closes_prefix, closes_cons.
  do 3 apply closes_prefix.
  destruct (x =? ch ",").
  - destruct (skip_ws_suffix r4) as (w5 & Er4). rewrite Er4.
    apply closes_cons, closes_prefix. eapply IHm; exact H.
  - destruct (x =? ch "}") eqn:Ez; [|discriminate].
    injection H as <- <-. apply closes_snoc with (a := []).
    eapply eqb_value_end; [|exact Ez]. reflexivity.
Qed.

Lemma parsers_close (fuel : nat) :
  (forall s v rest, parse_value fuel s = Some (v, rest) -> closes s rest)
  /\ (forall s acc v rest, parse_elements fuel s acc = Some (v, rest) ->
        closes s rest)
  /\ (forall s acc v rest, parse_members fuel s acc = Some (v, rest) ->
        closes s rest).
Proof.
  induction fuel as [|fuel (IHv & IHe & IHm)].
  - repeat split; intros; discriminate.
  - split; [|split].
    + apply parse_value_closes_step; assumption.
    + apply parse_elements_closes_step; assumption.
    + apply parse_members_closes_step; assumption.
Qed.

(** A text that parses is a value, which ends as values do, and JSON
    white space after it. *)
Lemma parse_ends (text : jsstring) (v : value) :
  JSON.parse text = Some v ->
  exists a d w, text = a ++ d :: w /\ value_end d = true
    /\ Forall (fun c => is_ws c = true) w.
Proof.
  unfold JSON.parse.
  destruct (parse_value _ (skip_ws text)) as [[v' rest]|] eqn:E; [|discriminate].
  destruct (skip_ws rest) eqn:Er; [|discriminate]. intros _.
  destruct (proj1 (parsers_close _) _ _ _ E) as (a & d & Ea & Hd).
  destruct (skip_ws_suffix text) as (w0 & Et).
  destruct (skip_ws_spec rest) as (w & Ew & Hw & _).
  rewrite Er, app_nil_r in Ew. subst w.
  exists (w0 ++ a), d, rest. repeat split; auto.
  rewrite Et, Ea. now rewrite <- app_assoc.
Qed.

(** No text that ends with a backtick parses. *)
Lemma parse_backtick_end (t : jsstring) :
  JSON.parse (t ++ [backtick]) = None.
Proof.
  destruct (JSON.parse (t ++ [backtick])) as [v|] eqn:E; [|reflexivity].
  destruct (parse_ends _ E) as (a & d & w & Et & Hd & Hw). exfalso.
  apply (f_equal (@rev N)) in Et.
  rewrite rev_app_distr in Et. cbn [rev app] in Et.
  rewrite rev_app_distr in Et. cbn [rev] in Et.
  rewrite <- app_assoc in Et. cbn [app] in Et.
  apply Forall_rev in Hw.
  destruct (rev w) as [|x w'].
  - cbn in Et. injection Et as <- _. discriminate Hd.
  - cbn in Et. injection Et as <- _. inversion Hw; subst. discriminate.
Qed.

(** No text that begins with a backtick parses. *)
Lemma parse_backtick_start (t : jsstring) :
  JSON.parse (backtick :: t) = None.
Proof.
  unfold JSON.parse. rewrite skip_ws_cons_solid by reflexivity.
  replace (2 * length (backtick :: t) + 2)%nat
    with (S (2 * length (backtick :: t) + 1)) by lia.
  rewrite parse_value_S. reflexivity.
Qed.

End JsonEnds.

(* ================================================================== *)
(** * Further properties of the lookup                                 *)
(* ================================================================== *)

Section LookupMore.

Variable generateContent : jsstring -> Outcome.

(** What the lookup returns once the service has replied. *)
Lemma lookup_replied (title raw : jsstring) :
  title <> [] ->
  generateContent (prompt title) = Replied raw ->
  searchMediaWithGemini generateContent (Some title)
  = ([prompt title],
     match formatted_block title (trim (replace_code_fence raw)) with
     | Some block => block
     | None => unparseable_notice ++ trim (replace_code_fence raw)
     end).
Proof.
  intros Hne Hcall. unfold searchMediaWithGemini.
  rewrite (truthy_nonempty Hne). cbn [negb interpolate].
  now rewrite Hcall.
Qed.

(** X10. The lookup has no retry: for a title that is not empty it sends
    the service exactly one prompt, the one built from the title,
    whether the call succeeds, throws or returns text that is not
    JSON. *)
Theorem lookup_sends_one_prompt (title : jsstring) :
  title <> [] ->
  fst (searchMediaWithGemini generateContent (Some title)) = [prompt title].
Proof.
  intros Hne. unfold searchMediaWithGemini.
  rewrite (truthy_nonempty Hne). cbn [negb interpolate].
  destruct (generateContent (prompt title)); reflexivity.
Qed.

Lemma genre_text_unlistable (info : value) (p : property) :
  get info (js "genre") = Some p -> unlistable p -> genre_text info = None.
Proof.
  intros E [T Hn]. unfold genre_text. rewrite E, T.
  destruct p as [|v]; [reflexivity|].
  destruct v; try reflexivity. now contradiction (Hn elements).
Qed.

Lemma streaming_sites_text_unlistable (info : value) (p : property) :
  get info (js "streaming_sites") = Some p -> unlistable p ->
  streaming_sites_text info = None.
Proof.
  intros E [T Hn]. unfold streaming_sites_text. rewrite E, T.
  destruct p as [|v]; [reflexivity|].
  destruct v; try reflexivity. now contradiction (Hn elements).
Qed.

(** X12. A reply that is JSON but not of the expected shape is reported
    as unparseable: when the parsed value is [null], or its [genre] or
    its [streaming_sites] is truthy without being an array, the lookup
    returns the notice [Geminiからの応答を解析できませんでした。] followed by
    the stripped text, not the block. *)
Theorem lookup_wrong_shape (title raw : jsstring) (info : value) :
  title <> [] ->
  generateContent (prompt title) = Replied raw ->
  JSON.parse (trim (replace_code_fence raw)) = Some info ->
  info = Null
  \/ (exists p, get info (js "genre") = Some p /\ unlistable p)
  \/ (exists p, get info (js "streaming_sites") = Some p /\ unlistable p) ->
  searchMediaWithGemini generateContent (Some title)
  = ([prompt title],
     js "Geminiからの応答を解析できませんでした。" ++ LF ++ LF ++ js "---" ++ LF
     ++ trim (replace_code_fence raw)).
Proof.
  intros Hne Hcall Hp Hshape.
  rewrite (lookup_replied Hne Hcall).
  assert (E : formatted_block title (trim (replace_code_fence raw)) = None).
  { unfold formatted_block. rewrite Hp.
    destruct Hshape as [-> | [(p & Eg & Hu) | (p & Es & Hu)]].
    - reflexivity.
    - rewrite (genre_text_unlistable _ Eg Hu).
      destruct (summary_text info); reflexivity.
    - rewrite (streaming_sites_text_unlistable _ Es Hu).
      destruct (summary_text info), (genre_text info); reflexivity. }
  rewrite E. unfold unparseable_notice. now rewrite <- !app_assoc.
Qed.

Lemma ToString_unprintable (v : value) : unprintable v -> ToString v = None.
Proof.
  induction 1 as [members H | elements v Hin Hv IH].
  - now apply ToString_object.
  - rewrite ToString_array. unfold join.
    rewrite (@collect_none _ _ join_element elements v Hin); [reflexivity|].
    destruct Hv; exact IH.
Qed.

Lemma unprintable_truthy (v : value) : unprintable v -> ToBoolean v = true.
Proof. destruct 1; reflexivity. Qed.

(** X18. A reply that is JSON, with a value to show that does not
    convert to a string, is reported as unparseable: when the summary,
    an element of [genre] or an element of [streaming_sites] is an
    object with a member named [toString] (or an array holding one),
    the conversion throws a TypeError and the lookup returns the notice
    [Geminiからの応答を解析できませんでした。] followed by the stripped
    text, not the block. *)
Theorem lookup_unprintable (title raw : jsstring) (info : value) :
  title <> [] ->
  generateContent (prompt title) = Replied raw ->
  JSON.parse (trim (replace_code_fence raw)) = Some info ->
  (exists v, get info (js "summary") = Some (Defined v) /\ unprintable v)
  \/ (exists elements v,
        get info (js "genre") = Some (Defined (Arr elements))
        /\ In v elements /\ unprintable v)
  \/ (exists elements v,
        get info (js "streaming_sites") = Some (Defined (Arr elements))
        /\ In v elements /\ unprintable v) ->
  searchMediaWithGemini generateContent (Some title)
  = ([prompt title],
     js "Geminiからの応答を解析できませんでした。" ++ LF ++ LF ++ js "---" ++ LF
     ++ trim (replace_code_fence raw)).
Proof.
  intros Hne Hcall Hp Hshape.
  rewrite (lookup_replied Hne Hcall).
  assert (E : formatted_block title (trim (replace_code_fence raw)) = None).
  { unfold formatted_block. rewrite Hp.
    destruct Hshape as [(v & E & Hv) | [(l & v & E & Hin & Hv)
                                       | (l & v & E & Hin & Hv)]].
    - unfold summary_text. rewrite E, (unprintable_truthy Hv),
        (ToString_unprintable Hv). reflexivity.
    - assert (Eg : genre_text info = None).
      { unfold genre_text, join. rewrite E. cbn [truthy_property ToBoolean].
        rewrite (@collect_none _ _ join_element l v Hin); [reflexivity|].
        pose proof (ToString_unprintable Hv) as Hn. destruct Hv; exact Hn. }
      rewrite Eg. destruct (summary_text info); reflexivity.
    - assert (Es : streaming_sites_text info = None).
      { unfold streaming_sites_text. rewrite E.
        cbn [truthy_property ToBoolean].
        rewrite (@collect_none _ _
                   (fun site => option_map (fun text => js "- " ++ text)
                                  (ToString site)) l v Hin); [reflexivity|].
        now rewrite (ToString_unprintable Hv). }
      rewrite Es. destruct (summary_text info), (genre_text info); reflexivity. }
  rewrite E. unfold unparseable_notice. now rewrite <- !app_assoc.
Qed.

End LookupMore.

Section LookupFences.

Variable generateContent : jsstring -> Outcome.

Lemma endsWith_spec (p s : jsstring) :
  endsWith p s = true -> exists u, s = u ++ p.
Proof.
  unfold endsWith. intros H. apply startsWith_spec in H as [r H].
  exists (rev r). apply (f_equal (@rev N)) in H.
  rewrite rev_involutive, rev_app_distr, rev_involutive in H. exact H.
Qed.

(** Fence stripping leaves a text that parses as it is. *)
Lemma replace_code_fence_json (raw : jsstring) (info : value) :
  JSON.parse raw = Some info -> replace_code_fence raw = raw.
Proof.
  intros Hp. unfold replace_code_fence.
  assert (E1 : remove_opening_fence raw = raw).
  { unfold remove_opening_fence.
    destruct (startsWith (js "```json") raw) eqn:E; [|reflexivity].
    apply startsWith_spec in E as [r ->].
    change (js "```json" ++ r) with (backtick :: js "``json" ++ r) in Hp.
    rewrite parse_backtick_start in Hp. discriminate. }
  rewrite E1. unfold remove_closing_fence.
  destruct (endsWith (js "```") raw) eqn:E; [|reflexivity].
  apply endsWith_spec in E as [u ->].
  change (js "```") with (js "``" ++ [backtick]) in Hp.
  rewrite app_assoc, parse_backtick_end in Hp. discriminate.
Qed.

(** X13. A reply that is JSON without any fence goes through the
    stripping unchanged but for the trimming, and still parses to the
    same value: the lookup treats it as it treats the trimmed text. *)
Theorem lookup_bare_json (title raw : jsstring) (info : value) :
  title <> [] ->
  generateContent (prompt title) = Replied raw ->
  JSON.parse raw = Some info ->
  replace_code_fence raw = raw
  /\ JSON.parse (trim (replace_code_fence raw)) = Some info
  /\ searchMediaWithGemini generateContent (Some title)
     = ([prompt title],
        match formatted_block title (trim raw) with
        | Some block => block
        | None => unparseable_notice ++ trim raw
        end).
Proof.
  intros Hne Hcall Hp.
  pose proof (replace_code_fence_json _ Hp) as E.
  split; [exact E|]. split; [rewrite E; now apply parse_trim|].
  rewrite (lookup_replied generateContent Hne Hcall). now rewrite E.
Qed.

Lemma trimEnd_head (c : N) (u : jsstring) :
  is_white_space c = false -> exists u', trimEnd (c :: u) = c :: u'.
Proof.
  intros Hc. unfold trimEnd.
  destruct (trimStart_suffix (rev (c :: u))) as (w & Hw & E).
  destruct (trimStart (rev (c :: u))) as [|x t] eqn:Et.
  - rewrite app_nil_r in E. exfalso.
    assert (Hin : In c (rev (c :: u))) by (apply in_rev; rewrite rev_involutive; now left).
    rewrite E in Hin. unfold blank in Hw. rewrite Forall_forall in Hw.
    specialize (Hw _ Hin). cbn in Hw. congruence.
  - apply (f_equal (@rev N)) in E.
    rewrite rev_involutive, rev_app_distr in E.
    destruct (rev (x :: t)) as [|y t'] eqn:Er.
    + apply (f_equal (@rev N)) in Er. rewrite rev_involutive in Er.
      discriminate.
    + cbn [app] in E. injection E as <- _. now exists t'.
Qed.

(** X14. A code fence without the [json] tag defeats the stripping: for
    a reply that begins with a backtick but not with [```json], and is
    more than the fence [```] alone, the text handed to [JSON.parse]
    still begins with a backtick, does not parse, and the lookup
    returns the notice for an unparseable reply. *)
Theorem lookup_untagged_fence (title r : jsstring) :
  title <> [] ->
  generateContent (prompt title) = Replied (backtick :: r) ->
  startsWith (js "```json") (backtick :: r) = false ->
  backtick :: r <> js "```" ->
  JSON.parse (trim (replace_code_fence (backtick :: r))) = None
  /\ searchMediaWithGemini generateContent (Some title)
     = ([prompt title],
        js "Geminiからの応答を解析できませんでした。" ++ LF ++ LF ++ js "---"
        ++ LF ++ trim (replace_code_fence (backtick :: r))).
Proof.
  intros Hne Hcall Hopen Hmore.
  assert (Hp : JSON.parse (trim (replace_code_fence (backtick :: r))) = None).
  { unfold replace_code_fence, remove_opening_fence. rewrite Hopen.
    assert (Hk : exists u, remove_closing_fence (backtick :: r) = backtick :: u).
    { unfold remove_closing_fence.
      destruct (endsWith (js "```") (backtick :: r)) eqn:E; [|now exists r].
      apply endsWith_spec in E as [u E]. rewrite E.
      rewrite firstn_length_app.
      destruct u as [|x u]; [now contradiction Hmore|].
      injection E as <- _. now exists u. }
    destruct Hk as (u & ->).
    unfold trim. rewrite trimStart_fixed by reflexivity.
    destruct (@trimEnd_head backtick u eq_refl) as (u' & ->).
    apply parse_backtick_start. }
  split; [exact Hp|].
  rewrite (lookup_replied generateContent Hne Hcall).
  unfold formatted_block. rewrite Hp.
  unfold unparseable_notice. now rewrite <- !app_assoc.
Qed.

Lemma trimStart_before_solid (b : jsstring) (c : N) (t : jsstring) :
  is_white_space c = false ->
  trimStart (b ++ c :: t) = trimStart b ++ c :: t.
Proof.
  intros Hc. induction b as [|x b IH]; cbn.
  - now rewrite Hc.
  - destruct (is_white_space x); [exact IH | reflexivity].
Qed.

Lemma endsWith_fence_blank (s w : jsstring) :
  blank w -> w <> [] -> endsWith (js "```") (s ++ w) = false.
Proof.
  intros Hw Hne. unfold endsWith. rewrite rev_app_distr.
  apply blank_rev in Hw.
  destruct (rev w) as [|d t] eqn:E.
  - apply (f_equal (@rev N)) in E. rewrite rev_involutive in E. contradiction.
  - inversion Hw as [|? ? Hd _]; subst.
    change (rev (js "```")) with (backtick :: [backtick; backtick]).
    cbn [app startsWith].
    replace (N.eqb backtick d) with false; [reflexivity|].
    symmetry. apply N.eqb_neq. intros <-. discriminate Hd.
Qed.

Lemma trimEnd_solid_last (s : jsstring) (d : N) :
  is_white_space d = false -> trimEnd (s ++ [d]) = s ++ [d].
Proof.
  intros Hd. unfold trimEnd. rewrite rev_app_distr. cbn [rev app].
  rewrite trimStart_fixed by exact Hd.
  cbn [rev]. now rewrite rev_involutive.
Qed.

(** X15. White space after the closing fence defeats the stripping too:
    the pattern wants the three backticks at the very end, and the
    trimming comes after the replacement. For a reply made of
    [```json], white space, a body, [```] and then white space, the
    text handed to [JSON.parse] is the body with the fence still
    behind it; it does not parse, whatever the body, and the lookup
    returns the notice for an unparseable reply. *)
Theorem lookup_space_after_fence (title w1 body w2 : jsstring) :
  title <> [] -> blank w1 -> blank w2 -> w2 <> [] ->
  generateContent (prompt title)
  = Replied (js "```json" ++ w1 ++ body ++ js "```" ++ w2) ->
  trim (replace_code_fence (js "```json" ++ w1 ++ body ++ js "```" ++ w2))
  = trimStart body ++ js "```"
  /\ searchMediaWithGemini generateContent (Some title)
     = ([prompt title],
        js "Geminiからの応答を解析できませんでした。" ++ LF ++ LF ++ js "---"
        ++ LF ++ trimStart body ++ js "```").
Proof.
  intros Hne H1 H2 Hw2 Hcall.
  assert (E : trim (replace_code_fence
                      (js "```json" ++ w1 ++ body ++ js "```" ++ w2))
              = trimStart body ++ js "```").
  { unfold replace_code_fence.
    rewrite remove_opening_fence_json, trimStart_blank by exact H1.
    change (js "```" ++ w2) with (backtick :: js "``" ++ w2).
    rewrite trimStart_before_solid by reflexivity.
    change (backtick :: js "``" ++ w2) with (js "```" ++ w2).
    unfold remove_closing_fence.
    rewrite (app_assoc (trimStart body)), endsWith_fence_blank by assumption.
    rewrite <- app_assoc.
    assert (Hs : trimStart (trimStart body ++ js "```" ++ w2)
                 = trimStart body ++ js "```" ++ w2).
    { destruct (trimStart_head body) as [-> | Hsolid];
        [reflexivity | now apply trimStart_solid]. }
    unfold trim. rewrite Hs, app_assoc, trimEnd_blank by exact H2.
    change (js "```") with (js "``" ++ [backtick]).
    rewrite app_assoc. now apply trimEnd_solid_last. }
  split; [exact E|].
  rewrite (lookup_replied generateContent Hne Hcall), E.
  change (js "```") with (js "``" ++ [backtick]) at 1 2.
  unfold formatted_block. rewrite app_assoc, parse_backtick_end.
  unfold unparseable_notice. now rewrite <- !app_assoc.
Qed.

End LookupFences.

Section LookupMoreExamples.

Lemma lookup_sends_one_prompt_witness :
  fst (searchMediaWithGemini
         (fun _ => Thrown (MkError (js "fetch failed"))) (Some (js "Show X")))
  = [prompt (js "Show X")].
Proof.
  apply (@lookup_sends_one_prompt
           (fun _ => Thrown (MkError (js "fetch failed"))) (js "Show X")).
  discriminate.
Defined.

Lemma lookup_wrong_shape_witness :
  searchMediaWithGemini (fun _ => Replied not_found_reply) (Some (js "Show X"))
  = ([prompt (js "Show X")],
     js "Geminiからの応答を解析できませんでした。" ++ LF ++ LF ++ js "---" ++ LF
     ++ trim (replace_code_fence not_found_reply)).
Proof.
  apply (@lookup_wrong_shape (fun _ => Replied not_found_reply)
           (js "Show X") not_found_reply
           (Obj [(js "summary", Str (js "情報が見つかりませんでした。"));
                 (js "genre", Str (js "情報が見つかりませんでした。"));
                 (js "streaming_sites",
                  Str (js "情報が見つかりませんでした。"))])).
  - discriminate.
  - reflexivity.
  - vm_compute. reflexivity.
  - right; left.
    exists (Defined (Str (js "情報が見つかりませんでした。"))).
    split; [vm_compute; reflexivity|].
    split; [reflexivity | intros elements; discriminate].
Defined.

Lemma lookup_unprintable_witness :
  searchMediaWithGemini (fun _ => Replied toString_member_reply)
    (Some (js "Show X"))
  = ([prompt (js "Show X")],
     js "Geminiからの応答を解析できませんでした。" ++ LF ++ LF ++ js "---" ++ LF
     ++ trim (replace_code_fence toString_member_reply)).
Proof.
  apply (@lookup_unprintable (fun _ => Replied toString_member_reply)
           (js "Show X") toString_member_reply
           (Obj [(js "summary",
                  Obj [(js "toString", Num (Number.of_Z 1))])])).
  - discriminate.
  - reflexivity.
  - vm_compute. reflexivity.
  - left. exists (Obj [(js "toString", Num (Number.of_Z 1))]).
    split; [vm_compute; reflexivity|].
    constructor. vm_compute. discriminate.
Defined.

Lemma lookup_bare_json_witness :
  replace_code_fence not_found_reply = not_found_reply
  /\ JSON.parse (trim (replace_code_fence not_found_reply))
     = Some (Obj [(js "summary", Str (js "情報が見つかりませんでした。"));
                  (js "genre", Str (js "情報が見つかりませんでした。"));
                  (js "streaming_sites",
                   Str (js "情報が見つかりませんでした。"))])
  /\ searchMediaWithGemini (fun _ => Replied not_found_reply)
       (Some (js "Show X"))
     = ([prompt (js "Show X")],
        match formatted_block (js "Show X") (trim not_found_reply) with
        | Some block => block
        | None => unparseable_notice ++ trim not_found_reply
        end).
Proof.
  apply (@lookup_bare_json (fun _ => Replied not_found_reply)
           (js "Show X") not_found_reply).
  - discriminate.
  - reflexivity.
  - vm_compute. reflexivity.
Defined.

Lemma lookup_untagged_fence_witness :
  JSON.parse
    (trim (replace_code_fence
             (backtick :: js "``" ++ LF ++ js "{}" ++ LF ++ js "```")))
  = None
  /\ searchMediaWithGemini
       (fun _ => Replied (backtick :: js "``" ++ LF ++ js "{}" ++ LF
                            ++ js "```"))
       (Some (js "Show X"))
     = ([prompt (js "Show X")],
        js "Geminiからの応答を解析できませんでした。" ++ LF ++ LF ++ js "---"
        ++ LF
        ++ trim (replace_code_fence
                   (backtick :: js "``" ++ LF ++ js "{}" ++ LF ++ js "```"))).
Proof.
  apply (@lookup_untagged_fence
           (fun _ => Replied (backtick :: js "``" ++ LF ++ js "{}" ++ LF
                                ++ js "```"))
           (js "Show X") (js "``" ++ LF ++ js "{}" ++ LF ++ js "```")).
  - discriminate.
  - reflexivity.
  - vm_compute. reflexivity.
  - vm_compute. discriminate.
Defined.

Lemma lookup_space_after_fence_witness :
  trim (replace_code_fence
          (js "```json" ++ LF ++ (js "{}" ++ LF) ++ js "```" ++ LF))
  = trimStart (js "{}" ++ LF) ++ js "```"
  /\ searchMediaWithGemini
       (fun _ => Replied (js "```json" ++ LF ++ (js "{}" ++ LF) ++ js "```"
                            ++ LF))
       (Some (js "Show X"))
     = ([prompt (js "Show X")],
        js "Geminiからの応答を解析できませんでした。" ++ LF ++ LF ++ js "---"
        ++ LF ++ trimStart (js "{}" ++ LF) ++ js "```").
Proof.
  apply (@lookup_space_after_fence
           (fun _ => Replied (js "```json" ++ LF ++ (js "{}" ++ LF)
                                ++ js "```" ++ LF))
           (js "Show X") LF (js "{}" ++ LF) LF).
  - discriminate.
  - repeat constructor.
  - repeat constructor.
  - discriminate.
  - reflexivity.
Defined.

Lemma lookup_renders_block_witness :
  searchMediaWithGemini (fun _ => Replied example_reply) (Some (js "Show X"))
  = ([prompt (js "Show X")],
     js "作品: '" ++ js "Show X" ++ js "' の情報" ++ LF
     ++ js "----------------------------------------" ++ LF
     ++ js "【概要】" ++ LF ++ js "S" ++ LF ++ LF
     ++ js "【ジャンル】" ++ LF ++ intercalate (js ", ") [js "A"; js "B"]
     ++ LF ++ LF
     ++ js "【主な配信サイト】" ++ LF
     ++ intercalate LF (map (fun part => js "- " ++ part) [js "Netflix"])
     ++ LF
     ++ js "----------------------------------------" ++ LF
     ++ LF ++ js "(この情報はGeminiによって生成されました)").
Proof.
  apply (@lookup_renders_block (fun _ => Replied example_reply)
           (js "Show X") example_reply
           (Obj [(js "summary", Str (js "S"));
                 (js "genre", Arr [Str (js "A"); Str (js "B")]);
                 (js "streaming_sites", Arr [Str (js "Netflix")])])
           (Defined (Str (js "S")))
           (Defined (Arr [Str (js "A"); Str (js "B")]))
           (Defined (Arr [Str (js "Netflix")]))).
  - discriminate.
  - reflexivity.
  - vm_compute. reflexivity.
  - vm_compute. reflexivity.
  - right. exists (Str (js "S")). repeat split.
  - vm_compute. reflexivity.
  - right. exists [Str (js "A"); Str (js "B")], [js "A"; js "B"].
    repeat constructor.
  - vm_compute. reflexivity.
  - right. exists [Str (js "Netflix")], [js "Netflix"]. repeat constructor.
Defined.

End LookupMoreExamples.

(* ================================================================== *)
(** * Properties of start-up and reset                                 *)
(* ================================================================== *)

Section LifeCycle.



(** X17. A reset whose file deletion throws (there is no file, or the
    file system refuses) changes nothing on disk and asks for neither
    relaunch nor quit: the process goes on, and with its database
    handle closed unless the close itself failed. *)
Theorem reset_deletion_fails (close_fault unlink_fault : option Error)
  (p : Process) :
  file p = None \/ unlink_fault <> None ->
  file (reset_history close_fault unlink_fault p) = file p
  /\ relaunch (reset_history close_fault unlink_fault p) = relaunch p
  /\ quit (reset_history close_fault unlink_fault p) = quit p
  /\ (close_fault = None ->
      connected (reset_history close_fault unlink_fault p) = false).
Proof.
  intros H.
  assert (E : unlinkSync unlink_fault (file p) = None).
  { unfold unlinkSync. destruct (file p); [|reflexivity].
    destruct H as [H | H]; [discriminate|].
    destruct unlink_fault; [reflexivity | now contradiction H]. }
  unfold reset_history. rewrite E. repeat split.
  intros ->. reflexivity.
Qed.

Lemma reset_deletion_fails_witness :
  file (reset_history None (Some (MkError (js "EPERM"))) sample_process)
  = file sample_process
  /\ relaunch (reset_history None (Some (MkError (js "EPERM"))) sample_process)
     = relaunch sample_process
  /\ quit (reset_history None (Some (MkError (js "EPERM"))) sample_process)
     = quit sample_process
  /\ (@None Error = None ->
      connected (reset_history None (Some (MkError (js "EPERM")))
                   sample_process) = false).
Proof.
  apply (@reset_deletion_fails None (Some (MkError (js "EPERM")))
           sample_process).
  right. discriminate.
Defined.

End LifeCycle.

(* ================================================================== *)
(** * Recording and listing together                                   *)
(* ================================================================== *)

Section RecordingListing.

(** Where a row added last is listed, and that the rows listed before
    and after it are the former listing. *)
Lemma order_snoc_keeps (l : list ViewingHistory.Row) (new : ViewingHistory.Row) :
  exists front back,
    ViewingHistory.order_by_recorded_at_desc (l ++ [new]) = front ++ new :: back
    /\ ViewingHistory.order_by_recorded_at_desc l = front ++ back
    /\ Forall (fun x => JsString.leb (ViewingHistory.recorded_at new)
                          (ViewingHistory.recorded_at x) = true) front
    /\ Forall (fun x => JsString.ltb (ViewingHistory.recorded_at x)
                          (ViewingHistory.recorded_at new) = true) back.
Proof.
  induction l as [|r l (front & back & E & E0 & Hf & Hb)]; cbn [app].
  - exists [], []. repeat split; constructor.
  - cbn [ViewingHistory.order_by_recorded_at_desc]. rewrite E, E0.
    destruct (JsString.ltb (ViewingHistory.recorded_at r)
                (ViewingHistory.recorded_at new)) eqn:Hr.
    + assert (Hpass : Forall (fun x => JsString.ltb (ViewingHistory.recorded_at r)
                               (ViewingHistory.recorded_at x) = true) front).
      { eapply Forall_impl; [|exact Hf].
        intros x Hx. eapply ltb_leb_trans; eauto. }
      exists front, (ViewingHistory.place r back). repeat split.
      * rewrite place_after by exact Hpass. cbn. now rewrite Hr.
      * now rewrite place_after.
      * exact Hf.
      * eapply Permutation_Forall; [apply place_perm|]. now constructor.
    + exists (ViewingHistory.place r front), back. repeat split.
      * now apply place_before.
      * destruct back as [|b back].
        -- now rewrite !app_nil_r.
        -- apply place_before.
           inversion Hb as [|? ? Hbn _]; subst.
           destruct (JsString.ltb (ViewingHistory.recorded_at r)
                       (ViewingHistory.recorded_at b)) eqn:Hrb; [|reflexivity].
           rewrite (ltb_trans _ _ _ Hrb Hbn) in Hr. discriminate.
      * eapply Permutation_Forall; [apply place_perm|].
        constructor; [now apply ltb_false_leb | exact Hf].
      * exact Hb.
Qed.

(** X8. An accepted record adds exactly one line to the listing and
    moves none: the lines listed before come back in the same order,
    with the new line, [・{start_date} ~ {end_date}: {media_title}] and
    its suffixes, between those whose timestamp is not smaller and
    those whose timestamp is smaller than the reading of the clock. The
    texts of the line are the given ones as the store returns them. *)
Theorem record_inserts_one_line (recordedAt : jsstring) (data : Data)
  (db : ViewingHistory.Database) (title start stop : jsstring) :
  mediaTitle data = Some title -> startDate data = Some start ->
  endDate data = Some stop ->
  title <> [] -> start <> [] -> stop <> [] ->
  let new := new_row db recordedAt title start stop data in
  exists front back rating_part notes_part tags_part,
    ViewingHistory.order_by_recorded_at_desc (ViewingHistory.rows db)
    = front ++ back
    /\ (ViewingHistory.rows db <> [] ->
        getAllViewingHistory None db
        = inr (history_header ++ concat (map display_row front)
                 ++ concat (map display_row back)))
    /\ getAllViewingHistory None
         (fst (recordViewingHistory recordedAt None data db))
       = inr (history_header ++ concat (map display_row front)
                ++ (js "・" ++ ViewingHistory.start_date new ++ js " ~ "
                      ++ ViewingHistory.end_date new ++ js ": "
                      ++ ViewingHistory.media_title new
                      ++ rating_part ++ notes_part ++ tags_part ++ LF)
                ++ concat (map display_row back))
    /\ (stored_text title (ViewingHistory.media_title new)
        /\ stored_text start (ViewingHistory.start_date new)
        /\ stored_text stop (ViewingHistory.end_date new)
        /\ ViewingHistory.rating new = rating data
        /\ stored_field (notes data) (ViewingHistory.notes new)
        /\ stored_field (tags data) (ViewingHistory.tags new))
    /\ rating_suffix (ViewingHistory.rating new) rating_part
    /\ text_suffix (js " [メモ: ") (ViewingHistory.notes new) notes_part
    /\ text_suffix (js " [タグ: ") (ViewingHistory.tags new) tags_part
    /\ Forall (fun x => JsString.leb recordedAt
                          (ViewingHistory.recorded_at x) = true) front
    /\ Forall (fun x => JsString.ltb (ViewingHistory.recorded_at x)
                          recordedAt = true) back.
Proof.
  intros Ht Hs He Nt Ns Ne new.
  rewrite (record_accepts recordedAt data db Ht Hs He Nt Ns Ne). cbn [fst].
  fold new.
  destruct (display_row_spec new) as (rp & np & tp & Hline & Hr & Hn & Hg).
  destruct (order_snoc_keeps (ViewingHistory.rows db) new)
    as (front & back & Ho & Hold & Hf & Hb).
  exists front, back, rp, np, tp.
  split; [exact Hold|].
  split; [|split; [|split; [|split; [exact Hr | split; [exact Hn | split;
    [exact Hg | split; assumption]]]]]].
  - intros Hne. unfold getAllViewingHistory, ViewingHistory.all_ordered.
    rewrite Hold.
    destruct (front ++ back) as [|y t] eqn:El.
    { pose proof (order_perm (ViewingHistory.rows db)) as P.
      rewrite Hold in P. apply Permutation_sym, Permutation_nil in P.
      contradiction. }
    rewrite <- El, display_fold, map_app, concat_app. reflexivity.
  - unfold getAllViewingHistory, ViewingHistory.all_ordered, with_row;
      cbn [ViewingHistory.rows]. rewrite Ho.
    destruct (front ++ new :: back) as [|y t] eqn:El.
    { destruct front; discriminate. }
    rewrite <- El, display_fold, map_app, concat_app. cbn [map concat].
    rewrite Hline. reflexivity.
  - repeat split; try apply bind_text_replaces;
      try apply bind_text_is_well_formed; try apply bind_text_well_formed;
      apply bind_field_stored.
Qed.

Lemma record_inserts_one_line_witness :
  let new := new_row example_db example_clock (js "　進撃の巨人 😀 ") (js " ")
               (js "  ") wide_data in
  exists front back rating_part notes_part tags_part,
    ViewingHistory.order_by_recorded_at_desc (ViewingHistory.rows example_db)
    = front ++ back
    /\ (ViewingHistory.rows example_db <> [] ->
        getAllViewingHistory None example_db
        = inr (history_header ++ concat (map display_row front)
                 ++ concat (map display_row back)))
    /\ getAllViewingHistory None
         (fst (recordViewingHistory example_clock None wide_data example_db))
       = inr (history_header ++ concat (map display_row front)
                ++ (js "・" ++ ViewingHistory.start_date new ++ js " ~ "
                      ++ ViewingHistory.end_date new ++ js ": "
                      ++ ViewingHistory.media_title new
                      ++ rating_part ++ notes_part ++ tags_part ++ LF)
                ++ concat (map display_row back))
    /\ (stored_text (js "　進撃の巨人 😀 ") (ViewingHistory.media_title new)
        /\ stored_text (js " ") (ViewingHistory.start_date new)
        /\ stored_text (js "  ") (ViewingHistory.end_date new)
        /\ ViewingHistory.rating new = rating wide_data
        /\ stored_field (notes wide_data) (ViewingHistory.notes new)
        /\ stored_field (tags wide_data) (ViewingHistory.tags new))
    /\ rating_suffix (ViewingHistory.rating new) rating_part
    /\ text_suffix (js " [メモ: ") (ViewingHistory.notes new) notes_part
    /\ text_suffix (js " [タグ: ") (ViewingHistory.tags new) tags_part
    /\ Forall (fun x => JsString.leb example_clock
                          (ViewingHistory.recorded_at x) = true) front
    /\ Forall (fun x => JsString.ltb (ViewingHistory.recorded_at x)
                          example_clock = true) back.
Proof.
  apply (@record_inserts_one_line example_clock wide_data example_db
           (js "　進撃の巨人 😀 ") (js " ") (js "  "));
    try reflexivity; discriminate.
Defined.

(** The listing after the records of the examples: the later record
    first, its texts as given, white space and all. *)
Lemma record_wide_example :
  getAllViewingHistory None
    (fst (recordViewingHistory example_clock None wide_data example_db))
  = inr (js "--- 視聴履歴一覧 ---" ++ LF
           ++ js "・  ~   : 　進撃の巨人 😀  [メモ:   メモ  ]" ++ LF
           ++ js "・2024-05-01 ~ 2024-05-03: Show X" ++ LF).
Proof. vm_compute. reflexivity. Qed.

Lemma record_stored (c : Call) (db : ViewingHistory.Database) :
  length (ViewingHistory.rows
            (fst (recordViewingHistory (call_clock c) (call_fault c)
                    (call_data c) db)))
  = (length (ViewingHistory.rows db) + if stored c then 1 else 0)%nat.
Proof.
  unfold stored, recordViewingHistory.
  destruct (truthy (mediaTitle (call_data c))) eqn:Ht; cbn [negb orb andb];
    [|cbn; lia].
  destruct (truthy (startDate (call_data c))) eqn:Hs; cbn [negb orb andb];
    [|cbn; lia].
  destruct (truthy (endDate (call_data c))) eqn:He; cbn [negb orb andb];
    [|cbn; lia].
  destruct (truthy_spec _ Ht) as (title & Et & _).
  destruct (truthy_spec _ Hs) as (start & Es & _).
  destruct (truthy_spec _ He) as (stop & Ee & _).
  unfold ViewingHistory.run_insert.
  cbn [ViewingHistory.p_media_title ViewingHistory.p_start_date
       ViewingHistory.p_end_date ViewingHistory.p_recorded_at].
  destruct (call_fault c); [cbn; lia|].
  rewrite Et, Es, Ee. cbn [fst ViewingHistory.rows].
  rewrite length_app. reflexivity.
Qed.

(** X7. No record is lost or stored twice: after any series of calls
    of [recordViewingHistory] the database has one more row for each
    call whose three required fields were truthy and whose INSERT met
    no engine fault, and none for the others. *)
Theorem record_all_count (calls : list Call) (db : ViewingHistory.Database) :
  length (ViewingHistory.rows (record_all calls db))
  = (length (ViewingHistory.rows db) + length (filter stored calls))%nat.
Proof.
  revert db; induction calls as [|c calls IH]; intros db; cbn [record_all filter].
  - cbn. lia.
  - rewrite IH, record_stored. destruct (stored c); cbn [length]; lia.
Qed.

End RecordingListing.
